(** * pronunciation_analyzer: scoring, prosody hints and feature extraction

    A shallow embedding of [src/pronunciation_analyzer.py] and of the
    functions and handlers of [src/main.py].

    - Python [str] values are lists of Unicode code points ([N]), so that
      [len], [strip], [replace] and [split] count what Python counts.
    - Python [float] and the int/float mixtures of the source are written
      against an interface [PyFloat] of the arithmetic the source uses
      ([+ - * /], [<], [>], [int()]).  Two instances are given: IEEE
      binary64 (the kernel's primitive floats, which is what CPython
      computes with) and exact rational arithmetic.  What is proved of
      the scorer for all inputs is proved in binary64, from the
      specification of the float operations in [SpecFloat].
    - A feature dictionary is a [gmap string F].
    - The calls into [jellyfish], [librosa] and [numpy] are not part of the
      repository; the two string metrics are modelled after the library's
      algorithms, the audio calls are parameters that may raise. *)

From Stdlib Require Import ZArith QArith Qround Lia Lqa Uint63 Qpower Zpower.
From Stdlib Require Import Floats.PrimFloat Floats.FloatOps Floats.SpecFloat.
From Stdlib Require Import Floats.FloatAxioms.
From stdpp Require Import gmap strings list.

Close Scope Q_scope.
Local Open Scope nat_scope.

(** ** Strings *)

Abbreviation str := (list N).

(** An ASCII literal as a Python string. *)
Definition py (s : string) : str :=
  (λ a, Ascii.N_of_ascii a) <$> String.list_ascii_of_string s.

(** [str.isspace] on one code point: the code points CPython treats as
    whitespace in [strip()] and [split()]. *)
Definition isspace (c : N) : bool :=
  ((9 <=? c) && (c <=? 13) || (28 <=? c) && (c <=? 32) ||
   (c =? 133) || (c =? 160) || (c =? 5760) ||
   (8192 <=? c) && (c <=? 8202) ||
   (c =? 8232) || (c =? 8233) || (c =? 8239) || (c =? 8287) ||
   (c =? 12288))%N.

Fixpoint lstrip (s : str) : str :=
  match s with
  | c :: s' => if isspace c then lstrip s' else s
  | [] => []
  end.

Definition rstrip (s : str) : str := rev (lstrip (rev s)).

(** [s.strip()] *)
Definition strip (s : str) : str := rstrip (lstrip s).

(** [s.replace(old, new)] for a one-character [old]. *)
Definition replace (old : N) (new : str) (s : str) : str :=
  c ← s; if (c =? old)%N then new else [c].

(** [s.split()]: maximal runs of non-whitespace; [cur] is the run being
    read, most recent character first. *)
Fixpoint split_from (cur : str) (s : str) : list str :=
  match s with
  | [] => match cur with [] => [] | _ => [rev cur] end
  | c :: s' =>
      if isspace c
      then match cur with
           | [] => split_from [] s'
           | _ => rev cur :: split_from [] s'
           end
      else split_from (c :: cur) s'
  end.

Definition split (s : str) : list str := split_from [] s.

(** [str.lower] restricted to Basic Latin and Latin-1: A-Z, U+00C0-U+00D6
    and U+00D8-U+00DE move up by 32; every other code point of these two
    blocks is its own lowercase.  Code points beyond U+00FF are left as they
    are, so this table is [str.lower] only on strings of these two blocks. *)
Definition lower_latin1 (s : str) : str :=
  (λ c, if ((65 <=? c) && (c <=? 90) ||
            (192 <=? c) && (c <=? 222) && negb (c =? 215))%N
        then (c + 32)%N else c) <$> s.

(** ** Arithmetic *)

(** The operations the source applies to numbers.  [of_int] is the
    conversion Python performs when an [int] meets a [float]; [to_int] is
    [int(x)], truncation towards zero, which raises on NaN and infinities
    ([None]). *)
Class PyFloat (F : Type) := {
  of_int : Z → F;
  fadd : F → F → F;
  fsub : F → F → F;
  fmul : F → F → F;
  fdiv : F → F → F;
  fltb : F → F → bool;
  to_int : F → option Z;
}.

Declare Scope py_scope.
Delimit Scope py_scope with py.
Infix "+" := fadd : py_scope.
Infix "-" := fsub : py_scope.
Infix "*" := fmul : py_scope.
Infix "/" := fdiv : py_scope.
Infix "<?" := fltb : py_scope.
Notation "x >? y" := (fltb y x) : py_scope.

(** A decimal literal [n/d] of the source, [d] a power of ten.  In binary64
    both [n] and [d] are exact and the quotient is rounded once, which is
    the value the Python parser gives the literal. *)
Definition dec `{PyFloat F} (n d : Z) : F := (of_int n / of_int d)%py.

(** *** Exact rationals *)

Definition Qltb (x y : Q) : bool :=
  match Qcompare x y with Lt => true | _ => false end.

Definition Qtrunc (x : Q) : Z := Z.quot (Qnum x) (Zpos (Qden x)).

#[export] Instance rational : PyFloat Q := {|
  of_int := inject_Z;
  fadd := Qplus;
  fsub := Qminus;
  fmul := Qmult;
  fdiv := Qdiv;
  fltb := Qltb;
  to_int := λ x, Some (Qtrunc x);
|}.

(** *** IEEE binary64 *)

(** [float(z)]; exact for [|z| < 2^53], which covers every length and
    constant of the source ([of_Z] wraps from [2^63] on). *)
Definition f64_of_int (z : Z) : float :=
  if (z <? 0)%Z
  then PrimFloat.opp (PrimFloat.of_uint63 (Uint63.of_Z (- z)))
  else PrimFloat.of_uint63 (Uint63.of_Z z).

(** [int(x)] from the sign, mantissa and exponent of [x]. *)
Definition f64_to_int (x : float) : option Z :=
  match Prim2SF x with
  | S754_zero _ => Some 0%Z
  | S754_finite s m e =>
      let a := match e with
               | Zneg k => Z.shiftr (Zpos m) (Zpos k)
               | _ => Z.shiftl (Zpos m) e
               end in
      Some (if s then (- a)%Z else a)
  | S754_infinity _ | S754_nan => None
  end.

#[export] Instance binary64 : PyFloat float := {|
  of_int := f64_of_int;
  fadd := PrimFloat.add;
  fsub := PrimFloat.sub;
  fmul := PrimFloat.mul;
  fdiv := PrimFloat.div;
  fltb := PrimFloat.ltb;
  to_int := f64_to_int;
|}.

(** ** The string metrics of [jellyfish] *)

Module jellyfish.

(** Modelled from the spec: [jellyfish.levenshtein_distance] belongs to an
    external library and is not under [src/].  The spec's glossary defines
    it as the minimum number of single-character insertions, deletions and
    substitutions; the model is the library's two-row dynamic programme that
    computes it. *)

(** One pass of the inner loop [for c in range(1, cols)].  [prev] is the
    previous row from column [c - 1] on, [left] is [cur[c - 1]]. *)
Fixpoint lev_row (a : N) (s2 : str) (prev : list nat) (left : nat) : list nat :=
  match s2, prev with
  | b :: s2', diag :: (up :: _) as prev' =>
      let deletion := up + 1 in
      let insertion := left + 1 in
      let edit := diag + (if (a =? b)%N then 0 else 1) in
      let v := edit `min` (deletion `min` insertion) in
      v :: lev_row a s2' prev' v
  | _, _ => []
  end.

(** The outer loop [for r in range(1, rows)]: [cur] becomes [prev] and the
    new row starts with [r]. *)
Fixpoint lev_rows (s1 s2 : str) (r : nat) (cur : list nat) : list nat :=
  match s1 with
  | [] => cur
  | a :: s1' => lev_rows s1' s2 (S r) (r :: lev_row a s2 cur r)
  end.

Definition levenshtein_distance (s1 s2 : str) : nat :=
  match s1, s2 with
  | [], _ => length s2
  | _, [] => length s1
  | _, _ => default 0 (last (lev_rows s1 s2 1 (seq 0 (S (length s2)))))
  end.

(** Modelled from the spec: [jellyfish.jaro_winkler_similarity] belongs to
    the same external library.  The spec's glossary describes it as a
    similarity in [0,1] that favours common prefixes; the model is the
    library's algorithm: flag the characters that match within the search
    range, count the flagged characters that are out of order, average the
    three ratios, and boost by the common prefix of up to four characters
    when the average exceeds 0.7. *)

(** The inner loop [for j in range(low, hi + 1)] with its [break]: the
    first [j] among the next [n] positions from [j] whose flag is clear
    and whose character is [ch]. *)
Fixpoint find_match (ch : N) (s2 : str) (s2_flags : list bool) (n j : nat)
  : option nat :=
  match n with
  | 0 => None
  | S n' =>
      match s2_flags !! j, s2 !! j with
      | Some false, Some b =>
          if (b =? ch)%N then Some j else find_match ch s2 s2_flags n' (S j)
      | _, _ => find_match ch s2 s2_flags n' (S j)
      end
  end.

(** The flags and the counter the matching loop updates. *)
Record flags := Flags {
  s1_flags : list bool;
  s2_flags : list bool;
  common_chars : nat;
}.

(** [for i, s1_ch in enumerate(s1)], from index [i] on. *)
Fixpoint match_loop (search_range : nat) (s2 : str) (rest : str) (i : nat)
    (st : flags) : flags :=
  match rest with
  | [] => st
  | s1_ch :: rest' =>
      let low := i - search_range in
      let hi := (i + search_range) `min` (length s2 - 1) in
      let st' :=
        match find_match s1_ch s2 (s2_flags st) (S hi - low) low with
        | Some j => Flags (<[i:=true]> (s1_flags st))
                          (<[j:=true]> (s2_flags st))
                          (S (common_chars st))
        | None => st
        end in
      match_loop search_range s2 rest' (S i) st'
  end.

(** The scan [for j in range(k, s2_len)]: the first flagged position from
    [k] on.  Every flagged character of [s1] has its flagged partner in
    [s2], so the scan always finds one; [length s2_flags] stands for the
    exhausted scan. *)
Fixpoint next_flag (s2_flags : list bool) (k : nat) : nat :=
  match s2_flags with
  | [] => k
  | f :: fs =>
      match k with
      | 0 => if f then 0 else S (next_flag fs 0)
      | S k' => S (next_flag fs k')
      end
  end.

(** [for i, s1_f in enumerate(s1_flags)], from index [i] on, with the
    running [k] and [trans_count]. *)
Fixpoint trans_loop (s1 s2 : str) (s2_flags : list bool) (rest : list bool)
    (i k trans_count : nat) : nat :=
  match rest with
  | [] => trans_count
  | s1_f :: rest' =>
      if s1_f
      then let j := next_flag s2_flags k in
           trans_loop s1 s2 s2_flags rest' (S i) (S j)
             (if decide (s1 !! i = s2 !! j) then trans_count
              else S trans_count)
      else trans_loop s1 s2 s2_flags rest' (S i) k trans_count
  end.

(** [while i < j and s1[i] == s2[i]: i += 1] *)
Fixpoint common_prefix (j : nat) (s1 s2 : str) : nat :=
  match j, s1, s2 with
  | S j', a :: s1', b :: s2' =>
      if (a =? b)%N then S (common_prefix j' s1' s2') else 0
  | _, _, _ => 0
  end.

Section jaro.
Context `{PyFloat F}.

Definition jaro_winkler_similarity (s1 s2 : str) : F :=
  let s1_len := length s1 in
  let s2_len := length s2 in
  if (s1_len =? 0) || (s2_len =? 0) then of_int 0 else
  let min_len := s1_len `min` s2_len in
  let search_range := (s1_len `max` s2_len) `div` 2 - 1 in
  let st := match_loop search_range s2 s1 0
              (Flags (replicate s1_len false) (replicate s2_len false) 0) in
  if common_chars st =? 0 then of_int 0 else
  let trans_count :=
    trans_loop s1 s2 (s2_flags st) (s1_flags st) 0 0 0 `div` 2 in
  let common := of_int (Z.of_nat (common_chars st)) in
  let weight :=
    ((common / of_int (Z.of_nat s1_len)
      + common / of_int (Z.of_nat s2_len)
      + (common - of_int (Z.of_nat trans_count)) / common)
     / of_int 3)%py in
  if (weight >? dec 7 10)%py then
    let i := common_prefix (min_len `min` 4) s1 s2 in
    if i =? 0 then weight
    else (weight + of_int (Z.of_nat i) * dec 1 10 * (of_int 1 - weight))%py
  else weight.
End jaro.

End jellyfish.

(** ** The analyzer *)

(** The five feedback sentences of [analyze_prosody]. *)
Definition hint_faster : string :=
  "Try speaking a bit faster for more natural rhythm".
Definition hint_slower : string :=
  "Slow down slightly to improve clarity and enunciation".
Definition hint_louder : string :=
  "Speak with more volume and confidence".
Definition hint_quieter : string :=
  "Try to moderate your volume slightly".
Definition hint_articulate : string :=
  "Focus on clear articulation of consonants".

Section analyzer.
Context `{PyFloat F}.

(** [str.lower] needs the case tables of the Unicode database; it is a
    parameter of the development ([lower_latin1] is the instance used
    for the examples). *)
Variable lower : str → str.

(** [features.get(key, default)] *)
Definition get (features : gmap string F) (key : string) (default : F) : F :=
  match features !! key with
  | Some v => v
  | None => default
  end.

Definition analyze_prosody (features : gmap string F) (target_text : str)
  : list string :=
  let feedback := [] in
  let expected_duration :=
    (of_int (Z.of_nat (length target_text)) / of_int 12)%py in
  let actual_duration := get features "duration" (of_int 0) in
  let feedback :=
    if (actual_duration >? expected_duration * dec 15 10)%py
    then feedback ++ [hint_faster]
    else if (actual_duration <? expected_duration * dec 6 10)%py
    then feedback ++ [hint_slower]
    else feedback in
  let feedback :=
    if (get features "rms_energy" (of_int 0) <? dec 1 100)%py
    then feedback ++ [hint_louder]
    else if (get features "rms_energy" (of_int 0) >? dec 2 10)%py
    then feedback ++ [hint_quieter]
    else feedback in
  let feedback :=
    if (get features "zcr" (of_int 0) >? dec 15 100)%py
    then feedback ++ [hint_articulate]
    else feedback in
  feedback.

(** The chain [.replace("'", "").replace("?", "").replace(",", "")
    .replace("¿", "").split()] of the source. *)
Definition words (s : str) : list str :=
  split (replace 191 [] (replace 44 [] (replace 63 [] (replace 39 [] s)))).

(** The block under [if audio_features:]. *)
Definition prosody_score (audio_features : gmap string F) (target_text : str)
  : F :=
  let prosody_score := of_int 100 in
  if bool_decide (size audio_features ≠ 0) then
    let expected_duration :=
      (of_int (Z.of_nat (length target_text)) / of_int 12)%py in
    let actual_duration := get audio_features "duration" expected_duration in
    let duration_ratio :=
      if (expected_duration >? of_int 0)%py
      then (actual_duration / expected_duration)%py
      else of_int 1 in
    if ((duration_ratio >? dec 15 10) || (duration_ratio <? dec 6 10))%py
    then of_int 85
    else if ((duration_ratio >? dec 13 10) || (duration_ratio <? dec 7 10))%py
    then of_int 90
    else prosody_score
  else prosody_score.

Definition word_score (target_words transcribed_words : list str) : F :=
  let matching_words : gset str :=
    list_to_set target_words ∩ list_to_set transcribed_words in
  (of_int (Z.of_nat (size matching_words))
   / of_int (Z.of_nat (length target_words)) * of_int 100)%py.

Definition lev_score (target_lower transcription_lower : str) : F :=
  let lev_distance :=
    jellyfish.levenshtein_distance target_lower transcription_lower in
  let max_len := length target_lower `max` length transcription_lower in
  if 0 <? max_len
  then ((of_int 1 - of_int (Z.of_nat lev_distance) / of_int (Z.of_nat max_len))
        * of_int 100)%py
  else of_int 0.

(** The weighted average. *)
Definition final_score (word_score jaro_score lev_score prosody_score : F)
  : F :=
  (word_score * dec 40 100 + jaro_score * dec 25 100
   + lev_score * dec 20 100 + prosody_score * dec 15 100)%py.

(** [calculate_advanced_score]; [None] stands for the exception [int()]
    raises on a NaN or an infinity. *)
Definition calculate_advanced_score (target_text transcription : str)
    (audio_features : gmap string F) : option Z :=
  let target_lower := strip (lower target_text) in
  let transcription_lower := strip (lower transcription) in
  if decide (target_lower = transcription_lower) then Some 100%Z else
  let target_words := words target_lower in
  let transcribed_words := words transcription_lower in
  match target_words with
  | [] => Some 0%Z
  | _ =>
      let word_score := word_score target_words transcribed_words in
      let jaro_score :=
        (jellyfish.jaro_winkler_similarity target_lower transcription_lower
         * of_int 100)%py in
      let lev_score := lev_score target_lower transcription_lower in
      let prosody_score := prosody_score audio_features target_text in
      let final_score :=
        final_score word_score jaro_score lev_score prosody_score in
      z ← to_int final_score; Some (z `min` 100)%Z
  end.
End analyzer.

(** ** Feature extraction *)

(** The outcome of a call that may raise: a value, or the raised error
    with its message ([str(e)]).  The errors are those of class
    [Exception], which is what a failed decode or computation raises and
    what the handler of the source catches. *)
Inductive result (A : Type) : Type :=
  | Ok (a : A)
  | Raise (e : string).
Arguments Ok {A} a.
Arguments Raise {A} e.

#[export] Instance result_ret : MRet result := λ A, Ok.
#[export] Instance result_bind : MBind result := λ A B f m,
  match m with
  | Ok a => f a
  | Raise e => Raise e
  end.

(** What a call leaves behind: the lines written to standard output and
    its outcome. *)
Record run (A : Type) : Type := Run {
  stdout : list string;
  outcome : result A;
}.
Arguments Run {A} stdout outcome.
Arguments stdout {A} r.
Arguments outcome {A} r.

(** [try: body / except Exception as e: handler(e)] *)
Definition try_except {A} (body : result A) (handler : string → run A) : run A :=
  match body with
  | Ok a => Run [] (Ok a)
  | Raise e => handler e
  end.

(** The audio libraries, as far as the source calls them: a decoded
    waveform, a frame-wise feature array, and the five calls, each of which
    may raise.  [float_np_mean a] is [float(np.mean(a))]. *)
Record audio_library (F : Type) : Type := AudioLibrary {
  waveform : Type;
  ndarray : Type;
  librosa_load : string → Z → result (waveform * Z);
  librosa_feature_rms : waveform → result ndarray;
  librosa_feature_spectral_centroid : waveform → Z → result ndarray;
  librosa_feature_zero_crossing_rate : waveform → result ndarray;
  float_np_mean : ndarray → result F;
}.
Arguments waveform {F} _.
Arguments ndarray {F} _.
Arguments librosa_load {F} _ _ _.
Arguments librosa_feature_rms {F} _ _.
Arguments librosa_feature_spectral_centroid {F} _ _ _.
Arguments librosa_feature_zero_crossing_rate {F} _ _.
Arguments float_np_mean {F} _ _.

Definition extract_audio_features {F} (lib : audio_library F)
    (audio_path : string) : run (gmap string F) :=
  try_except
    ('(y, sr) ← librosa_load lib audio_path 16000%Z;
     rms_energy ← librosa_feature_rms lib y ≫= float_np_mean lib;
     spectral_centroid ←
       librosa_feature_spectral_centroid lib y sr ≫= float_np_mean lib;
     zcr ← librosa_feature_zero_crossing_rate lib y ≫= float_np_mean lib;
     let features : gmap string F :=
       <["zcr" := zcr]>
         (<["spectral_centroid" := spectral_centroid]>
            (<["rms_energy" := rms_energy]> ∅)) in
     mret features)
    (λ e, Run ["Feature extraction error: " +:+ e] (Ok ∅)).

(** ** The combined analysis *)

(** Calls in sequence: the output of the first comes before the output of
    the second, and an error of the first ends the sequence. *)
#[export] Instance run_ret : MRet run := λ A a, Run [] (Ok a).
#[export] Instance run_bind : MBind run := λ A B f m,
  match outcome m with
  | Ok a => Run (stdout m ++ stdout (f a)) (outcome (f a))
  | Raise e => Run (stdout m) (Raise e)
  end.

(** [int()] inside a call: the error of a NaN or an infinity is raised.
    The message stands for CPython's two ("cannot convert float NaN to
    integer", "cannot convert float infinity to integer"). *)
Definition returned (z : option Z) : run Z :=
  match z with
  | Some z => Run [] (Ok z)
  | None => Run [] (Raise "cannot convert float to integer")
  end.

(** The dictionary [get_detailed_analysis] returns, by its three keys. *)
Record analysis (F : Type) : Type := Analysis {
  score : Z;
  audio_features : gmap string F;
  prosody_feedback : list string;
}.
Arguments Analysis {F} score audio_features prosody_feedback.
Arguments score {F} a.
Arguments audio_features {F} a.
Arguments prosody_feedback {F} a.

Definition get_detailed_analysis `{PyFloat F} (lower : str → str)
    (lib : audio_library F) (target_text transcription : str)
    (audio_path : string) : run (analysis F) :=
  audio_features ← extract_audio_features lib audio_path;
  score ← returned (calculate_advanced_score lower target_text transcription
                      audio_features);
  let prosody_feedback := analyze_prosody audio_features target_text in
  mret (Analysis score audio_features prosody_feedback).

(** ** More of [str] *)

(** [s.startswith(sep)], with what follows [sep] in [s]. *)
Fixpoint strip_prefix (sep s : str) : option str :=
  match sep, s with
  | [], _ => Some s
  | a :: sep', b :: s' => if (a =? b)%N then strip_prefix sep' s' else None
  | _ :: _, [] => None
  end.

(** The first occurrence of [sep] in [s]: what is before it and what is
    after it. *)
Fixpoint cut (sep s : str) : option (str * str) :=
  match strip_prefix sep s with
  | Some rest => Some ([], rest)
  | None =>
      match s with
      | [] => None
      | c :: s' =>
          match cut sep s' with
          | Some (a, b) => Some (c :: a, b)
          | None => None
          end
      end
  end.

(** [sep in s] *)
Definition contains (sep s : str) : bool :=
  match cut sep s with Some _ => true | None => false end.

(** [s.split(sep)] for a non-empty [sep], read from the left: [cur] is the
    piece being read, most recent character first, and [skip] counts the
    characters of a separator just found that are still to pass. *)
Fixpoint split_on_from (sep : str) (skip : nat) (cur s : str) : list str :=
  match s with
  | [] => [rev cur]
  | c :: s' =>
      match skip with
      | S k => split_on_from sep k cur s'
      | 0 =>
          match strip_prefix sep s with
          | Some _ => rev cur :: split_on_from sep (length sep - 1) [] s'
          | None => split_on_from sep 0 (c :: cur) s'
          end
      end
  end.

Definition split_on (sep s : str) : list str := split_on_from sep 0 [] s.

(** [s.strip(chars)] *)
Fixpoint lstrip_chars (chars s : str) : str :=
  match s with
  | c :: s' => if bool_decide (c ∈ chars) then lstrip_chars chars s' else s
  | [] => []
  end.

Definition strip_chars (chars s : str) : str :=
  rev (lstrip_chars chars (rev (lstrip_chars chars s))).

(** [l[i]] *)
Definition index {A} (l : list A) (i : nat) : result A :=
  match l !! i with
  | Some x => Ok x
  | None => Raise "list index out of range"
  end.

(** ** The HTTP layer, [main.py] *)

#[local] Set Warnings "-register-all".

(** What [json.loads] returns, and what the handlers build. *)
Inductive json : Type :=
  | JNull
  | JBool (b : bool)
  | JInt (n : Z)
  | JFloat (x : float)
  | JString (s : str)
  | JList (l : list json)
  | JDict (d : list (str * json)).

(** [type(v).__name__] *)
Definition type_name (v : json) : string :=
  match v with
  | JNull => "NoneType"
  | JBool _ => "bool"
  | JInt _ => "int"
  | JFloat _ => "float"
  | JString _ => "str"
  | JList _ => "list"
  | JDict _ => "dict"
  end.

(** The value of a key in a dictionary. *)
Fixpoint assoc (key : str) (d : list (str * json)) : option json :=
  match d with
  | [] => None
  | (k, v) :: d' => if decide (k = key) then Some v else assoc key d'
  end.

(** [v.get(key, default)]: only a dictionary has the method. *)
Definition json_get (v : json) (key : str) (default : json) : result json :=
  match v with
  | JDict d => Ok (match assoc key d with Some x => x | None => default end)
  | _ => Raise ("'" +:+ type_name v +:+ "' object has no attribute 'get'")
  end.

Abbreviation bytes := (list Byte.byte).

(** The files of the machine: the content of every path that holds a file
    the process can open. *)
Abbreviation files := (gmap string bytes).

(** The OpenAI client, as far as the source calls it.  Each call may raise;
    [chat_completions_create model messages temperature max_tokens] stands
    for the call together with [response.choices[0].message.content] (a
    missing choice or content is an error of the call),
    [audio_transcriptions_create model file response_format language] for
    the transcript, [audio_speech_create model voice input] for
    [response.content]. *)
Record openai : Type := OpenAI {
  chat_completions_create :
    string → list (string * str) → Q → option Z → result str;
  audio_transcriptions_create : string → bytes → string → string → result str;
  audio_speech_create : string → string → str → result bytes;
}.

(** The dictionary [analyze_pronunciation] returns, by its keys. *)
Record response (F : Type) : Type := Response {
  r_transcription : str;
  r_score : Z;
  r_feedback : json;
  r_suggestions : json;
  r_prosody_feedback : list string;
  r_audio_features : gmap string F;
}.
Arguments Response {F} _ _ _ _ _ _.
Arguments r_transcription {F} _.
Arguments r_score {F} _.
Arguments r_feedback {F} _.
Arguments r_suggestions {F} _.
Arguments r_prosody_feedback {F} _.
Arguments r_audio_features {F} _.


(** A step that prints nothing. *)
Definition lift {A} (r : result A) : run A := Run [] r.

Module main.

Definition quote : str := [34%N].
Definition newline : str := [10%N].

(** The f-string of [generate_feedback], line by line. *)
Definition feedback_prompt (language_name target_text transcription : str)
  : str :=
  py "You are an expert pronunciation coach for " ++ language_name
    ++ py " language learners. " ++ newline
  ++ newline
  ++ py "    Target phrase: " ++ quote ++ target_text ++ quote ++ newline
  ++ py "    What the student said: " ++ quote ++ transcription ++ quote
    ++ newline
  ++ newline
  ++ py "    Analyze the pronunciation and provide:" ++ newline
  ++ py "    1. If words are missing, remind the student to complete the phrase"
    ++ newline
  ++ py "    2. Provide specific feedback on pronunciation differences (focus on phonemes, word stress, intonation)"
    ++ newline
  ++ py "    3. Provide 2-3 actionable tips for improvement" ++ newline
  ++ py "    4. Positive reinforcement for what they did well" ++ newline
  ++ newline
  ++ py "    Be encouraging but specific. Keep your response concise (3-4 sentences for main feedback)."
    ++ newline
  ++ newline
  ++ py "    Return your response as a JSON object with this structure:"
    ++ newline
  ++ py "    {" ++ newline
  ++ py "        " ++ quote ++ py "feedback" ++ quote ++ py ": " ++ quote
    ++ py "main feedback text here" ++ quote ++ py "," ++ newline
  ++ py "        " ++ quote ++ py "suggestions" ++ quote ++ py ": ["
    ++ quote ++ py "tip 1" ++ quote ++ py ", "
    ++ quote ++ py "tip 2" ++ quote ++ py ", "
    ++ quote ++ py "tip 3" ++ quote ++ py "]" ++ newline
  ++ py "    }".

Definition fallback_feedback : json :=
  JDict
    [(py "feedback",
      JString
        (py "Good effort! Keep practicing to improve your pronunciation."));
     (py "suggestions",
      JList
        [JString (py "Try speaking more slowly to enunciate clearly");
         JString (py "Record yourself and compare to native speakers");
         JString (py "Focus on problem sounds one at a time")])].

(** The text handed to [json.loads]: what is inside the first Markdown
    fence of the reply, or the reply itself when it has no fence. *)
Definition fenced (content : str) : result str :=
  if contains (py "```json") content then
    after ← index (split_on (py "```json") content) 1;
    inner ← index (split_on (py "```") after) 0;
    Ok (strip inner)
  else if contains (py "```") content then
    after ← index (split_on (py "```") content) 1;
    inner ← index (split_on (py "```") after) 0;
    Ok (strip inner)
  else Ok content.

Section calls.
Variable client : openai.
(** [json.loads] *)
Variable json_loads : str → result json.

Definition generate_feedback (target_text transcription : str) (score : Z)
    (language : string) : run json :=
  let '(coach_description, language_name) :=
    if decide (language = "es")
    then (py "You are an expert pronunciation coach for Spanish language learners.",
          py "Spanish")
    else (py "You are an expert pronunciation coach for English language learners.",
          py "English") in
  let prompt := feedback_prompt language_name target_text transcription in
  try_except
    (content ← chat_completions_create client "gpt-4"
                 [("system", coach_description); ("user", prompt)]
                 (7 # 10)%Q None;
     content ← fenced content;
     feedback_data ← json_loads content;
     Ok feedback_data)
    (λ e, Run ["Feedback generation error: " +:+ e] (Ok fallback_feedback)).

Definition difficulty_descriptions : gmap string (gmap string str) :=
  {[ "easy" :=
       {[ "en" := py "Generate a simple English phrase that a beginner would use in daily conversation. Use common, simple vocabulary and basic grammar. Examples: greetings, asking for help, expressing needs.";
          "es" := py "Generate a simple Spanish phrase that a beginner would use in daily conversation. Use common, simple vocabulary and basic grammar. Examples: greetings, asking for help, expressing needs." ]};
     "intermediate" :=
       {[ "en" := py "Generate an intermediate English phrase with moderate complexity. Include some phrasal verbs, contractions, or compound sentences. Should be conversational but more complex than beginner level.";
          "es" := py "Generate an intermediate Spanish phrase with moderate complexity. Include some compound tenses or subjunctive mood. Should be conversational but more complex than beginner level." ]};
     "difficult" :=
       {[ "en" := py "Generate an advanced English phrase with complex vocabulary, idioms, or sophisticated grammar structures. Include challenging pronunciation elements like consonant clusters or difficult vowel sounds.";
          "es" := py "Generate an advanced Spanish phrase with complex vocabulary, idiomatic expressions, or sophisticated grammar structures. Include challenging pronunciation elements like rolled r's or complex verb conjugations." ]} ]}.

(** The accented letters are U+00ED, U+00E9, U+00F3 and U+00E1; the
    inverted question mark is U+00BF. *)
Definition fallback_phrases : gmap string (gmap string str) :=
  {[ "easy" :=
       {[ "en" := py "How are you today?";
          "es" := [191%N] ++ py "C" ++ [243%N] ++ py "mo est" ++ [225%N]
                  ++ py "s hoy?" ]};
     "intermediate" :=
       {[ "en" := py "I would like to order some coffee please.";
          "es" := py "Me gustar" ++ [237%N] ++ py "a pedir un caf" ++ [233%N]
                  ++ py " por favor." ]};
     "difficult" :=
       {[ "en" := py "Could you recommend a restaurant that serves authentic cuisine?";
          "es" := [191%N] ++ py "Podr" ++ [237%N]
                  ++ py "as recomendar un restaurante que sirva comida aut"
                  ++ [233%N] ++ py "ntica?" ]} ]}.

(** [table.get(difficulty, table["easy"]).get(language,
    table["easy"]["en"])] *)
Definition by_level (table : gmap string (gmap string str))
    (language difficulty : string) : str :=
  let easy := table !!! "easy" in
  let level := match table !! difficulty with Some d => d | None => easy end in
  match level !! language with
  | Some text => text
  | None => easy !!! "en"
  end.

Definition generate_practice_phrase (language difficulty : string) : run str :=
  let prompt := by_level difficulty_descriptions language difficulty in
  let prompt :=
    prompt ++ newline ++ newline
    ++ py "Return ONLY the phrase itself, nothing else. No quotation marks, no explanations, just the phrase." in
  try_except
    (content ← chat_completions_create client "gpt-4"
                 [("system",
                   py "You are a language learning expert who generates practice phrases for pronunciation.");
                  ("user", prompt)]
                 (9 # 10)%Q (Some 50%Z);
     let phrase := strip content in
     let phrase := strip_chars (py "'") (strip_chars quote phrase) in
     Ok phrase)
    (λ e, Run ["Phrase generation error: " +:+ e]
              (Ok (by_level fallback_phrases language difficulty))).

(** The message of the [OSError] that [open] raises for a path it cannot
    open: one that does not exist, a directory, a file the process may not
    read. *)
Variable open_error : string → string.

(** [open(path, "rb")], read by the call that is given the file. *)
Definition open_rb (fs : files) (path : string) : result bytes :=
  match fs !! path with
  | Some content => Ok content
  | None => Raise (open_error path)
  end.

Definition transcribe_audio (fs : files) (audio_file_path language : string)
  : run str :=
  try_except
    (audio_file ← open_rb fs audio_file_path;
     transcript ← audio_transcriptions_create client "whisper-1" audio_file
                    "text" language;
     Ok transcript)
    (λ e, Run ["Transcription error: " +:+ e] (Raise e)).

Section handlers.
Context `{PyFloat F}.
Variable lower : str → str.
(** The audio libraries read the files they are given. *)
Variable audio : files → audio_library F.
(** The name [tempfile.NamedTemporaryFile] picks, by suffix. *)
Variable tempname : files → string → string.
(** [temp_audio.write(content)] and the flush when the [with] block closes
    the file, on the files [fs]: [None] when all of [content] reached the
    file, or else what did reach it and the message of the error raised. *)
Variable temp_write : files → bytes → option (bytes * string).

(** The handler of [/analyze]: the files it leaves, and what it prints
    and returns.  [upload] is what [await audio.read()] gives.  The
    temporary file is created, read into and written before the [try]
    statement, so an error there leaves the file behind; the [finally]
    clause runs on every way out of [body]. *)
Definition analyze_pronunciation (fs : files) (upload : result bytes)
    (target_text : str) (language : string) : files * run (response F) :=
  let temp_audio_path := tempname fs ".wav" in
  let fs := <[temp_audio_path := []]> fs in
  match upload with
  | Raise e => (fs, Run [] (Raise e))
  | Ok content =>
      match temp_write fs content with
      | Some (written, e) =>
          (<[temp_audio_path := written]> fs, Run [] (Raise e))
      | None =>
          let fs := <[temp_audio_path := content]> fs in
          let body : run (response F) :=
            transcription ← transcribe_audio fs temp_audio_path language;
            analysis ← get_detailed_analysis lower (audio fs) target_text
                         transcription temp_audio_path;
            feedback_data ← generate_feedback target_text transcription
                              (score analysis) language;
            feedback ←
              lift (json_get feedback_data (py "feedback") (JString []));
            suggestions ←
              lift (json_get feedback_data (py "suggestions") (JList []));
            mret (Response transcription (score analysis) feedback
                    suggestions (prosody_feedback analysis)
                    (audio_features analysis)) in
          let fs :=
            match fs !! temp_audio_path with
            | Some _ => delete temp_audio_path fs
            | None => fs
            end in
          (fs, body)
      end
  end.

End handlers.

(** The handler of [/generate-phrase]. *)
Definition generate_phrase_endpoint (language difficulty : string)
  : run json :=
  match outcome (generate_practice_phrase language difficulty) with
  | Ok phrase =>
      Run (stdout (generate_practice_phrase language difficulty))
          (Ok (JDict [(py "phrase", JString phrase)]))
  | Raise e =>
      Run (stdout (generate_practice_phrase language difficulty)
           ++ ["Error generating phrase: " +:+ e]) (Raise e)
  end.
End calls.
End main.

(** ** Evaluated conditions *)

(** For a target of [n] characters and no measured duration, in
    binary64: the ratio of the durations is within both bands of the
    scorer. *)
Definition on_pace64 (n : nat) : bool :=
  let expected := (of_int (Z.of_nat n) / of_int 12)%py in
  let ratio :=
    if (expected >? of_int 0)%py then (expected / expected)%py
    else @of_int _ binary64 1 in
  negb ((ratio >? dec 15 10) || (ratio <? dec 6 10))%py
  && negb ((ratio >? dec 13 10) || (ratio <? dec 7 10))%py.

(** ** Inputs of the examples *)

(** The target ["¿Cómo estás hoy?"], code point by code point: the inverted
    question mark is U+00BF, the accented o is U+00F3, the accented a is
    U+00E1. *)
Definition como_estas_target : str :=
  [191; 67; 243; 109; 111; 32; 101; 115; 116; 225; 115; 32;
   104; 111; 121; 63]%N.

Definition como_estas_transcription : str := py "como estas hoy".

(** A stand-in for the audio libraries: samples are integers, the decode
    fails on one path, and the mean of an empty array raises. *)
Definition toy_library : audio_library Q := {|
  waveform := list Z;
  ndarray := list Q;
  librosa_load := λ path sr,
    if decide (path = "missing.wav")
    then Raise "No such file or directory: missing.wav"
    else Ok ([3; -2; 1]%Z, sr);
  librosa_feature_rms := λ y, Ok ((λ z, inject_Z (Z.abs z)) <$> y);
  librosa_feature_spectral_centroid := λ y sr, Ok [inject_Z sr];
  librosa_feature_zero_crossing_rate := λ y, Ok [];
  float_np_mean := λ a,
    match a with
    | [] => Raise "mean of empty array"
    | x :: _ => Ok x
    end;
|}.

Definition toy_library_zcr : audio_library Q := {|
  waveform := list Z;
  ndarray := list Q;
  librosa_load := librosa_load toy_library;
  librosa_feature_rms := librosa_feature_rms toy_library;
  librosa_feature_spectral_centroid :=
    librosa_feature_spectral_centroid toy_library;
  librosa_feature_zero_crossing_rate := λ y, Ok [(1 # 8)%Q];
  float_np_mean := float_np_mean toy_library;
|}.

(** The same stand-in with binary64 features: a loud recording. *)
Definition toy_library64 : audio_library float := {|
  waveform := list Z;
  ndarray := list float;
  librosa_load := λ path sr,
    if decide (path = "missing.wav")
    then Raise "No such file or directory: missing.wav"
    else Ok ([3; -2; 1]%Z, sr);
  librosa_feature_rms := λ y, Ok ((λ z, f64_of_int (Z.abs z)) <$> y);
  librosa_feature_spectral_centroid := λ y sr, Ok [f64_of_int sr];
  librosa_feature_zero_crossing_rate := λ y, Ok [0x1p-3%float];
  float_np_mean := λ a,
    match a with
    | [] => Raise "mean of empty array"
    | x :: _ => Ok x
    end;
|}.

(** ** Invariants of the two string metrics *)

(** What a row of the Levenshtein table says about the prefix [p1] of the
    first string it belongs to: every entry is bounded by the longer of the
    two prefixes, and an entry is zero only for equal prefixes. *)
Definition row_ok (p1 s2 : str) (row : list nat) : Prop :=
  length row = S (length s2) ∧
  ∀ c v, row !! c = Some v →
         v ≤ length p1 `max` c ∧ (v = 0 → p1 = take c s2).

(** The number of raised flags. *)
Fixpoint raised (l : list bool) : nat :=
  match l with
  | [] => 0
  | f :: l' => (if f then 1 else 0) + raised l'
  end.

(** What the matching loop of Jaro-Winkler maintains. *)
Record flags_ok (s2 : str) (i : nat) (st : jellyfish.flags) : Prop := {
  common_le_index : jellyfish.common_chars st ≤ i;
  raised_s1_le_common :
    raised (jellyfish.s1_flags st) ≤ jellyfish.common_chars st;
  common_eq_raised_s2 :
    jellyfish.common_chars st = raised (jellyfish.s2_flags st);
  s2_flags_length : length (jellyfish.s2_flags st) = length s2;
}.

(** ** The pieces of a split *)

(** The piece before the first separator, or everything. *)
Definition before (sep s : str) : str :=
  match cut sep s with
  | Some (a, _) => a
  | None => s
  end.

(** ** The value of a binary64 number *)

(** What the properties of the scorer in binary64 are stated with: the
    rational a finite float stands for, the floats that are zero or
    positive and finite, the rationals binary64 holds exactly, what it
    means for [v] to be [V] rounded to one of the two floats around it,
    and the invariant of the shift loop of the rounding. *)

(** [2^e], for any integer [e]. *)
Definition pow2 (e : Z) : Q := (2 ^ e)%Q.

(** The number a float stands for: [m * 2^e] with its sign for a finite
    one, 0 for the zeros (and for infinities and NaN, which the
    properties exclude). *)
Definition SFval (x : spec_float) : Q :=
  match x with
  | S754_finite s m e =>
      ((if s then -1 else 1) * inject_Z (Zpos m) * pow2 e)%Q
  | _ => 0%Q
  end.

Definition val (x : float) : Q := SFval (Prim2SF x).

(** Zero, or positive and finite. *)
Definition nn_sf (x : spec_float) : Prop :=
  match x with
  | S754_zero _ | S754_finite false _ _ => True
  | _ => False
  end.

Definition nn (x : float) : Prop := nn_sf (Prim2SF x).

(** The non-negative numbers binary64 holds exactly: [m * 2^e] with a
    mantissa of at most 53 bits and an exponent from -1074. *)
Definition rep (c : Q) : Prop :=
  ∃ m e, (0 ≤ m < 2 ^ 53)%Z ∧ (-1074 ≤ e)%Z ∧ (c == inject_Z m * pow2 e)%Q.

(** [v] is [V] rounded down or up to a float: no number binary64 holds
    exactly lies strictly between them. *)
Definition faithful (V v : Q) : Prop :=
  (∀ c, rep c → (c <= V)%Q → (c <= v)%Q) ∧
  (∀ c, rep c → (V <= c)%Q → (v <= c)%Q).

(** What the shift loop of the rounding maintains: the mantissa [shr_m]
    at exponent [e] is [V] truncated, and the round and sticky bits are
    set only when something was cut off. *)
Definition shr_inv (V : Q) (mrs : shr_record) (e : Z) : Prop :=
  (0 ≤ shr_m mrs)%Z ∧
  (inject_Z (shr_m mrs) * pow2 e <= V)%Q ∧
  (V < inject_Z (shr_m mrs + 1) * pow2 e)%Q ∧
  (shr_r mrs || shr_s mrs = true →
   (inject_Z (shr_m mrs) * pow2 e < V)%Q).

(** A float that is zero or positive and finite, with its value between
    two rationals. *)
Definition bnd (x : float) (lo hi : Q) : Prop :=
  nn x ∧ (lo <= val x)%Q ∧ (val x <= hi)%Q.

(** * Properties *)

(** ** The model on known values *)

(** In binary64 the decimal constants of the source are the doubles the
    Python parser reads them as. *)
Example binary64_literals :
  dec (H:=binary64) 40 100 = 0x1.999999999999ap-2%float ∧
  dec (H:=binary64) 25 100 = 0x1p-2%float ∧
  dec (H:=binary64) 20 100 = 0x1.999999999999ap-3%float ∧
  dec (H:=binary64) 15 100 = 0x1.3333333333333p-3%float ∧
  dec (H:=binary64) 15 10 = 0x1.8p+0%float ∧
  dec (H:=binary64) 6 10 = 0x1.3333333333333p-1%float ∧
  dec (H:=binary64) 13 10 = 0x1.4cccccccccccdp+0%float ∧
  dec (H:=binary64) 7 10 = 0x1.6666666666666p-1%float ∧
  dec (H:=binary64) 1 100 = 0x1.47ae147ae147bp-7%float ∧
  dec (H:=binary64) 2 10 = 0x1.999999999999ap-3%float ∧
  dec (H:=binary64) 1 10 = 0x1.999999999999ap-4%float.
Proof. split_and!; reflexivity. Qed.

Example int_truncates_towards_zero :
  @to_int _ binary64 0x1.fp+3%float = Some 15%Z ∧
  @to_int _ binary64 (-0x1.fp+3)%float = Some (-15)%Z ∧
  @to_int _ binary64 PrimFloat.nan = None ∧
  @to_int _ rational (-31 # 2)%Q = Some (-15)%Z.
Proof. split_and!; reflexivity. Qed.

Example strip_and_split :
  strip (py "  Hola  Mundo ") = py "Hola  Mundo" ∧
  split (py " a  bc d ") = [py "a"; py "bc"; py "d"] ∧
  split (py "   ") = [] ∧
  lower_latin1 (py "Hola, Mundo?") = py "hola, mundo?" ∧
  words (py "it's, ok?") = [py "its"; py "ok"].
Proof. split_and!; reflexivity. Qed.

(** The two metrics on the textbook pairs. *)
Example jellyfish_known_values :
  jellyfish.levenshtein_distance (py "kitten") (py "sitting") = 3 ∧
  jellyfish.levenshtein_distance (py "flaw") (py "lawn") = 2 ∧
  jellyfish.jaro_winkler_similarity (H:=binary64) (py "MARTHA") (py "MARHTA")
    = 0x1.ec16c16c16c17p-1%float ∧
  jellyfish.jaro_winkler_similarity (H:=binary64) (py "DIXON") (py "DICKSONX")
    = 0x1.a06d3a06d3a06p-1%float ∧
  Qred (jellyfish.jaro_winkler_similarity (H:=rational) (py "CRATE") (py "TRACE"))
    = (11 # 15)%Q.
Proof. split_and!; by vm_compute. Qed.

(** ** Levenshtein distance *)

Section levenshtein.
Import jellyfish.

Lemma lev_row_length a s2 : ∀ prev left,
  length prev = S (length s2) → length (lev_row a s2 prev left) = length s2.
Proof.
  induction s2 as [|b s2 IH]; intros prev left Hlen; [done|].
  destruct prev as [|diag [|up prev]]; simplify_eq/=.
  f_equal. apply IH. simpl. lia.
Qed.

(** Each entry of the new row is at most one more than the entry up and
    to the left of it, and is zero only if that one is zero and the two
    characters agree. *)
Lemma lev_row_lookup a s2 : ∀ prev left c v,
  length prev = S (length s2) →
  lev_row a s2 prev left !! c = Some v →
  ∃ d b, prev !! c = Some d ∧ s2 !! c = Some b ∧
         v ≤ S d ∧ (v = 0 → d = 0 ∧ a = b).
Proof.
  induction s2 as [|b s2 IH]; intros prev left c v Hlen Hv; [done|].
  destruct prev as [|diag [|up prev]]; simplify_eq/=.
  destruct c as [|c]; simplify_eq/=.
  - exists diag, b. destruct (N.eqb_spec a b); split_and!; try done; lia.
  - eapply IH in Hv; [done|simpl; lia].
Qed.

Lemma row_ok_init s2 : row_ok [] s2 (seq 0 (S (length s2))).
Proof.
  split; [by rewrite length_seq|].
  intros c v [-> _]%lookup_seq. simpl. split; [lia|].
  intros ->. done.
Qed.

Lemma row_ok_step p1 s2 a row :
  row_ok p1 s2 row →
  row_ok (p1 ++ [a]) s2 (S (length p1) :: lev_row a s2 row (S (length p1))).
Proof.
  intros [Hlen Hrow]. split.
  - simpl. by rewrite lev_row_length.
  - intros [|c] v Hv; simplify_eq/=.
    + rewrite length_app. simpl. split; [lia|lia].
    + apply lev_row_lookup in Hv as (d & b & Hd & Hb & Hle & Hz); [|done].
      apply Hrow in Hd as [Hd1 Hd2]. rewrite length_app. simpl.
      split; [lia|]. intros Hv. destruct (Hz Hv) as [-> ->].
      rewrite (take_S_r _ _ b) by done. by rewrite <- Hd2.
Qed.

Lemma lev_rows_ok s2 s1 : ∀ p1 row,
  row_ok p1 s2 row →
  row_ok (p1 ++ s1) s2 (lev_rows s1 s2 (S (length p1)) row).
Proof.
  induction s1 as [|a s1 IH]; intros p1 row Hrow; simpl.
  - by rewrite app_nil_r.
  - rewrite (cons_middle a p1 s1), app_assoc.
    replace (S (S (length p1))) with (S (length (p1 ++ [a])))
      by (rewrite length_app; simpl; lia).
    apply IH. by apply row_ok_step.
Qed.

Lemma lev_table_last s1 s2 :
  ∃ v, last (lev_rows s1 s2 1 (seq 0 (S (length s2)))) = Some v ∧
       v ≤ length s1 `max` length s2 ∧ (v = 0 → s1 = s2).
Proof.
  destruct (lev_rows_ok s2 s1 [] _ (row_ok_init s2)) as [Hlen Hrow].
  simpl in *. rewrite last_lookup, Hlen. simpl.
  destruct (_ !! length s2) as [v|] eqn:Hv.
  - exists v. split; [done|]. apply Hrow in Hv as [? Hz].
    split; [done|]. intros ->%Hz. by rewrite firstn_all.
  - apply lookup_ge_None in Hv. lia.
Qed.

Lemma levenshtein_le_max s1 s2 :
  levenshtein_distance s1 s2 ≤ length s1 `max` length s2.
Proof.
  unfold levenshtein_distance.
  destruct (lev_table_last s1 s2) as (v & -> & ? & _).
  destruct s1, s2; simpl in *; lia.
Qed.

Lemma levenshtein_0_eq s1 s2 : levenshtein_distance s1 s2 = 0 → s1 = s2.
Proof.
  unfold levenshtein_distance.
  destruct (lev_table_last s1 s2) as (v & -> & _ & Hz).
  destruct s1, s2; simpl; solve [done | auto].
Qed.
End levenshtein.

(** ** Exact arithmetic *)

Section rationals.
Local Open Scope Q_scope.

Lemma Qltb_lt x y : Qltb x y = true ↔ x < y.
Proof.
  unfold Qltb. rewrite Qlt_alt. destruct (x ?= y); split; congruence.
Qed.
End rationals.

(** ** Jaro-Winkler similarity *)

Section jaro_winkler.
Import jellyfish.

Lemma raised_le_length l : raised l ≤ length l.
Proof. induction l as [|[] l IH]; simpl; lia. Qed.

Lemma raised_insert_le l : ∀ i, raised (<[i:=true]> l) ≤ S (raised l).
Proof.
  induction l as [|f l IH]; intros [|i]; simpl; [lia|lia| |].
  - destruct f; lia.
  - specialize (IH i). lia.
Qed.

Lemma raised_insert_clear l : ∀ j,
  l !! j = Some false → raised (<[j:=true]> l) = S (raised l).
Proof.
  induction l as [|f l IH]; intros [|j] Hj; simplify_eq/=; [done|].
  rewrite IH by done. lia.
Qed.

Lemma find_match_clear ch s2 fl n : ∀ j j',
  find_match ch s2 fl n j = Some j' → fl !! j' = Some false.
Proof.
  induction n as [|n IH]; intros j j' Hf; simplify_eq/=.
  destruct (fl !! j) as [[]|] eqn:Hj; [by eauto| |by eauto].
  destruct (s2 !! j); [|by eauto].
  destruct (_ =? _)%N; [by simplify_eq|by eauto].
Qed.

Lemma match_loop_ok sr s2 rest : ∀ i st,
  flags_ok s2 i st →
  flags_ok s2 (i + length rest) (match_loop sr s2 rest i st).
Proof.
  induction rest as [|ch rest IH]; intros i st Hst; simpl.
  - by rewrite Nat.add_0_r.
  - replace (i + S (length rest)) with (S i + length rest) by lia.
    apply IH. destruct Hst as [H1 H2 H3 H4].
    destruct (find_match _ _ _ _ _) as [j|] eqn:Hj.
    + apply find_match_clear in Hj. split; simpl.
      * lia.
      * pose proof (raised_insert_le (s1_flags st) i). lia.
      * rewrite raised_insert_clear by done. lia.
      * by rewrite length_insert.
    + split; [lia|done..].
Qed.

Lemma trans_loop_le s1 s2 fl rest : ∀ i k t,
  trans_loop s1 s2 fl rest i k t ≤ t + raised rest.
Proof.
  induction rest as [|[] rest IH]; intros i k t; simpl; [lia| |].
  - etrans; [apply IH|]. case_decide; lia.
  - apply IH.
Qed.

(** The counts behind the similarity of two non-empty strings. *)
Lemma jaro_counts s1 s2 sr :
  let st := match_loop sr s2 s1 0
              (Flags (replicate (length s1) false)
                     (replicate (length s2) false) 0) in
  common_chars st ≤ length s1 ∧ common_chars st ≤ length s2 ∧
  trans_loop s1 s2 (s2_flags st) (s1_flags st) 0 0 0 `div` 2
    ≤ common_chars st.
Proof.
  intros st.
  assert (raised_replicate : ∀ n, raised (replicate n false) = 0)
    by (induction n; simpl; lia).
  destruct (match_loop_ok sr s2 s1 0
              (Flags (replicate (length s1) false)
                     (replicate (length s2) false) 0)) as [H1 H2 H3 H4].
  { split; simpl; rewrite ?raised_replicate, ?length_replicate; lia. }
  fold st in H1, H2, H3, H4. split_and!.
  - done.
  - rewrite H3, <- H4. apply raised_le_length.
  - pose proof (trans_loop_le s1 s2 (s2_flags st) (s1_flags st) 0 0 0).
    simpl in H. etrans; [apply (Nat.Div0.div_le_upper_bound _ 2 (common_chars st))|];
      lia.
Qed.
End jaro_winkler.

(** ** The scorer, for every arithmetic *)

Section scorer.
Context `{PyFloat F}.
Variable lower : str → str.
Implicit Types (features : gmap string F).

(** The exact-match short-circuit. *)
Lemma score_exact_match target transcription features :
  strip (lower target) = strip (lower transcription) →
  calculate_advanced_score lower target transcription features = Some 100%Z.
Proof. intros Heq. unfold calculate_advanced_score. by case_decide. Qed.

(** The zero-word rule, reached only past the short-circuit. *)
Lemma score_no_words target transcription features :
  strip (lower target) ≠ strip (lower transcription) →
  words (strip (lower target)) = [] →
  calculate_advanced_score lower target transcription features = Some 0%Z.
Proof.
  intros Hne Hw. unfold calculate_advanced_score.
  case_decide; [done|]. by rewrite Hw.
Qed.

(** The weighted average, reached past both. *)
Lemma score_weighted target transcription features :
  strip (lower target) ≠ strip (lower transcription) →
  words (strip (lower target)) ≠ [] →
  calculate_advanced_score lower target transcription features =
    z ← to_int
           (final_score
              (word_score (words (strip (lower target)))
                          (words (strip (lower transcription))))
              (jellyfish.jaro_winkler_similarity
                 (strip (lower target)) (strip (lower transcription))
               * of_int 100)%py
              (lev_score (strip (lower target)) (strip (lower transcription)))
              (prosody_score features target));
    Some (z `min` 100)%Z.
Proof.
  intros Hne Hw. unfold calculate_advanced_score.
  case_decide; [done|]. by destruct (words (strip (lower target))).
Qed.

(** The prosody term takes one of three values, whatever the features. *)
Lemma prosody_score_cases features target :
  prosody_score features target = of_int 100 ∨
  prosody_score features target = of_int 90 ∨
  prosody_score features target = of_int 85.
Proof.
  unfold prosody_score. repeat case_match; auto.
Qed.

(** Whatever [int()] returns, the result is capped at 100. *)
Lemma score_le_100 target transcription features z :
  calculate_advanced_score lower target transcription features = Some z →
  (z ≤ 100)%Z.
Proof.
  unfold calculate_advanced_score. case_decide; [intros [= <-]; lia|].
  destruct (words _); [intros [= <-]; lia|].
  destruct (to_int _); simpl; [|done]. intros [= <-]. lia.
Qed.
End scorer.

(** ** Counting words *)

(** A list has at least as many entries as the set of them has
    elements. *)
Lemma size_list_to_set_le (l : list str) :
  (size (list_to_set l : gset str) ≤ length l)%nat.
Proof.
  induction l as [|x l IH].
  - rewrite list_to_set_nil, size_empty. done.
  - rewrite list_to_set_cons, size_union_alt, size_singleton.
    assert (size (list_to_set l ∖ {[x]} : gset str)
            ≤ size (list_to_set l : gset str))%nat as Hdiff
      by (apply subseteq_size; intros y [? _]%elem_of_difference; done).
    simpl. lia.
Qed.

(** Against the empty string the Jaro-Winkler similarity is 0. *)
Lemma jaro_winkler_empty_r `{PyFloat F} (s1 : str) :
  jellyfish.jaro_winkler_similarity s1 [] = of_int 0.
Proof.
  unfold jellyfish.jaro_winkler_similarity. simpl.
  by rewrite orb_true_r.
Qed.

(** ** Rounding in binary64 *)

(** The operations of binary64 on floats that are zero or positive and
    finite, from their specification in [SpecFloat]: each result is the
    exact result rounded to one of the two floats around it, so every
    comparison with a number binary64 holds exactly carries over from the
    exact result. *)

Section rounding.
Local Open Scope Q_scope.

Lemma pow2_pos e : 0 < pow2 e.
Proof. apply Qpower_0_lt. reflexivity. Qed.

Lemma pow2_add a b : pow2 (a + b) == pow2 a * pow2 b.
Proof. apply Qpower_plus. intros H. discriminate H. Qed.

Lemma pow2_S e : pow2 (e + 1) == 2 * pow2 e.
Proof. rewrite pow2_add. change (pow2 1) with 2. ring. Qed.

Lemma pow2_le a b : (a ≤ b)%Z → pow2 a <= pow2 b.
Proof. intros. apply Qpower_le_compat_l; [done|]. discriminate. Qed.

Lemma pow2_le_inv a b : pow2 a <= pow2 b → (a ≤ b)%Z.
Proof. intros. by apply (Qpower_le_compat_l_inv 2). Qed.

Lemma pow2_lt_inv a b : pow2 a < pow2 b → (a < b)%Z.
Proof. intros. by apply (Qpower_lt_compat_l_inv 2). Qed.

Lemma pow2_Z n : (0 ≤ n)%Z → pow2 n == inject_Z (2 ^ n).
Proof. intros. symmetry. by apply Zpower_Qpower. Qed.

Lemma scale_le k m e : inject_Z k * pow2 e <= inject_Z m * pow2 e ↔ (k ≤ m)%Z.
Proof.
  rewrite Zle_Qle. pose proof (pow2_pos e).
  split; intros.
  - by apply Qmult_le_r in H0.
  - by apply Qmult_le_r.
Qed.

Lemma scale_lt k m e : inject_Z k * pow2 e < inject_Z m * pow2 e ↔ (k < m)%Z.
Proof.
  rewrite Zlt_Qlt. pose proof (pow2_pos e).
  split; intros.
  - by apply Qmult_lt_r in H0.
  - by apply Qmult_lt_r.
Qed.

(** A multiple of [2^ec] is a multiple of every smaller power. *)
Lemma regrid m ec e :
  (e ≤ ec)%Z →
  inject_Z m * pow2 ec == inject_Z (m * 2 ^ (ec - e)) * pow2 e.
Proof.
  intros. rewrite inject_Z_mult, <- pow2_Z by lia.
  rewrite <- Qmult_assoc, <- pow2_add.
  by replace (ec - e + e)%Z with ec by lia.
Qed.

Lemma rep_nonneg c : rep c → 0 <= c.
Proof.
  intros (m & e & [Hm _] & _ & Hc). rewrite Hc. pose proof (pow2_pos e).
  apply Qmult_le_0_compat; [|lra]. change 0 with (inject_Z 0). by rewrite <- Zle_Qle.
Qed.

Lemma rep_lt_pow2 c m e :
  (0 ≤ m < 2 ^ 53)%Z → c == inject_Z m * pow2 e → c < pow2 (53 + e).
Proof.
  intros [_ Hm] Hc. rewrite Hc, pow2_add, (pow2_Z 53) by lia.
  by apply scale_lt.
Qed.

Lemma digits2_pos_spec p :
  (2 ^ (Zpos (digits2_pos p) - 1) ≤ Zpos p < 2 ^ Zpos (digits2_pos p))%Z.
Proof.
  induction p as [p IH|p IH|]; cbn [digits2_pos];
    rewrite ?Pos2Z.inj_succ.
  - replace (Z.succ (Z.pos (digits2_pos p)) - 1)%Z
      with (Z.succ (Z.pos (digits2_pos p) - 1)) by lia.
    rewrite !Z.pow_succ_r by lia. lia.
  - replace (Z.succ (Z.pos (digits2_pos p)) - 1)%Z
      with (Z.succ (Z.pos (digits2_pos p) - 1)) by lia.
    rewrite !Z.pow_succ_r by lia. lia.
  - done.
Qed.

Lemma Zdigits2_spec m :
  (0 < m)%Z → (2 ^ (Zdigits2 m - 1) ≤ m < 2 ^ Zdigits2 m)%Z ∧ (0 < Zdigits2 m)%Z.
Proof.
  destruct m as [|p|p]; try lia. intros _.
  split; [apply digits2_pos_spec|done].
Qed.

Lemma Zdigits2_pow2 m e :
  (0 < m)%Z → pow2 (Zdigits2 m - 1 + e) <= inject_Z m * pow2 e.
Proof.
  intros Hm. destruct (Zdigits2_spec m Hm) as [[Hlo _] Hd].
  rewrite pow2_add, pow2_Z by lia. by apply scale_le.
Qed.

Lemma fexp64 x : fexp prec emax x = Z.max (x - 53) (-1074).
Proof. reflexivity. Qed.

Lemma shr_1_inv V mrs e : shr_inv V mrs e → shr_inv V (shr_1 mrs) (e + 1).
Proof.
  destruct mrs as [m r s]. unfold shr_inv. cbn [shr_m shr_r shr_s].
  intros (Hm & Hlo & Hhi & Hstrict).
  pose proof (pow2_pos e) as Hp.
  assert (Hodd : ∀ p, inject_Z (Z.pos p~1) == 2 * inject_Z (Z.pos p) + 1).
  { intros p. by rewrite Pos2Z.inj_xI, inject_Z_plus, inject_Z_mult. }
  assert (Heven : ∀ p, inject_Z (Z.pos p~0) == 2 * inject_Z (Z.pos p)).
  { intros p. by rewrite Pos2Z.inj_xO, inject_Z_mult. }
  assert (Hsucc : ∀ z, inject_Z (z + 1) == inject_Z z + 1).
  { intros z. by rewrite inject_Z_plus. }
  rewrite Hsucc in Hhi.
  destruct m as [|p|p]; [|destruct p as [p|p|]|lia];
    cbn [shr_1 shr_m shr_r shr_s]; rewrite (pow2_S e), ?Hsucc;
    rewrite ?Hodd, ?Heven in Hlo, Hhi, Hstrict;
    change (inject_Z 0) with 0 in *; change (inject_Z 1) with 1 in *;
    (split; [lia|]); split_and!; try nra;
    intros Hf; try (rewrite orb_false_l in Hf; specialize (Hstrict Hf)); nra.
Qed.

Lemma iter_pos_shr_inv V p : ∀ mrs e,
  shr_inv V mrs e → shr_inv V (SpecFloat.iter_pos shr_1 p mrs) (e + Zpos p).
Proof.
  induction p as [p IH|p IH|]; intros mrs e Hinv; cbn [SpecFloat.iter_pos].
  - replace (e + Z.pos p~1)%Z with (e + 1 + Z.pos p + Z.pos p)%Z by lia.
    by apply IH, IH, shr_1_inv.
  - replace (e + Z.pos p~0)%Z with (e + Z.pos p + Z.pos p)%Z by lia.
    by apply IH, IH.
  - by apply shr_1_inv.
Qed.

Lemma shr_record_of_loc_inv V m l e :
  (0 ≤ m)%Z →
  inject_Z m * pow2 e <= V → V < inject_Z (m + 1) * pow2 e →
  (l ≠ loc_Exact → inject_Z m * pow2 e < V) →
  shr_inv V (shr_record_of_loc m l) e.
Proof.
  intros Hm Hlo Hhi Hinex. unfold shr_inv.
  assert (shr_m (shr_record_of_loc m l) = m) as -> by (by destruct l as [|[]]).
  split_and!; try done.
  intros Hf. apply Hinex. intros ->. discriminate Hf.
Qed.

(** One call of [shr_fexp] on a mantissa, an exponent and a location that
    stand for the non-negative number [V]. *)
Lemma shr_fexp_stage V m e l mrs' e' :
  (0 ≤ m)%Z →
  inject_Z m * pow2 e <= V → V < inject_Z (m + 1) * pow2 e →
  (l = loc_Exact → V == inject_Z m * pow2 e) →
  (l ≠ loc_Exact →
   inject_Z m * pow2 e < V ∧ (e ≤ fexp prec emax (Zdigits2 m + e))%Z) →
  shr_fexp prec emax m e l = (mrs', e') →
  shr_inv V mrs' e' ∧
  (∀ c, rep c → c <= V → c <= inject_Z (shr_m mrs') * pow2 e') ∧
  (∀ c, rep c → V <= c → shr_r mrs' || shr_s mrs' = true →
        inject_Z (shr_m mrs' + 1) * pow2 e' <= c).
Proof.
  intros Hm Hlo Hhi Hex Hinex Hshr.
  pose proof (shr_record_of_loc_inv V m l e Hm Hlo Hhi
                (λ H, proj1 (Hinex H))) as Hinv0.
  set (F := fexp prec emax (Zdigits2 m + e)) in *.
  assert (HF : F = Z.max (Zdigits2 m + e - 53) (-1074)) by apply fexp64.
  assert (Hcases : shr_inv V mrs' e' ∧
            ((e' = F ∧ (e ≤ F)%Z) ∨
             (l = loc_Exact ∧ e' = e ∧ mrs' = shr_record_of_loc m l))).
  { unfold shr_fexp, shr in Hshr. fold F in Hshr.
    destruct (F - e)%Z as [|p|p] eqn:Hn; injection Hshr as <- <-.
    - split; [done|]. left. lia.
    - split; [by apply iter_pos_shr_inv|]. left. lia.
    - split; [done|]. right. split_and!; try done.
      destruct l as [|c0]; [done|].
      destruct (Hinex ltac:(discriminate)) as [_ Hle]. lia. }
  destruct Hcases as [Hinv Hcases]. split; [done|].
  destruct Hinv as (Hm' & Hlo' & Hhi' & Hstrict').
  assert (Hmag : (0 < m)%Z → pow2 (Zdigits2 m - 1 + e) <= V).
  { intros Hpos. pose proof (Zdigits2_pow2 m e Hpos). lra. }
  split.
  - intros c (mc & ec & Hmc & Hec & Hc) HcV.
    destruct Hcases as [[-> HeF]|(-> & -> & ->)].
    + destruct (Z_le_gt_dec F ec) as [Hle|Hgt].
      * rewrite Hc, (regrid mc ec F) by done. apply scale_le.
        rewrite Hc, (regrid mc ec F) in HcV by done.
        assert (inject_Z (mc * 2 ^ (ec - F)) * pow2 F
                < inject_Z (shr_m mrs' + 1) * pow2 F) as Hlt by lra.
        apply scale_lt in Hlt. lia.
      * assert (0 < m)%Z as Hpos.
        { destruct (Z.eq_dec m 0%Z) as [->|]; [|lia].
          change (Zdigits2 0) with 0%Z in HF. lia. }
        specialize (Hmag Hpos).
        replace (Zdigits2 m - 1 + e)%Z with (52 + F)%Z in Hmag by lia.
        assert (pow2 (52 + F) < inject_Z (shr_m mrs' + 1) * pow2 F) as Hlt
          by lra.
        rewrite (pow2_add 52 F), (pow2_Z 52) in Hlt by lia. apply scale_lt in Hlt.
        pose proof (rep_lt_pow2 c mc ec Hmc Hc) as Hcu.
        pose proof (pow2_le (53 + ec) (52 + F) ltac:(lia)) as Hpw.
        assert (inject_Z (2 ^ 52) * pow2 F
                <= inject_Z (shr_m mrs') * pow2 F) as Hge
          by (apply scale_le; lia).
        rewrite (pow2_add 52 F), (pow2_Z 52) in Hpw by lia. lra.
    + cbn [shr_record_of_loc shr_m]. by rewrite <- Hex.
  - intros c (mc & ec & Hmc & Hec & Hc) HVc Hf.
    destruct Hcases as [[-> HeF]|(-> & -> & ->)]; [|discriminate Hf].
    specialize (Hstrict' Hf).
    assert (F ≤ ec)%Z as Hle.
    { destruct (Z.eq_dec m 0%Z) as [->|Hne].
      - change (Zdigits2 0) with 0%Z in HF. lia.
      - specialize (Hmag ltac:(lia)).
        pose proof (rep_lt_pow2 c mc ec Hmc Hc) as Hcu.
        assert (pow2 (Zdigits2 m - 1 + e) < pow2 (53 + ec)) as Hlt by lra.
        apply pow2_lt_inv in Hlt. lia. }
    rewrite Hc, (regrid mc ec F) by done. apply scale_le.
    rewrite Hc, (regrid mc ec F) in HVc by done.
    assert (inject_Z (shr_m mrs') * pow2 F
            < inject_Z (mc * 2 ^ (ec - F)) * pow2 F) as Hlt by lra.
    apply scale_lt in Hlt. lia.
Qed.

Lemma rep_pow2 e : (-1074 ≤ e)%Z → rep (pow2 e).
Proof.
  intros. exists 1%Z, e. split_and!; [lia|lia|done|].
  change (inject_Z 1) with 1. ring.
Qed.

(** [binary_round_aux] rounds faithfully: the result is a non-negative
    finite float between the representable numbers around [V]. *)
Theorem binary_round_aux_faithful V mx ex lx :
  (0 ≤ mx)%Z →
  inject_Z mx * pow2 ex <= V → V < inject_Z (mx + 1) * pow2 ex →
  (lx = loc_Exact → V == inject_Z mx * pow2 ex) →
  (lx ≠ loc_Exact →
   inject_Z mx * pow2 ex < V ∧ (ex ≤ fexp prec emax (Zdigits2 mx + ex))%Z) →
  V <= pow2 900 →
  nn_sf (binary_round_aux prec emax false mx ex lx) ∧
  faithful V (SFval (binary_round_aux prec emax false mx ex lx)).
Proof.
  intros Hm Hlo Hhi Hex Hinex Hbig. unfold binary_round_aux.
  destruct (shr_fexp prec emax mx ex lx) as [mrs' e'] eqn:H1.
  destruct (shr_fexp_stage V mx ex lx mrs' e' Hm Hlo Hhi Hex Hinex H1)
    as ((Hm' & Hlo' & Hhi' & Hstrict') & S2 & S3).
  set (m1 := round_nearest_even (shr_m mrs') (loc_of_shr_record mrs')).
  assert (Hm1 : m1 = shr_m mrs' ∨
                (m1 = (shr_m mrs' + 1)%Z ∧ shr_r mrs' || shr_s mrs' = true)).
  { subst m1. destruct mrs' as [m' [] []]; cbn; try destruct (Z.even m');
      auto. }
  set (V1 := inject_Z m1 * pow2 e').
  assert (L1 : ∀ c, rep c → c <= V → c <= V1).
  { intros c Hc Hle. specialize (S2 c Hc Hle).
    assert (inject_Z (shr_m mrs') * pow2 e' <= V1) as Hge
      by (apply scale_le; lia).
    lra. }
  assert (U1 : ∀ c, rep c → V <= c → V1 <= c).
  { intros c Hc Hle. destruct Hm1 as [Heq|[Heq Hf]]; unfold V1; rewrite Heq.
    - lra.
    - by apply S3. }
  assert (0 ≤ m1)%Z as Hm1pos by lia.
  destruct (shr_fexp prec emax m1 e' loc_Exact) as [mrs'' e''] eqn:H2.
  destruct (shr_fexp_stage V1 m1 e' loc_Exact mrs'' e'' Hm1pos) as
    ((Hm'' & Hlo'' & _) & S2' & _); try done.
  { apply Qle_refl. }
  { apply scale_lt. lia. }
  pose proof (U1 _ (rep_pow2 900 ltac:(lia)) Hbig) as Hbig1.
  destruct (shr_m mrs'') as [|p|p] eqn:Hp; [| |lia].
  - split; [done|]. split; intros c Hc Hle; cbn [SFval].
    + specialize (S2' c Hc (L1 c Hc Hle)).
      change (inject_Z 0) with 0 in S2'. lra.
    + by apply rep_nonneg.
  - assert (pow2 e'' <= inject_Z (Z.pos p) * pow2 e'') as Hone.
    { rewrite <- (Qmult_1_l (pow2 e'')) at 1. change 1 with (inject_Z 1).
      apply scale_le. lia. }
    assert (e'' ≤ 900)%Z as He'' by (apply pow2_le_inv; lra).
    assert ((e'' <=? emax - prec)%Z = true) as ->
      by (apply Z.leb_le; change (emax - prec)%Z with 971%Z; lia).
    split; [done|]. split; intros c Hc Hle; cbn [SFval].
    + specialize (S2' c Hc (L1 c Hc Hle)). lra.
    + specialize (U1 c Hc Hle). lra.
Qed.

Lemma faithful_proper V V' v : V == V' → faithful V v → faithful V' v.
Proof.
  intros HV [Hlo Hhi]. split; intros c Hc Hle.
  - apply Hlo; [done|]. by rewrite HV.
  - apply Hhi; [done|]. by rewrite HV.
Qed.

Lemma faithful_exact V v : V == v → faithful V v.
Proof. intros HV. split; intros c _ Hle; by rewrite <- HV. Qed.

(** A representable number is rounded to itself. *)
Lemma faithful_rep V v : rep V → faithful V v → v == V.
Proof.
  intros HV [Hlo Hhi]. apply Qle_antisym.
  - apply Hhi; [done|apply Qle_refl].
  - apply Hlo; [done|apply Qle_refl].
Qed.

Lemma shl_align_fst mx ex ez :
  (ez ≤ ex)%Z →
  inject_Z (Z.pos (shl_align mx ex ez).1) * pow2 ez
  == inject_Z (Z.pos mx) * pow2 ex.
Proof.
  intros Hle. unfold shl_align.
  destruct (ez - ex)%Z as [|d|d] eqn:Hd; cbn [fst]; [|lia|].
  - by replace ez with ex by lia.
  - rewrite (regrid (Z.pos mx) ex ez) by done.
    replace (ex - ez)%Z with (Z.pos d) by lia.
    change (Pos.iter xO mx d) with (shift_pos d mx).
    rewrite shift_pos_correct, Z.pow_pos_fold.
    by rewrite Z.mul_comm.
Qed.

Lemma binary_round_faithful mx ex :
  inject_Z (Z.pos mx) * pow2 ex <= pow2 900 →
  nn_sf (binary_round prec emax false mx ex) ∧
  faithful (inject_Z (Z.pos mx) * pow2 ex)
    (SFval (binary_round prec emax false mx ex)).
Proof.
  intros Hbig. unfold binary_round.
  set (F := fexp prec emax (Z.pos (digits2_pos mx) + ex)).
  destruct (shl_align mx ex F) as [mz ez] eqn:Hsh.
  assert (Hv : inject_Z (Z.pos mz) * pow2 ez == inject_Z (Z.pos mx) * pow2 ex).
  { unfold shl_align in Hsh.
    destruct (F - ex)%Z as [|d|d] eqn:Hd; injection Hsh as <- <-; try done.
    pose proof (shl_align_fst mx ex F ltac:(lia)) as Hfst.
    unfold shl_align in Hfst. by rewrite Hd in Hfst. }
  apply binary_round_aux_faithful.
  - lia.
  - rewrite Hv. apply Qle_refl.
  - rewrite <- Hv. apply scale_lt. lia.
  - intros _. by symmetry.
  - done.
  - done.
Qed.

Lemma binary_normalize_faithful m e :
  (0 ≤ m)%Z →
  inject_Z m * pow2 e <= pow2 900 →
  nn_sf (binary_normalize prec emax m e false) ∧
  faithful (inject_Z m * pow2 e)
    (SFval (binary_normalize prec emax m e false)).
Proof.
  intros Hm Hbig. destruct m as [|p|p]; [| |lia]; cbn [binary_normalize].
  - split; [done|]. apply faithful_exact. cbn [SFval].
    change (inject_Z 0) with 0. ring.
  - by apply binary_round_faithful.
Qed.

Lemma SFval_pos m e : SFval (S754_finite false m e) == inject_Z (Z.pos m) * pow2 e.
Proof. cbn [SFval]. ring. Qed.

Lemma SFval_gt_0 m e : 0 < SFval (S754_finite false m e).
Proof.
  rewrite SFval_pos. pose proof (pow2_pos e).
  apply Qmult_lt_0_compat; [|done]. change 0 with (inject_Z 0).
  by rewrite <- Zlt_Qlt.
Qed.

Lemma nn_sf_nonneg x : nn_sf x → 0 <= SFval x.
Proof.
  destruct x as [| | |[] m e]; try done; intros _; try apply Qle_refl.
  apply Qlt_le_weak, SFval_gt_0.
Qed.

Lemma SFmul_faithful x y :
  nn_sf x → nn_sf y → SFval x * SFval y <= pow2 900 →
  nn_sf (SFmul prec emax x y) ∧
  faithful (SFval x * SFval y) (SFval (SFmul prec emax x y)).
Proof.
  destruct x as [sx| | |[] mx ex]; try done;
    destruct y as [sy| | |[] my ey]; try done; intros _ _ Hbig;
    cbn [SFmul xorb]; try (split; [done|apply faithful_exact; cbn [SFval]; ring]).
  assert (HV : inject_Z (Z.pos (mx * my)) * pow2 (ex + ey)
               == SFval (S754_finite false mx ex)
                  * SFval (S754_finite false my ey)).
  { rewrite !SFval_pos, Pos2Z.inj_mul, inject_Z_mult, pow2_add. ring. }
  rewrite <- HV in Hbig.
  destruct (binary_round_aux_faithful _ (Z.pos (mx * my)) (ex + ey) loc_Exact
              ltac:(lia) ltac:(apply Qle_refl)
              ltac:(apply scale_lt; lia) ltac:(done) ltac:(done) Hbig)
    as [Hnn Hf].
  split; [done|]. by apply (faithful_proper _ _ _ HV).
Qed.

Lemma SFadd_faithful x y :
  nn_sf x → nn_sf y → SFval x + SFval y <= pow2 900 →
  nn_sf (SFadd prec emax x y) ∧
  faithful (SFval x + SFval y) (SFval (SFadd prec emax x y)).
Proof.
  destruct x as [sx| | |[] mx ex]; try done;
    destruct y as [sy| | |[] my ey]; try done; intros _ _ Hbig;
    cbn [SFadd cond_Zopp].
  - split; [by destruct sx, sy|]. apply faithful_exact.
    destruct sx, sy; cbn [SFval]; ring.
  - split; [done|]. apply faithful_exact. cbn [SFval]. ring.
  - split; [done|]. apply faithful_exact. cbn [SFval]. ring.
  - set (ez := Z.min ex ey).
    pose proof (shl_align_fst mx ex ez ltac:(lia)) as Hx.
    pose proof (shl_align_fst my ey ez ltac:(lia)) as Hy.
    set (mx' := (shl_align mx ex ez).1) in *.
    set (my' := (shl_align my ey ez).1) in *.
    assert (HV : inject_Z (Z.pos mx' + Z.pos my') * pow2 ez
                 == SFval (S754_finite false mx ex)
                    + SFval (S754_finite false my ey)).
    { rewrite !SFval_pos, inject_Z_plus, <- Hx, <- Hy. ring. }
    rewrite <- HV in Hbig.
    destruct (binary_normalize_faithful (Z.pos mx' + Z.pos my') ez
                ltac:(lia) Hbig) as [Hnn Hf].
    split; [done|]. by apply (faithful_proper _ _ _ HV).
Qed.

Lemma SFsub_faithful x y :
  nn_sf x → nn_sf y → SFval y <= SFval x → SFval x <= pow2 900 →
  nn_sf (SFsub prec emax x y) ∧
  faithful (SFval x - SFval y) (SFval (SFsub prec emax x y)).
Proof.
  destruct x as [sx| | |[] mx ex]; try done;
    destruct y as [sy| | |[] my ey]; try done; intros _ _ Hle Hbig;
    cbn [SFsub cond_Zopp].
  - split; [by destruct sx, sy|]. apply faithful_exact.
    destruct sx, sy; cbn [SFval]; ring.
  - pose proof (SFval_gt_0 my ey) as Hpos. cbn [SFval] in Hle, Hpos. lra.
  - split; [done|]. apply faithful_exact. cbn [SFval]. ring.
  - set (ez := Z.min ex ey).
    pose proof (shl_align_fst mx ex ez ltac:(lia)) as Hx.
    pose proof (shl_align_fst my ey ez ltac:(lia)) as Hy.
    set (mx' := (shl_align mx ex ez).1) in *.
    set (my' := (shl_align my ey ez).1) in *.
    rewrite !SFval_pos, <- Hx, <- Hy in Hle. apply scale_le in Hle.
    assert (HV : inject_Z (Z.pos mx' - Z.pos my') * pow2 ez
                 == SFval (S754_finite false mx ex)
                    - SFval (S754_finite false my ey)).
    { rewrite !SFval_pos, <- Hx, <- Hy. unfold Z.sub.
      rewrite inject_Z_plus, inject_Z_opp. ring. }
    assert (inject_Z (Z.pos mx' - Z.pos my') * pow2 ez <= pow2 900) as Hbig'.
    { rewrite SFval_pos, <- Hx in Hbig.
      assert (inject_Z (Z.pos mx' - Z.pos my') * pow2 ez
              <= inject_Z (Z.pos mx') * pow2 ez) by (apply scale_le; lia).
      lra. }
    destruct (binary_normalize_faithful (Z.pos mx' - Z.pos my') ez
                ltac:(lia) Hbig') as [Hnn Hf].
    split; [done|]. by apply (faithful_proper _ _ _ HV).
Qed.

Lemma new_location_exact nb k : new_location nb k = loc_Exact ↔ k = 0%Z.
Proof.
  unfold new_location, new_location_even, new_location_odd.
  destruct (Z.even nb), (Z.eqb_spec k 0); split; try done; discriminate.
Qed.

(** The quotient, exponent and location [SFdiv] hands to the rounding. *)
Lemma SFdiv_core_spec mx ex my ey q e' l :
  SFdiv_core_binary prec emax (Z.pos mx) ex (Z.pos my) ey = (q, e', l) →
  (0 ≤ q)%Z ∧
  inject_Z q * pow2 e'
    <= SFval (S754_finite false mx ex) / SFval (S754_finite false my ey) ∧
  SFval (S754_finite false mx ex) / SFval (S754_finite false my ey)
    < inject_Z (q + 1) * pow2 e' ∧
  (l = loc_Exact →
   SFval (S754_finite false mx ex) / SFval (S754_finite false my ey)
   == inject_Z q * pow2 e') ∧
  (l ≠ loc_Exact →
   inject_Z q * pow2 e'
   < SFval (S754_finite false mx ex) / SFval (S754_finite false my ey)) ∧
  (e' ≤ fexp prec emax (Zdigits2 q + e'))%Z.
Proof.
  unfold SFdiv_core_binary. cbn [Zdigits2].
  set (d1 := Z.pos (digits2_pos mx)). set (d2 := Z.pos (digits2_pos my)).
  set (e0 := Z.min (fexp prec emax (d1 + ex - (d2 + ey))) (ex - ey)).
  set (s := (ex - ey - e0)%Z).
  set (m' := match s with
             | 0%Z => Z.pos mx
             | Z.pos _ => Z.shiftl (Z.pos mx) s
             | Z.neg _ => 0%Z
             end).
  assert (0 ≤ s)%Z as Hs by lia.
  assert (m' = Z.pos mx * 2 ^ s)%Z as Hm'.
  { subst m'. destruct s as [|p|p] eqn:Hsp; [lia| |lia].
    by rewrite Z.shiftl_mul_pow2. }
  clearbody m'.
  destruct (Z.div_eucl m' (Z.pos my)) as [q0 r] eqn:Hdiv.
  intros [= <- <- <-].
  pose proof (Z_div_mod m' (Z.pos my) ltac:(lia)) as Hdm.
  rewrite Hdiv in Hdm. destruct Hdm as [Heq Hr].
  pose proof (digits2_pos_spec mx) as Hdx. fold d1 in Hdx.
  pose proof (digits2_pos_spec my) as Hdy. fold d2 in Hdy.
  assert (0 ≤ q0)%Z as Hq by nia.
  set (Y := inject_Z (Z.pos my)). set (P := pow2 e0).
  assert (0 < Y) as HY.
  { unfold Y. change 0 with (inject_Z 0). by rewrite <- Zlt_Qlt. }
  pose proof (pow2_pos e0) as HP. fold P in HP.
  pose proof (pow2_pos ey) as HPy.
  assert (HV : SFval (S754_finite false mx ex)
               / SFval (S754_finite false my ey)
               == inject_Z q0 * P + inject_Z r * P / Y).
  { rewrite !SFval_pos. fold Y.
    assert (pow2 ex == pow2 s * P * pow2 ey) as ->.
    { unfold P. rewrite <- !pow2_add. by replace (s + e0 + ey)%Z with ex by lia. }
    assert (inject_Z (Z.pos mx) * pow2 s == Y * inject_Z q0 + inject_Z r) as Hm.
    { rewrite pow2_Z, <- inject_Z_mult, <- Hm', Heq by done.
      by rewrite inject_Z_plus, inject_Z_mult. }
    transitivity (inject_Z (Z.pos mx) * pow2 s * P / Y); [field; lra|].
    rewrite Hm. field. lra. }
  assert (0 <= inject_Z r) as Hr0.
  { change 0 with (inject_Z 0). rewrite <- Zle_Qle. lia. }
  assert (inject_Z r < Y) as Hr1 by (unfold Y; rewrite <- Zlt_Qlt; lia).
  assert (0 <= inject_Z r * P / Y) as Ht0.
  { apply Qle_shift_div_l; [done|]. nra. }
  assert (inject_Z r * P / Y < P) as Ht1.
  { apply Qlt_shift_div_r; [done|]. nra. }
  rewrite HV, inject_Z_plus. change (inject_Z 1) with 1.
  split_and!; [done|lra|lra| | |].
  - intros Hl. apply new_location_exact in Hl as ->.
    change (inject_Z 0) with 0. field. lra.
  - intros Hl.
    assert (r ≠ 0)%Z as Hne by (intros ->; by apply Hl, new_location_exact).
    assert (0 < inject_Z r * P / Y); [|lra].
    apply Qlt_shift_div_l; [done|].
    assert (0 < inject_Z r).
    { change 0 with (inject_Z 0). rewrite <- Zlt_Qlt. lia. }
    nra.
  - rewrite fexp64. destruct (Z_le_gt_dec e0 (-1074)) as [|Hgt]; [lia|].
    assert (53 - d1 + d2 ≤ s)%Z as Hs'.
    { subst s e0. rewrite fexp64 in *. lia. }
    assert (2 ^ 52 * 2 ^ d2 ≤ m')%Z as Hbig.
    { rewrite Hm', <- Z.pow_add_r by lia.
      transitivity (2 ^ (d1 - 1) * 2 ^ s)%Z; [|nia].
      rewrite <- Z.pow_add_r by lia. apply Z.pow_le_mono_r; lia. }
    assert (2 ^ 52 ≤ q0)%Z as Hq52 by nia.
    destruct (Zdigits2_spec q0 ltac:(lia)) as [[_ Hqd] Hd0].
    assert (52 < Zdigits2 q0)%Z; [|lia].
    apply (Z.pow_lt_mono_r_iff 2); [lia|lia|].
    by apply (Z.le_lt_trans _ q0).
Qed.

Lemma SFdiv_faithful x my ey :
  nn_sf x →
  SFval x / SFval (S754_finite false my ey) <= pow2 900 →
  nn_sf (SFdiv prec emax x (S754_finite false my ey)) ∧
  faithful (SFval x / SFval (S754_finite false my ey))
    (SFval (SFdiv prec emax x (S754_finite false my ey))).
Proof.
  destruct x as [sx| | |[] mx ex]; try done; intros _ Hbig; cbn [SFdiv xorb].
  - split; [done|]. apply faithful_exact. cbn [SFval].
    unfold Qdiv. ring.
  - destruct (SFdiv_core_binary prec emax (Z.pos mx) ex (Z.pos my) ey)
      as [[q e'] l] eqn:Hcore.
    destruct (SFdiv_core_spec _ _ _ _ _ _ _ Hcore)
      as (Hq & Hlo & Hhi & Hex & Hinex & Hdig).
    apply binary_round_aux_faithful; try done.
    intros Hl. split; [by apply Hinex|done].
Qed.

(** *** The operations on floats *)

Lemma nn_nonneg x : nn x → 0 <= val x.
Proof. apply nn_sf_nonneg. Qed.

Lemma nn_rep x : nn x → rep (val x).
Proof.
  unfold nn, val. pose proof (Prim2SF_valid x) as Hvalid.
  destruct (Prim2SF x) as [s| | |[] m e]; try done; intros _.
  - exists 0%Z, 0%Z. split_and!; try lia. cbn [SFval]. ring.
  - cbn [valid_binary] in Hvalid. unfold bounded, canonical_mantissa in Hvalid.
    apply andb_prop in Hvalid as [Hcan _]. apply Z.eqb_eq in Hcan.
    rewrite fexp64 in Hcan. pose proof (digits2_pos_spec m) as [_ Hd].
    exists (Z.pos m), e. split_and!; [lia| |lia|apply SFval_pos].
    apply (Z.lt_le_trans _ _ _ Hd). apply Z.pow_le_mono_r; lia.
Qed.

Lemma nn_pos_finite x :
  nn x → 0 < val x → ∃ m e, Prim2SF x = S754_finite false m e.
Proof.
  unfold nn, val. destruct (Prim2SF x) as [s| | |[] m e]; try done.
  eauto.
Qed.

Lemma mul_faithful (x y : float) :
  nn x → nn y → val x * val y <= pow2 900 →
  nn (x * y)%float ∧ faithful (val x * val y) (val (x * y)%float).
Proof. unfold nn, val. rewrite mul_spec. apply SFmul_faithful. Qed.

Lemma add_faithful (x y : float) :
  nn x → nn y → val x + val y <= pow2 900 →
  nn (x + y)%float ∧ faithful (val x + val y) (val (x + y)%float).
Proof. unfold nn, val. rewrite add_spec. apply SFadd_faithful. Qed.

Lemma sub_faithful (x y : float) :
  nn x → nn y → val y <= val x → val x <= pow2 900 →
  nn (x - y)%float ∧ faithful (val x - val y) (val (x - y)%float).
Proof. unfold nn, val. rewrite sub_spec. apply SFsub_faithful. Qed.

Lemma div_faithful (x y : float) :
  nn x → nn y → 0 < val y → val x / val y <= pow2 900 →
  nn (x / y)%float ∧ faithful (val x / val y) (val (x / y)%float).
Proof.
  intros Hx Hy Hpos. destruct (nn_pos_finite y Hy Hpos) as (my & ey & Hyf).
  unfold nn, val in *. rewrite div_spec, Hyf. by apply SFdiv_faithful.
Qed.

Lemma of_int_faithful (z : Z) :
  (0 ≤ z < 2 ^ 63)%Z →
  nn (f64_of_int z) ∧ faithful (inject_Z z) (val (f64_of_int z)).
Proof.
  intros Hz. unfold f64_of_int.
  assert ((z <? 0)%Z = false) as -> by (apply Z.ltb_ge; lia).
  unfold nn, val. rewrite of_uint63_spec, Uint63.of_Z_spec.
  rewrite Z.mod_small by (change wB with (2 ^ 63)%Z; lia).
  assert (inject_Z z * pow2 0 == inject_Z z) as HV
    by (change (pow2 0) with 1; ring).
  destruct (binary_normalize_faithful z 0 ltac:(lia)) as [Hnn Hf].
  { rewrite HV, (pow2_Z 900) by lia.
    rewrite <- Zle_Qle. transitivity (2 ^ 63)%Z; [lia|].
    apply Z.pow_le_mono_r; lia. }
  split; [done|]. by apply (faithful_proper _ _ _ HV).
Qed.

Lemma rep_Z z : (0 ≤ z < 2 ^ 53)%Z → rep (inject_Z z).
Proof.
  intros. exists z, 0%Z. split_and!; try lia. change (pow2 0) with 1. ring.
Qed.

(** Below [2^53] the conversion is exact. *)
Lemma of_int_exact (z : Z) :
  (0 ≤ z < 2 ^ 53)%Z →
  nn (f64_of_int z) ∧ val (f64_of_int z) == inject_Z z.
Proof.
  intros Hz. destruct (of_int_faithful z) as [Hnn Hf]; [lia|].
  split; [done|]. apply faithful_rep; [|done]. by apply rep_Z.
Qed.

Lemma to_int_bounds (x : float) :
  nn x →
  ∃ z, f64_to_int x = Some z ∧
       inject_Z z <= val x ∧ val x < inject_Z (z + 1).
Proof.
  unfold nn, val, f64_to_int.
  destruct (Prim2SF x) as [s| | |[] m e]; try done; intros _.
  - exists 0%Z. split; [done|]. cbn [SFval]. split; [apply Qle_refl|done].
  - eexists. split; [reflexivity|]. rewrite SFval_pos.
    destruct e as [|k|k].
    + change (pow2 0) with 1. rewrite Z.shiftl_0_r, inject_Z_plus.
      change (inject_Z 1) with 1. lra.
    + rewrite Z.shiftl_mul_pow2, inject_Z_plus, inject_Z_mult, pow2_Z by lia.
      change (inject_Z 1) with 1. lra.
    + rewrite Z.shiftr_div_pow2 by lia.
      set (a := (Z.pos m / 2 ^ Z.pos k)%Z).
      assert (pow2 (Z.neg k) * pow2 (Z.pos k) == 1) as Hinv.
      { rewrite <- pow2_add. by replace (Z.neg k + Z.pos k)%Z with 0%Z by lia. }
      pose proof (pow2_pos (Z.neg k)) as Hp. pose proof (pow2_pos (Z.pos k)) as Hq.
      assert (2 ^ Z.pos k * a ≤ Z.pos m < 2 ^ Z.pos k * (a + 1))%Z as [Hlo Hhi].
      { split; [apply Z.mul_div_le; lia|].
        replace (a + 1)%Z with (Z.succ a) by lia.
        apply Z.mul_succ_div_gt. lia. }
      rewrite Zle_Qle in Hlo. rewrite Zlt_Qlt in Hhi.
      rewrite inject_Z_mult, <- pow2_Z in Hlo, Hhi by lia.
      set (A := inject_Z a) in *. set (A1 := inject_Z (a + 1)) in *.
      set (M := inject_Z (Z.pos m)) in *.
      set (P := pow2 (Z.neg k)) in *. set (R := pow2 (Z.pos k)) in *.
      split.
      * assert (A == A * (P * R)) as -> by (rewrite Hinv; ring).
        assert (A * (P * R) == (R * A) * P) as -> by ring.
        apply Qmult_le_compat_r; lra.
      * assert (A1 == A1 * (P * R)) as -> by (rewrite Hinv; ring).
        assert (A1 * (P * R) == (R * A1) * P) as -> by ring.
        apply Qmult_lt_compat_r; lra.
Qed.

(** Two valid finite floats compare as their values do. *)
Lemma canonical_lt m1 e1 m2 e2 :
  valid_binary (S754_finite false m1 e1) = true →
  valid_binary (S754_finite false m2 e2) = true →
  (e1 < e2)%Z →
  inject_Z (Z.pos m1) * pow2 e1 < inject_Z (Z.pos m2) * pow2 e2.
Proof.
  cbn [valid_binary]. unfold bounded, canonical_mantissa.
  intros [H1%Z.eqb_eq _]%andb_prop [H2%Z.eqb_eq _]%andb_prop Hlt.
  rewrite fexp64 in H1, H2.
  pose proof (digits2_pos_spec m1) as [_ Hd1].
  pose proof (digits2_pos_spec m2) as [Hd2 _].
  assert (Z.pos m1 < 2 ^ 53)%Z as Hm1.
  { apply (Z.lt_le_trans _ _ _ Hd1). apply Z.pow_le_mono_r; lia. }
  assert (2 ^ 52 ≤ Z.pos m2)%Z as Hm2.
  { replace (Z.pos (digits2_pos m2)) with 53%Z in Hd2 by lia. done. }
  assert (inject_Z (Z.pos m1) * pow2 e1 < inject_Z (2 ^ 53) * pow2 e1) as HA
    by (by apply scale_lt).
  assert (inject_Z (2 ^ 52) * pow2 e2 <= inject_Z (Z.pos m2) * pow2 e2) as HB
    by (by apply scale_le).
  pose proof (pow2_le (53 + e1) (52 + e2) ltac:(lia)) as HC.
  rewrite (pow2_add 53 e1), (pow2_add 52 e2), (pow2_Z 53), (pow2_Z 52) in HC
    by lia.
  lra.
Qed.

Lemma SFltb_val x y :
  valid_binary x = true → valid_binary y = true → nn_sf x → nn_sf y →
  SFltb x y = true ↔ SFval x < SFval y.
Proof.
  destruct x as [sx| | |[] mx ex]; try done;
    destruct y as [sy| | |[] my ey]; try done; intros Hvx Hvy _ _;
    unfold SFltb, SFcompare.
  - pose proof (SFval_gt_0 my ey). by cbn [SFval] in *.
  - pose proof (SFval_gt_0 mx ex). cbn [SFval] in *. split; [done|]. lra.
  - rewrite !SFval_pos. destruct (Z.compare_spec ex ey) as [->|Hlt|Hgt].
    + rewrite scale_lt.
      change (Z.pos mx < Z.pos my)%Z with ((mx ?= my)%positive = Lt).
      change (Pos.compare_cont Eq mx my) with (mx ?= my)%positive.
      by destruct (mx ?= my)%positive.
    + split; [intros _|done]. by apply canonical_lt.
    + split; [done|]. intros H.
      pose proof (canonical_lt my ey mx ex Hvy Hvx ltac:(lia)). lra.
Qed.

Lemma ltb_val (x y : float) :
  nn x → nn y → (x <? y)%float = true ↔ val x < val y.
Proof.
  intros Hx Hy. rewrite ltb_spec.
  apply SFltb_val; auto using Prim2SF_valid.
Qed.
End rounding.

(** ** The scorer in binary64 *)

(** A closed inequality of rationals, by evaluation. *)
Ltac qle := apply Qle_bool_imp_le; vm_compute; reflexivity.
(** [m * 2^e] is a number binary64 holds exactly. *)
Ltac rep_dyadic m e :=
  exists m%Z, e%Z; split_and!; [lia|lia|lia|vm_compute; reflexivity].

(** Every number of the scorer is far below the largest float. *)
Section magnitudes.
Local Open Scope Q_scope.

Lemma pow2_900_big : 1000 <= pow2 900.
Proof.
  pose proof (pow2_le 10 900 ltac:(lia)) as H.
  assert (1000 <= pow2 10) by qle. lra.
Qed.

Lemma small q : q <= 1000 → q <= pow2 900.
Proof. pose proof pow2_900_big. lra. Qed.

Lemma nat_small n :
  (Z.of_nat n < 2 ^ 53)%Z → inject_Z (Z.of_nat n) <= pow2 900.
Proof.
  intros. rewrite (pow2_Z 900) by lia. rewrite <- Zle_Qle.
  transitivity (2 ^ 53)%Z; [lia|]. apply Z.pow_le_mono_r; lia.
Qed.

End magnitudes.

(** The side conditions on magnitudes. *)
Ltac num := first [lra | apply small; lra].

(** *** Bounds through sums, products and quotients *)

Section binary64.
Local Open Scope Q_scope.

Lemma rep_0 : rep 0.
Proof. apply (rep_Z 0). lia. Qed.

Lemma bnd_weaken x lo hi lo' hi' :
  bnd x lo hi → lo' <= lo → hi <= hi' → bnd x lo' hi'.
Proof. intros (? & ? & ?) ? ?. split_and!; [done|lra|lra]. Qed.

Lemma nn_bnd x hi : nn x → val x <= hi → bnd x 0 hi.
Proof. intros Hx ?. split_and!; [done|by apply nn_nonneg|done]. Qed.

Lemma of_nat_bnd n :
  (Z.of_nat n < 2 ^ 53)%Z →
  bnd (f64_of_int (Z.of_nat n)) (inject_Z (Z.of_nat n)) (inject_Z (Z.of_nat n)).
Proof.
  intros Hn. destruct (of_int_exact (Z.of_nat n)) as [Hnn Hv]; [lia|].
  split_and!; [done|rewrite Hv; apply Qle_refl|rewrite Hv; apply Qle_refl].
Qed.

Lemma of_Z_bnd z :
  (0 ≤ z < 2 ^ 53)%Z → bnd (f64_of_int z) (inject_Z z) (inject_Z z).
Proof.
  intros Hn. destruct (of_int_exact z) as [Hnn Hv]; [lia|].
  split_and!; [done|rewrite Hv; apply Qle_refl|rewrite Hv; apply Qle_refl].
Qed.

Lemma mul_bnd x y a b c d lo hi :
  bnd x a b → bnd y c d → 0 <= a → 0 <= c → rep lo → rep hi →
  lo <= a * c → b * d <= hi → hi <= pow2 900 →
  bnd (x * y)%float lo hi.
Proof.
  intros (Hx & Hxa & Hxb) (Hy & Hyc & Hyd) Ha Hc Hlo Hhi Hl Hh Hbig.
  pose proof pow2_900_big.
  assert (a * c <= val x * val y) by nra.
  assert (val x * val y <= b * d) by nra.
  destruct (mul_faithful x y Hx Hy) as (Hnn & Hge & Hle); [lra|].
  split_and!; [done|apply Hge; [done|lra]|apply Hle; [done|lra]].
Qed.

Lemma add_bnd x y a b c d lo hi :
  bnd x a b → bnd y c d → rep lo → rep hi →
  lo <= a + c → b + d <= hi → hi <= pow2 900 →
  bnd (x + y)%float lo hi.
Proof.
  intros (Hx & Hxa & Hxb) (Hy & Hyc & Hyd) Hlo Hhi Hl Hh Hbig.
  pose proof pow2_900_big.
  destruct (add_faithful x y Hx Hy) as (Hnn & Hge & Hle); [lra|].
  split_and!; [done|apply Hge; [done|lra]|apply Hle; [done|lra]].
Qed.

Lemma sub_bnd x y a b c d lo hi :
  bnd x a b → bnd y c d → d <= a → rep lo → rep hi →
  lo <= a - d → b - c <= hi → b <= pow2 900 →
  bnd (x - y)%float lo hi.
Proof.
  intros (Hx & Hxa & Hxb) (Hy & Hyc & Hyd) Hda Hlo Hhi Hl Hh Hbig.
  pose proof pow2_900_big.
  destruct (sub_faithful x y Hx Hy) as (Hnn & Hge & Hle); [lra|lra|].
  split_and!; [done|apply Hge; [done|lra]|apply Hle; [done|lra]].
Qed.

(** A quotient of two floats, the first at most the second. *)
Lemma div_unit x y :
  nn x → nn y → 0 < val y → val x <= val y → bnd (x / y)%float 0 1.
Proof.
  intros Hx Hy Hpos Hle. pose proof pow2_900_big.
  assert (val x / val y <= 1) as Hq
    by (apply Qle_shift_div_r; [done|lra]).
  destruct (div_faithful x y Hx Hy Hpos) as (Hnn & Hge & Hle'); [lra|].
  apply nn_bnd; [done|]. apply Hle'; [|done]. apply (rep_Z 1). lia.
Qed.

(** The same with a lower bound. *)
Lemma div_unit_ge x y lo :
  nn x → nn y → 0 < val y → val x <= val y → rep lo → lo * val y <= val x →
  bnd (x / y)%float lo 1.
Proof.
  intros Hx Hy Hpos Hle Hlo Hge. pose proof pow2_900_big.
  assert (val x / val y <= 1) as Hq
    by (apply Qle_shift_div_r; [done|lra]).
  assert (lo <= val x / val y) as Hq'
    by (by apply Qle_shift_div_l).
  destruct (div_faithful x y Hx Hy Hpos) as (Hnn & Hge' & Hle'); [lra|].
  split_and!; [done|by apply Hge'|].
  apply Hle'; [|done]. apply (rep_Z 1). lia.
Qed.

Lemma inject_nat_val n m : (n ≤ m)%nat → inject_Z (Z.of_nat n) <= inject_Z (Z.of_nat m).
Proof. intros. rewrite <- Zle_Qle. lia. Qed.

Lemma inject_nat_val_pos n : (0 < n)%nat → 0 < inject_Z (Z.of_nat n).
Proof. intros. change 0 with (inject_Z 0). rewrite <- Zlt_Qlt. lia. Qed.

(** The quotient of two lengths, the first at most the second. *)
Lemma nat_div_unit n m :
  (n ≤ m)%nat → (0 < m)%nat → (Z.of_nat m < 2 ^ 53)%Z →
  bnd (f64_of_int (Z.of_nat n) / f64_of_int (Z.of_nat m))%float 0 1.
Proof.
  intros Hnm Hm Hbig.
  destruct (of_nat_bnd n) as (Hn & Hn1 & Hn2); [lia|].
  destruct (of_nat_bnd m) as (Hm' & Hm1 & Hm2); [lia|].
  pose proof (inject_nat_val n m Hnm). pose proof (inject_nat_val_pos m Hm).
  apply div_unit; [done|done|lra|lra].
Qed.

Lemma f64_100 : bnd (f64_of_int 100) 100 100.
Proof. apply (of_Z_bnd 100). lia. Qed.

Lemma f64_1 : bnd (f64_of_int 1) 1 1.
Proof. apply (of_Z_bnd 1). lia. Qed.

Lemma rep_100 : rep 100.
Proof. apply (rep_Z 100). lia. Qed.

Lemma rep_1 : rep 1.
Proof. apply (rep_Z 1). lia. Qed.

Lemma word_score64_bnd (tw trw : list str) :
  tw ≠ [] → (Z.of_nat (length tw) < 2 ^ 53)%Z →
  bnd (word_score (H:=binary64) tw trw) 0 100.
Proof.
  intros Hne Hlen. unfold word_score. cbn [of_int fmul fdiv binary64].
  set (n := size _).
  assert (n ≤ length tw)%nat as Hn.
  { etrans; [|apply (size_list_to_set_le tw)].
    apply subseteq_size, intersection_subseteq_l. }
  assert (0 < length tw)%nat as Hpos by (destruct tw; simpl; [done|lia]).
  pose proof (nat_div_unit n (length tw) Hn Hpos Hlen) as Hq.
  apply (mul_bnd _ _ 0 1 100 100 0 100 Hq f64_100);
    auto using rep_0, rep_100; num.
Qed.

Lemma lev_score64_bnd (s1 s2 : str) :
  (Z.of_nat (length s1) < 2 ^ 53)%Z → (Z.of_nat (length s2) < 2 ^ 53)%Z →
  bnd (lev_score (H:=binary64) s1 s2) 0 100.
Proof.
  intros H1 H2. unfold lev_score. cbn [of_int fmul fdiv fsub binary64].
  pose proof (levenshtein_le_max s1 s2) as Hd.
  destruct (Nat.ltb_spec 0 (length s1 `max` length s2)) as [Hm|].
  - pose proof (nat_div_unit _ _ Hd Hm ltac:(lia)) as Hq.
    assert (bnd (f64_of_int 1
                 - f64_of_int (Z.of_nat (jellyfish.levenshtein_distance s1 s2))
                   / f64_of_int (Z.of_nat (length s1 `max` length s2)))%float
              0 1) as Hu.
    { apply (sub_bnd _ _ 1 1 0 1 0 1 f64_1 Hq); auto using rep_0, rep_1; num. }
    apply (mul_bnd _ _ 0 1 100 100 0 100 Hu f64_100);
      auto using rep_0, rep_100; num.
  - apply (bnd_weaken _ 0 0); [apply (of_Z_bnd 0); lia|lra|lra].
Qed.

(** Two different strings of fewer than [2^40] characters are at least
    one edit apart, which keeps the Levenshtein term away from 100. *)
Lemma lev_score64_lt_100 (s1 s2 : str) :
  s1 ≠ s2 →
  (Z.of_nat (length s1) < 2 ^ 40)%Z → (Z.of_nat (length s2) < 2 ^ 40)%Z →
  bnd (lev_score (H:=binary64) s1 s2) 0 (100 - 100 * pow2 (-40)).
Proof.
  intros Hne H1 H2. unfold lev_score. cbn [of_int fmul fdiv fsub binary64].
  pose proof (levenshtein_le_max s1 s2) as Hd.
  destruct (Nat.ltb_spec 0 (length s1 `max` length s2)) as [Hm|].
  - assert (0 < jellyfish.levenshtein_distance s1 s2)%nat as Hd0.
    { destruct (jellyfish.levenshtein_distance s1 s2) eqn:Hd'; [|lia].
      by apply levenshtein_0_eq in Hd'. }
    set (d := jellyfish.levenshtein_distance s1 s2) in *.
    set (M := length s1 `max` length s2) in *.
    destruct (of_nat_bnd d) as (Hdn & Hd1 & Hd2); [lia|].
    destruct (of_nat_bnd M) as (HMn & HM1 & HM2); [lia|].
    pose proof (inject_nat_val d M Hd). pose proof (inject_nat_val_pos M Hm).
    assert (1 <= inject_Z (Z.of_nat d)) as Hd3.
    { change 1 with (inject_Z 1). rewrite <- Zle_Qle. lia. }
    assert (inject_Z (Z.of_nat M) <= pow2 40) as HM3.
    { rewrite pow2_Z by lia. rewrite <- Zle_Qle. lia. }
    assert (pow2 (-40) * pow2 40 == 1) as Hinv by (by vm_compute).
    pose proof (pow2_pos (-40)) as Hp.
    assert (bnd (f64_of_int (Z.of_nat d) / f64_of_int (Z.of_nat M))%float
              (pow2 (-40)) 1) as Hq.
    { apply div_unit_ge; [done|done|lra|lra|apply rep_pow2; lia|]. nra. }
    assert (bnd (f64_of_int 1
                 - f64_of_int (Z.of_nat d) / f64_of_int (Z.of_nat M))%float
              0 (1 - pow2 (-40))) as Hu.
    { apply (sub_bnd _ _ 1 1 (pow2 (-40)) 1 0 _ f64_1 Hq);
        [lra|apply rep_0| |lra|lra|num].
      rep_dyadic (2 ^ 40 - 1)%Z (-40)%Z. }
    apply (mul_bnd _ _ 0 (1 - pow2 (-40)) 100 100 0 _ Hu f64_100);
      [lra|lra|apply rep_0| |lra|lra|].
    + rep_dyadic ((2 ^ 40 - 1) * 100)%Z (-40)%Z.
    + num.
  - apply (bnd_weaken _ 0 0); [apply (of_Z_bnd 0); lia|lra|].
    pose proof (pow2_pos (-40)). assert (pow2 (-40) <= 1) by qle. lra.
Qed.

(** Sterbenz, as far as the Winkler boost needs it. *)
Lemma rep_one_minus w :
  rep w → 1 # 2 <= w → w <= 1 → rep (1 - w) ∧ rep ((1 # 2) * (1 - w)).
Proof.
  intros (m & e & Hm & He & Hw) Hlo Hhi.
  pose proof (pow2_pos e) as Hp.
  assert (0 < m)%Z as Hm0.
  { destruct (Z.eq_dec m 0%Z) as [->|]; [|lia].
    change (inject_Z 0) with 0 in Hw. lra. }
  assert (e ≤ 0)%Z as He0.
  { apply pow2_le_inv. change (pow2 0) with 1.
    assert (inject_Z 1 * pow2 e <= inject_Z m * pow2 e) as H
      by (apply scale_le; lia).
    change (inject_Z 1) with 1 in H. lra. }
  assert (-53 ≤ e)%Z as He1.
  { pose proof (rep_lt_pow2 w m e Hm Hw) as Hlt.
    assert (pow2 (-1) < pow2 (53 + e)) as H.
    { assert (pow2 (-1) == 1 # 2) as -> by (by vm_compute). lra. }
    apply pow2_lt_inv in H. lia. }
  assert (1 == inject_Z (2 ^ (- e)) * pow2 e) as Hone.
  { rewrite <- pow2_Z, <- pow2_add by lia.
    by replace (- e + e)%Z with 0%Z by lia. }
  assert (m ≤ 2 ^ (- e))%Z as Hle.
  { apply (scale_le m (2 ^ (- e)) e). rewrite <- Hone, <- Hw. done. }
  assert (2 ^ (- e) ≤ 2 ^ 53)%Z as Hpw by (apply Z.pow_le_mono_r; lia).
  assert (1 - w == inject_Z (2 ^ (- e) - m) * pow2 e) as H1.
  { unfold Z.sub. rewrite inject_Z_plus, inject_Z_opp, Hw.
    rewrite Qmult_plus_distr_l, <- Hone. ring. }
  split.
  - exists (2 ^ (- e) - m)%Z, e. split_and!; [lia|lia|lia|done].
  - exists (2 ^ (- e) - m)%Z, (e - 1)%Z. split_and!; [lia|lia|lia|].
    assert (pow2 e == 2 * pow2 (e - 1)) as Hpe.
    { rewrite <- pow2_S. by replace (e - 1 + 1)%Z with e by lia. }
    rewrite H1, Hpe. field.
Qed.

Lemma common_prefix_le j s1 s2 : (jellyfish.common_prefix j s1 s2 ≤ j)%nat.
Proof.
  revert s1 s2. induction j as [|j IH]; intros [|a s1] [|b s2]; simpl;
    try lia.
  destruct (a =? b)%N; [|lia]. specialize (IH s1 s2). lia.
Qed.

Lemma f64_dec_1_10 : bnd (dec (H:=binary64) 1 10) 0 (1 # 8).
Proof. split_and!; [by vm_compute|qle|qle]. Qed.

(** In binary64 too the Jaro-Winkler similarity is between 0 and 1. *)
Lemma jaro_winkler64_bnd (s1 s2 : str) :
  (Z.of_nat (length s1) < 2 ^ 53)%Z → (Z.of_nat (length s2) < 2 ^ 53)%Z →
  bnd (jellyfish.jaro_winkler_similarity (H:=binary64) s1 s2) 0 1.
Proof.
  intros H1 H2. unfold jellyfish.jaro_winkler_similarity.
  assert (bnd (f64_of_int 0) 0 1) as Hzero.
  { apply (bnd_weaken _ 0 0); [apply (of_Z_bnd 0); lia|lra|lra]. }
  destruct (_ || _) eqn:Hlen; [done|].
  apply orb_false_iff in Hlen as [Hl1%Nat.eqb_neq Hl2%Nat.eqb_neq].
  pose proof (jaro_counts s1 s2 ((length s1 `max` length s2) `div` 2 - 1))
    as (Hc1 & Hc2 & Ht).
  cbv zeta in Hc1, Hc2, Ht.
  set (st := jellyfish.match_loop _ _ _ _ _) in *.
  set (tc := (jellyfish.trans_loop _ _ _ _ _ _ _ `div` 2)%nat) in *.
  destruct (Nat.eqb_spec (jellyfish.common_chars st) 0) as [|Hc0]; [done|].
  cbn [of_int fadd fsub fmul fdiv fltb binary64].
  set (m := jellyfish.common_chars st) in *.
  pose proof (of_nat_bnd m ltac:(lia)) as Hm.
  pose proof (of_nat_bnd tc ltac:(lia)) as Htc.
  pose proof (nat_div_unit m (length s1) Hc1 ltac:(lia) H1) as Ha.
  pose proof (nat_div_unit m (length s2) Hc2 ltac:(lia) H2) as Hb.
  set (common := f64_of_int (Z.of_nat m)) in *.
  pose proof (inject_nat_val tc m Ht) as Htm.
  pose proof (inject_nat_val_pos m ltac:(lia)) as Hmpos.
  assert (bnd (common - f64_of_int (Z.of_nat tc))%float 0
            (inject_Z (Z.of_nat m))) as Hcm.
  { pose proof (inject_nat_val 0 tc ltac:(lia)) as H0.
    change (inject_Z (Z.of_nat 0)) with 0 in H0.
    apply (sub_bnd _ _ _ _ _ _ 0 _ Hm Htc);
      [done|apply rep_0|apply rep_Z; lia|lra|lra|apply nat_small; lia]. }
  assert (bnd ((common - f64_of_int (Z.of_nat tc)) / common)%float 0 1)
    as Hc.
  { destruct Hm as (? & ? & ?), Hcm as (? & ? & ?).
    apply div_unit; [done|done|lra|lra]. }
  assert (rep 2) as Hr2 by (apply (rep_Z 2); lia).
  assert (rep 3) as Hr3 by (apply (rep_Z 3); lia).
  pose proof (add_bnd _ _ _ _ _ _ 0 2 Ha Hb rep_0 Hr2
                ltac:(lra) ltac:(lra) ltac:(num)) as HS1.
  pose proof (add_bnd _ _ _ _ _ _ 0 3 HS1 Hc rep_0 Hr3
                ltac:(lra) ltac:(lra) ltac:(num)) as HS2.
  set (S2 := (common / f64_of_int (Z.of_nat (length s1))
              + common / f64_of_int (Z.of_nat (length s2))
              + (common - f64_of_int (Z.of_nat tc)) / common)%float) in *.
  assert (bnd (S2 / f64_of_int 3)%float 0 1) as Hw.
  { destruct HS2 as (? & ? & ?).
    destruct (of_Z_bnd 3 ltac:(lia)) as (? & Hthree & ?).
    change (inject_Z 3) with 3 in Hthree.
    apply div_unit; [done|done|lra|lra]. }
  set (weight := (S2 / f64_of_int 3)%float) in *.
  destruct (PrimFloat.ltb _ weight); [|done].
  set (i := jellyfish.common_prefix _ _ _).
  assert (i ≤ 4)%nat as Hi by (subst i; etrans; [apply common_prefix_le|lia]).
  destruct (i =? 0)%nat; [done|].
  assert (bnd (f64_of_int (Z.of_nat i) * dec 1 10)%float 0 (1 # 2)) as Hk.
  { pose proof (of_nat_bnd i ltac:(lia)) as Hfi.
    pose proof (inject_nat_val i 4 Hi) as Hi4.
    pose proof (inject_nat_val 0 i ltac:(lia)) as Hi0.
    change (inject_Z (Z.of_nat 4)) with 4 in Hi4.
    change (inject_Z (Z.of_nat 0)) with 0 in Hi0.
    apply (mul_bnd _ _ 0 4 0 (1 # 8) 0 _
             (bnd_weaken _ _ _ 0 4 Hfi Hi0 Hi4) f64_dec_1_10);
      [lra|lra|apply rep_0| |lra|lra|num].
    rep_dyadic 1%Z (-1)%Z. }
  destruct Hw as (Hwn & Hw0 & Hw1).
  destruct f64_1 as (H1n & H1a & H1b).
  destruct (Qlt_le_dec (val weight) (1 # 2)) as [Hlt|Hge].
  - assert (bnd (f64_of_int 1 - weight)%float 0 1) as Hu.
    { apply (sub_bnd _ _ 1 1 0 1 0 1); auto using rep_0, rep_1;
        try num; by split_and!. }
    assert (bnd (f64_of_int (Z.of_nat i) * dec 1 10
                 * (f64_of_int 1 - weight))%float 0 (1 # 2)) as Hpr.
    { apply (mul_bnd _ _ _ _ _ _ 0 _ Hk Hu);
        [lra|lra|apply rep_0| |lra|lra|num].
      rep_dyadic 1%Z (-1)%Z. }
    apply (add_bnd _ _ 0 (1 # 2) 0 (1 # 2) 0 1);
      [split_and!; [done|done|lra]|done|apply rep_0|apply rep_1|lra|lra|num].
  - destruct (rep_one_minus (val weight) (nn_rep _ Hwn) Hge Hw1)
      as [Hrep1 Hrep2].
    assert (bnd (f64_of_int 1 - weight)%float
              (1 - val weight) (1 - val weight)) as Hu.
    { apply (sub_bnd _ _ 1 1 (val weight) (val weight));
        [by split_and!|split_and!; [done|lra|lra]|done|done|done
        |lra|lra|num]. }
    assert (bnd (f64_of_int (Z.of_nat i) * dec 1 10
                 * (f64_of_int 1 - weight))%float 0
              ((1 # 2) * (1 - val weight))) as Hpr.
    { apply (mul_bnd _ _ _ _ _ _ 0 _ Hk Hu);
        [lra|lra|apply rep_0|done|lra|lra|num]. }
    apply (add_bnd _ _ (val weight) (val weight) 0 ((1 # 2) * (1 - val weight))
             0 1);
      [split_and!; [done|lra|lra]|done|apply rep_0|apply rep_1|lra|lra|num].
Qed.

(** There are no more words than characters. *)
Lemma length_replace_nil old s : (length (replace old [] s) ≤ length s)%nat.
Proof.
  induction s as [|c s IH]; [done|]. unfold replace in *. cbn.
  destruct (c =? old)%N; simpl; lia.
Qed.

Lemma length_split_from cur s :
  (length (split_from cur s)
   ≤ length s + match cur with [] => 0 | _ => 1 end)%nat.
Proof.
  revert cur. induction s as [|c s IH]; intros cur; simpl.
  - destruct cur; simpl; lia.
  - destruct (isspace c).
    + specialize (IH []). destruct cur; simpl in *; lia.
    + specialize (IH (c :: cur)). destruct cur; simpl in *; lia.
Qed.

Lemma length_words s : (length (words s) ≤ length s)%nat.
Proof.
  unfold words, split.
  etrans; [apply length_split_from|]. rewrite Nat.add_0_r.
  repeat (etrans; [apply length_replace_nil|]). done.
Qed.

(** The four constants of the weighted average. *)
Lemma f64_dec_40_100 :
  bnd (dec (H:=binary64) 40 100) 0 (7205759403792794 # 18014398509481984).
Proof. split_and!; [by vm_compute|qle|qle]. Qed.

Lemma f64_dec_25_100 : bnd (dec (H:=binary64) 25 100) 0 (1 # 4).
Proof. split_and!; [by vm_compute|qle|qle]. Qed.

Lemma f64_dec_20_100 :
  bnd (dec (H:=binary64) 20 100) 0 (7205759403792794 # 36028797018963968).
Proof. split_and!; [by vm_compute|qle|qle]. Qed.

(** The prosody term of the average: 15, 13.5 or 12.75. *)
Lemma prosody_term64 (features : gmap string float) target :
  bnd (prosody_score (H:=binary64) features target * dec 15 100)%float
    (51 # 4) 15.
Proof.
  destruct (prosody_score_cases (H:=binary64) features target)
    as [->|[->| ->]]; (split_and!; [by vm_compute|qle|qle]).
Qed.

(** The weighted average of four terms in their ranges. *)
Lemma final_score64_bnd w j l p hl :
  bnd w 0 100 → bnd j 0 100 → bnd l 0 hl → hl <= 100 →
  bnd (p * dec (H:=binary64) 15 100)%float (51 # 4) 15 →
  bnd (final_score (H:=binary64) w j l p) (51 # 4) 102 ∧
  (hl <= 100 - 100 * pow2 (-40) →
   val (final_score (H:=binary64) w j l p) <= 100 - pow2 (-38)).
Proof.
  intros Hw Hj Hl Hhl Hp. unfold final_score.
  cbn [fadd fmul binary64].
  assert (bnd (w * dec 40 100)%float 0 (40 + pow2 (-44))) as T1.
  { apply (mul_bnd _ _ _ _ _ _ 0 _ Hw f64_dec_40_100);
      [lra|lra|apply rep_0| |lra|qle|apply small; qle].
    rep_dyadic (40 * 2 ^ 44 + 1)%Z (-44)%Z. }
  assert (bnd (j * dec 25 100)%float 0 25) as T2.
  { apply (mul_bnd _ _ _ _ _ _ 0 _ Hj f64_dec_25_100);
      [lra|lra|apply rep_0|apply (rep_Z 25); lia|lra|lra|num]. }
  assert (bnd (w * dec 40 100 + j * dec 25 100)%float 0 (65 + pow2 (-44)))
    as T3.
  { apply (add_bnd _ _ _ _ _ _ 0 _ T1 T2);
      [apply rep_0| |lra|lra|apply small; qle].
    rep_dyadic (65 * 2 ^ 44 + 1)%Z (-44)%Z. }
  assert (0 < pow2 (-44) ∧ pow2 (-44) <= 1 ∧ 0 < pow2 (-40) ∧ pow2 (-40) <= 1
          ∧ 0 < pow2 (-38) ∧ pow2 (-38) <= 1 ∧ 0 < pow2 (-37)
          ∧ pow2 (-37) <= 1) as (? & ? & ? & ? & ? & ? & ? & ?)
    by (split_and!; first [apply pow2_pos|qle]).
  destruct Hl as (Hln & Hl0 & Hl1).
  split.
  - assert (bnd (l * dec 20 100)%float 0 21) as T4.
    { assert (bnd l 0 100) as Hl' by (split_and!; [done|lra|lra]).
      apply (mul_bnd _ _ 0 100 _ _ 0 _ Hl' f64_dec_20_100);
        [lra|lra|apply rep_0|apply (rep_Z 21); lia|lra|qle|num]. }
    assert (bnd (w * dec 40 100 + j * dec 25 100 + l * dec 20 100)%float
              0 87) as T5.
    { apply (add_bnd _ _ _ _ _ _ 0 _ T3 T4);
        [apply rep_0|apply (rep_Z 87); lia|lra|lra|num]. }
    apply (add_bnd _ _ _ _ _ _ _ _ T5 Hp);
      [rep_dyadic 51%Z (-2)%Z|apply (rep_Z 102); lia|lra|lra|num].
  - intros Hhl'.
    assert (bnd (l * dec 20 100)%float 0 (20 - pow2 (-37))) as T4.
    { assert (bnd l 0 (100 - 100 * pow2 (-40))) as Hl'
        by (split_and!; [done|lra|lra]).
      apply (mul_bnd _ _ 0 (100 - 100 * pow2 (-40)) _ _ 0 _ Hl'
               f64_dec_20_100);
        [lra|lra|apply rep_0| |lra|qle|apply small; qle].
      rep_dyadic (20 * 2 ^ 37 - 1)%Z (-37)%Z. }
    assert (bnd (w * dec 40 100 + j * dec 25 100 + l * dec 20 100)%float
              0 (85 - pow2 (-38))) as T5.
    { apply (add_bnd _ _ _ _ _ _ 0 _ T3 T4);
        [apply rep_0| |lra|qle|apply small; qle].
      rep_dyadic (85 * 2 ^ 38 - 1)%Z (-38)%Z. }
    assert (bnd (w * dec 40 100 + j * dec 25 100 + l * dec 20 100
                 + p * dec 15 100)%float 0 (100 - pow2 (-38))) as T6.
    { apply (add_bnd _ _ _ _ _ _ 0 _ T5 Hp);
        [apply rep_0| |lra|lra|apply small; qle].
      rep_dyadic (100 * 2 ^ 38 - 1)%Z (-38)%Z. }
    by destruct T6 as (_ & _ & ?).
Qed.
End binary64.

(** *** The weighted score *)

Section score64.
Local Open Scope Q_scope.
Variable lower : str → str.
Implicit Types features : gmap string float.

(** Past the short-circuit and the zero-word rule, in binary64: the
    scorer returns, the score is between 12 and 100, and below 100 for
    strings of fewer than [2^40] characters. *)
Lemma score64_weighted target transcription features :
  strip (lower target) ≠ strip (lower transcription) →
  words (strip (lower target)) ≠ [] →
  (Z.of_nat (length (strip (lower target))) < 2 ^ 53)%Z →
  (Z.of_nat (length (strip (lower transcription))) < 2 ^ 53)%Z →
  ∃ z, calculate_advanced_score (H:=binary64) lower target transcription
         features = Some z ∧ (12 ≤ z ≤ 100)%Z ∧
       ((Z.of_nat (length (strip (lower target))) < 2 ^ 40)%Z →
        (Z.of_nat (length (strip (lower transcription))) < 2 ^ 40)%Z →
        (z < 100)%Z).
Proof.
  intros Hne Hw HT HR. rewrite score_weighted by done.
  set (T := strip (lower target)) in *.
  set (R := strip (lower transcription)) in *.
  pose proof (length_words T) as HwT.
  pose proof (word_score64_bnd (words T) (words R) Hw ltac:(lia)) as Hword.
  pose proof (jaro_winkler64_bnd T R HT HR) as Hjw.
  assert (bnd (jellyfish.jaro_winkler_similarity T R * of_int 100)%py 0 100)
    as Hj.
  { cbn [fmul of_int binary64].
    apply (mul_bnd _ _ _ _ _ _ 0 _ Hjw f64_100);
      [lra|lra|apply rep_0|apply rep_100|lra|lra|num]. }
  pose proof (prosody_term64 features target) as Hp.
  assert (∃ hl, bnd (lev_score (H:=binary64) T R) 0 hl ∧ hl <= 100 ∧
                ((Z.of_nat (length T) < 2 ^ 40)%Z →
                 (Z.of_nat (length R) < 2 ^ 40)%Z →
                 hl <= 100 - 100 * pow2 (-40))) as (hl & Hl & Hhl & Htight).
  { destruct (Z_lt_dec (Z.of_nat (length T)) (2 ^ 40)) as [H1|H1];
      [destruct (Z_lt_dec (Z.of_nat (length R)) (2 ^ 40)) as [H2|H2]|].
    - exists (100 - 100 * pow2 (-40)). pose proof (pow2_pos (-40)).
      split_and!; [by apply lev_score64_lt_100|lra|intros; apply Qle_refl].
    - exists 100. split_and!; [by apply lev_score64_bnd|lra|done].
    - exists 100. split_and!; [by apply lev_score64_bnd|lra|done]. }
  destruct (final_score64_bnd _ _ _ _ hl Hword Hj Hl Hhl Hp)
    as [(Hfn & Hf0 & Hf1) Hflt].
  cbn [to_int binary64].
  destruct (to_int_bounds _ Hfn) as (z & -> & Hz0 & Hz1).
  cbn [mbind option_bind]. eexists. split; [reflexivity|].
  assert (12 ≤ z)%Z as Hz12.
  { destruct (Z_le_gt_dec (z + 1) 12) as [Hle|]; [|lia].
    rewrite Zle_Qle in Hle. change (inject_Z 12) with 12 in Hle. lra. }
  split; [lia|]. intros H1 H2. specialize (Hflt (Htight H1 H2)).
  pose proof (pow2_pos (-38)).
  assert (z < 100)%Z; [|lia].
  rewrite Zlt_Qlt. change (inject_Z 100) with 100. lra.
Qed.

(** In binary64 the scorer returns an integer from 0 to 100 for all
    strings of fewer than [2^53] characters, whatever the features. *)
Lemma score64_total target transcription features :
  (Z.of_nat (length (strip (lower target))) < 2 ^ 53)%Z →
  (Z.of_nat (length (strip (lower transcription))) < 2 ^ 53)%Z →
  ∃ z, calculate_advanced_score (H:=binary64) lower target transcription
         features = Some z ∧ (0 ≤ z ≤ 100)%Z.
Proof.
  intros HT HR.
  destruct (decide (strip (lower target) = strip (lower transcription)))
    as [Heq|Hne].
  - exists 100%Z. split; [by apply score_exact_match|lia].
  - destruct (words (strip (lower target))) as [|w ws] eqn:Hw.
    + exists 0%Z. split; [by apply score_no_words|lia].
    + destruct (score64_weighted target transcription features)
        as (z & Hz & ? & _); [done|by rewrite Hw|done|done|].
      exists z. split; [done|lia].
Qed.
End score64.

(** *** Lengths up to the largest index *)

Section lengths64.
Local Open Scope Q_scope.

(** The float of a positive length is a positive finite float. *)
Lemma of_nat_pos n :
  (0 < n)%nat → (Z.of_nat n < 2 ^ 63)%Z →
  bnd (f64_of_int (Z.of_nat n)) 1 (pow2 63).
Proof.
  intros Hn Hbig.
  destruct (of_int_faithful (Z.of_nat n) ltac:(lia)) as (Hnn & Hge & Hle).
  split_and!; [done| |].
  - apply Hge; [apply rep_1|]. change 1 with (inject_Z 1).
    rewrite <- Zle_Qle. lia.
  - apply Hle; [apply rep_pow2; lia|]. rewrite pow2_Z by lia.
    rewrite <- Zle_Qle. lia.
Qed.

Lemma of_nat_nn n :
  (Z.of_nat n < 2 ^ 63)%Z → bnd (f64_of_int (Z.of_nat n)) 0 (pow2 63).
Proof.
  intros Hbig.
  destruct (of_int_faithful (Z.of_nat n) ltac:(lia)) as (Hnn & Hge & Hle).
  apply nn_bnd; [done|]. apply Hle; [apply rep_pow2; lia|].
  rewrite pow2_Z by lia. rewrite <- Zle_Qle. lia.
Qed.

(** A positive finite float divided by itself is 1. *)
Lemma div_self x : nn x → 0 < val x → bnd (x / x)%float 1 1.
Proof.
  intros Hx Hpos. pose proof pow2_900_big.
  assert (val x / val x == 1) as HV by (field; lra).
  destruct (div_faithful x x Hx Hx Hpos) as (Hnn & Hge & Hle); [lra|].
  split_and!; [done|apply Hge|apply Hle]; auto using rep_1; lra.
Qed.

Lemma pow2_63_small : pow2 63 <= pow2 900.
Proof. apply pow2_le. lia. Qed.

Lemma f64_12 : bnd (f64_of_int 12) 12 12.
Proof. apply (of_Z_bnd 12). lia. Qed.

(** The expected duration of a target of fewer than [2^63] characters. *)
Lemma expected_duration64 n :
  (Z.of_nat n < 2 ^ 63)%Z →
  bnd (f64_of_int (Z.of_nat n) / f64_of_int 12)%float 0 (pow2 63) ∧
  ((0 < n)%nat →
   bnd (f64_of_int (Z.of_nat n) / f64_of_int 12)%float (1 # 16) (pow2 63)).
Proof.
  intros Hbig. pose proof pow2_63_small.
  destruct f64_12 as (H12 & H12a & H12b).
  assert (∀ v, 0 <= v → v <= pow2 63 → v / val (f64_of_int 12) <= pow2 63)
    as Hdiv.
  { intros v Hv0 Hv. apply Qle_shift_div_r; [lra|].
    pose proof (pow2_pos 63). nra. }
  split.
  - destruct (of_nat_nn n Hbig) as (Hn & Hn0 & Hn1).
    destruct (div_faithful _ _ Hn H12 ltac:(lra)) as (Hnn & _ & Hle).
    { specialize (Hdiv _ Hn0 Hn1). lra. }
    apply nn_bnd; [done|]. apply Hle; [apply rep_pow2; lia|by apply Hdiv].
  - intros Hpos. destruct (of_nat_pos n Hpos Hbig) as (Hn & Hn0 & Hn1).
    destruct (div_faithful _ _ Hn H12 ltac:(lra)) as (Hnn & Hge & Hle).
    { assert (0 <= val (f64_of_int (Z.of_nat n))) as Hn2 by lra.
      specialize (Hdiv _ Hn2 Hn1). lra. }
    split_and!; [done| |].
    + apply Hge; [rep_dyadic 1%Z (-4)%Z|].
      apply Qle_shift_div_l; [lra|]. lra.
    + apply Hle; [apply rep_pow2; lia|]. apply Hdiv; lra.
Qed.
End lengths64.

(** *** The prosody term *)

Section prosody64.
Local Open Scope Q_scope.

Lemma f64_0 : bnd (f64_of_int 0) 0 0.
Proof. apply (of_Z_bnd 0). lia. Qed.

Lemma f64_dec_15_10 : bnd (dec (H:=binary64) 15 10) (3 # 2) (3 # 2).
Proof. split_and!; [by vm_compute|qle|qle]. Qed.

Lemma f64_dec_6_10 : bnd (dec (H:=binary64) 6 10) (1 # 2) 1.
Proof. split_and!; [by vm_compute|qle|qle]. Qed.

Lemma f64_dec_13_10 : bnd (dec (H:=binary64) 13 10) (5 # 4) 2.
Proof. split_and!; [by vm_compute|qle|qle]. Qed.

Lemma f64_dec_7_10 : bnd (dec (H:=binary64) 7 10) (1 # 2) (3 # 4).
Proof. split_and!; [by vm_compute|qle|qle]. Qed.

Lemma ltb_false (x y : float) lo hi lo' hi' :
  bnd x lo hi → bnd y lo' hi' → hi' <= lo → (x <? y)%float = false.
Proof.
  intros (Hx & ? & ?) (Hy & ? & ?) Hle.
  destruct (x <? y)%float eqn:Hlt; [|done].
  apply ltb_val in Hlt; [lra|done|done].
Qed.

Lemma ltb_true (x y : float) lo hi lo' hi' :
  bnd x lo hi → bnd y lo' hi' → hi < lo' → (x <? y)%float = true.
Proof.
  intros (Hx & ? & ?) (Hy & ? & ?) Hle. apply ltb_val; [done|done|lra].
Qed.

(** With no duration among the features, the prosody term is 100 in
    binary64 for every target of fewer than [2^63] characters. *)
Lemma prosody_score64_no_duration_any (features : gmap string float) target :
  (Z.of_nat (length target) < 2 ^ 63)%Z →
  features !! "duration" = None →
  prosody_score (H:=binary64) features target = of_int 100.
Proof.
  intros Hlen Hdur. unfold prosody_score, get. rewrite Hdur.
  destruct (bool_decide _); [|done].
  cbn [of_int fdiv fltb binary64].
  destruct (expected_duration64 (length target) Hlen) as [Hexp _].
  set (expected := (f64_of_int (Z.of_nat (length target)) / f64_of_int 12)%float)
    in *.
  destruct (f64_of_int 0 <? expected)%float eqn:Hpos; [|reflexivity].
  destruct Hexp as (Hn & _ & _).
  apply ltb_val in Hpos; [|apply f64_0|done].
  destruct f64_0 as (_ & H0 & _).
  pose proof (div_self expected Hn ltac:(lra)) as Hratio.
  rewrite (ltb_false _ _ _ _ _ _ f64_dec_15_10 Hratio) by lra.
  rewrite (ltb_false _ _ _ _ _ _ Hratio f64_dec_6_10) by lra.
  rewrite (ltb_false _ _ _ _ _ _ f64_dec_13_10 Hratio) by lra.
  rewrite (ltb_false _ _ _ _ _ _ Hratio f64_dec_7_10) by lra.
  reflexivity.
Qed.

End prosody64.

(** *** Against the empty transcription *)

Section empty_transcription64.
Local Open Scope Q_scope.

Lemma floor_unique z k c :
  inject_Z z <= c → c < inject_Z (z + 1) →
  inject_Z k <= c → c < inject_Z (k + 1) → z = k.
Proof.
  intros Hz0 Hz1 Hk0 Hk1.
  assert (z < k + 1)%Z by (rewrite Zlt_Qlt; lra).
  assert (k < z + 1)%Z by (rewrite Zlt_Qlt; lra).
  lia.
Qed.

(** No transcribed word: the word term is the float 0. *)
Lemma word_score64_no_transcribed_words (target_words : list str) :
  target_words ≠ [] → (Z.of_nat (length target_words) < 2 ^ 63)%Z →
  word_score (H:=binary64) target_words [] = 0%float.
Proof.
  intros Hne Hlen. unfold word_score. rewrite list_to_set_nil.
  replace (size (list_to_set target_words ∩ (∅ : gset str))) with 0%nat
    by (by rewrite intersection_empty_r_L, size_empty).
  cbn [of_int fmul fdiv binary64 Z.of_nat].
  assert (0 < length target_words)%nat as Hpos
    by (destruct target_words; simpl; [done|lia]).
  destruct (of_nat_pos _ Hpos Hlen) as (Hn & Hn1 & _).
  destruct (nn_pos_finite _ Hn ltac:(lra)) as (m & e & Hfin).
  apply Prim2SF_inj. rewrite mul_spec, div_spec, Hfin.
  reflexivity.
Qed.

(** All of the shorter string is edited away: the Levenshtein term is 0. *)
Lemma lev_score64_empty_r (s1 : str) :
  s1 ≠ [] → (Z.of_nat (length s1) < 2 ^ 63)%Z →
  bnd (lev_score (H:=binary64) s1 []) 0 0.
Proof.
  intros Hne Hlen. unfold lev_score.
  assert (jellyfish.levenshtein_distance s1 [] = length s1) as ->
    by (by destruct s1).
  assert (0 < length s1)%nat as Hpos by (destruct s1; simpl; [done|lia]).
  simpl length. rewrite Nat.max_0_r.
  destruct (Nat.ltb_spec 0 (length s1)); [|lia].
  cbn [of_int fmul fdiv fsub binary64].
  destruct (of_nat_pos _ Hpos Hlen) as (Hn & Hn1 & _).
  pose proof (div_self _ Hn ltac:(lra)) as Hq.
  assert (bnd (f64_of_int 1
               - f64_of_int (Z.of_nat (length s1))
                 / f64_of_int (Z.of_nat (length s1)))%float 0 0) as Hu.
  { apply (sub_bnd _ _ 1 1 1 1 0 0 f64_1 Hq); auto using rep_0; try lra;
    try (apply small; lra). }
  apply (mul_bnd _ _ 0 0 100 100 0 0 Hu f64_100); auto using rep_0; try lra;
  try (apply small; lra).
Qed.

Variable lower : str → str.
Hypothesis lower_nil : lower [] = [].

(** With an empty transcription only the prosody term is left. *)
Lemma score64_empty_transcription target (features : gmap string float) :
  words (strip (lower target)) ≠ [] →
  (Z.of_nat (length (strip (lower target))) < 2 ^ 63)%Z →
  ∃ z, calculate_advanced_score (H:=binary64) lower target [] features
         = Some z ∧ (z = 12 ∨ z = 13 ∨ z = 15)%Z.
Proof.
  intros Hw Hlen.
  assert (strip (lower target) ≠ []) as Hne
    by (by intros Heq; rewrite Heq in Hw).
  rewrite score_weighted; rewrite ?lower_nil; [|done..].
  change (strip []) with (@nil N). change (words []) with (@nil str).
  rewrite jaro_winkler_empty_r.
  pose proof (length_words (strip (lower target))) as HwT.
  rewrite word_score64_no_transcribed_words by (done || lia).
  pose proof (lev_score64_empty_r _ Hne Hlen) as Hl.
  unfold final_score. cbn [of_int fadd fmul to_int binary64].
  assert (bnd (lev_score (H:=binary64) (strip (lower target)) []
               * dec 20 100)%float 0 0) as Hl20.
  { apply (mul_bnd _ _ _ _ _ _ 0 0 Hl f64_dec_20_100);
      auto using rep_0; try lra; try qle; try (apply small; lra). }
  assert (bnd (0 * dec 40 100 + f64_of_int 0 * f64_of_int 100 * dec 25 100)%float
            0 0) as Hclosed by (split_and!; [by vm_compute|qle|qle]).
  assert (bnd (0 * dec 40 100 + f64_of_int 0 * f64_of_int 100 * dec 25 100
               + lev_score (H:=binary64) (strip (lower target)) []
                 * dec 20 100)%float 0 0) as Hsum.
  { apply (add_bnd _ _ _ _ _ _ 0 0 Hclosed Hl20); auto using rep_0; try lra;
    try (apply small; lra). }
  assert (Hfinal : ∀ p c (k : Z),
            bnd (p * dec (H:=binary64) 15 100)%float c c → rep c → c <= 15 →
            inject_Z k <= c → c < inject_Z (k + 1) →
            ∃ z, (z' ← f64_to_int
                         (0 * dec 40 100
                          + f64_of_int 0 * f64_of_int 100 * dec 25 100
                          + lev_score (H:=binary64) (strip (lower target)) []
                            * dec 20 100 + p * dec 15 100)%float;
                  Some (z' `min` 100)%Z) = Some z ∧ z = Z.min k 100).
  { intros p c k Hp Hc Hc15 Hk0 Hk1.
    assert (bnd (0 * dec 40 100 + f64_of_int 0 * f64_of_int 100 * dec 25 100
                 + lev_score (H:=binary64) (strip (lower target)) []
                   * dec 20 100 + p * dec 15 100)%float c c)
      as (Hfn & Hf0 & Hf1).
    { apply (add_bnd _ _ _ _ _ _ c c Hsum Hp); try done; try lra;
      try (apply small; lra). }
    destruct (to_int_bounds _ Hfn) as (z & -> & Hz0 & Hz1).
    cbn [mbind option_bind]. eexists. split; [reflexivity|].
    f_equal. apply (floor_unique z k c); lra. }
  destruct (prosody_score_cases (H:=binary64) features target)
    as [-> | [-> | ->]]; cbn [of_int binary64].
  - destruct (Hfinal (f64_of_int 100) 15 15%Z) as (z & -> & ->);
      [split_and!; [by vm_compute|qle|qle]|apply (rep_Z 15); lia|lra
      |by vm_compute|by vm_compute|].
    eexists. split; [reflexivity|]. vm_compute. auto.
  - destruct (Hfinal (f64_of_int 90) (27 # 2) 13%Z) as (z & -> & ->);
      [split_and!; [by vm_compute|qle|qle]|rep_dyadic 27%Z (-1)%Z|qle
      |by vm_compute|by vm_compute|].
    eexists. split; [reflexivity|]. vm_compute. auto.
  - destruct (Hfinal (f64_of_int 85) (51 # 4) 12%Z) as (z & -> & ->);
      [split_and!; [by vm_compute|qle|qle]|rep_dyadic 51%Z (-2)%Z|qle
      |by vm_compute|by vm_compute|].
    eexists. split; [reflexivity|]. vm_compute. auto.
Qed.
End empty_transcription64.

(** *** Equal values, and the rate hint *)

Section equal_values.
Local Open Scope Q_scope.

(** Two non-negative floats of the same positive value are the same
    float. *)
Lemma val_inj x y : nn x → nn y → 0 < val x → val x == val y → x = y.
Proof.
  unfold nn, val. intros Hx Hy Hpos Heq. apply Prim2SF_inj.
  pose proof (Prim2SF_valid x) as Hvx. pose proof (Prim2SF_valid y) as Hvy.
  destruct (Prim2SF x) as [sx| | |[] mx ex]; try done.
  destruct (Prim2SF y) as [sy| | |[] my ey]; try done.
  { pose proof (SFval_gt_0 mx ex). cbn [SFval] in *. lra. }
  rewrite !SFval_pos in Heq.
  destruct (Z.compare_spec ex ey) as [->|Hlt|Hgt].
  - assert (Z.pos mx = Z.pos my) as Hm.
    { apply Z.le_antisymm; apply (scale_le _ _ ey); lra. }
    by injection Hm as ->.
  - pose proof (canonical_lt mx ex my ey Hvx Hvy Hlt). lra.
  - pose proof (canonical_lt my ey mx ex Hvy Hvx Hgt). lra.
Qed.

(** Without a duration the rate hint is the slow-down hint, for a
    non-empty target of fewer than [2^63] characters. *)
Lemma analyze_prosody64_no_duration (features : gmap string float) target :
  target ≠ [] → (Z.of_nat (length target) < 2 ^ 63)%Z →
  features !! "duration" = None →
  ∃ rest, analyze_prosody (H:=binary64) features target = hint_slower :: rest ∧
          (hint_faster ∉ rest) ∧ (hint_slower ∉ rest).
Proof.
  intros Hne Hlen Hdur.
  assert (0 < length target)%nat as Hpos
    by (destruct target; simpl; [done|lia]).
  assert (get features "duration" (@of_int _ binary64 0) = of_int 0) as Hget
    by (unfold get; by rewrite Hdur).
  unfold analyze_prosody. cbv zeta. rewrite Hget.
  cbn [of_int fmul fdiv fltb binary64].
  destruct (expected_duration64 (length target) Hlen) as [_ Hexp].
  specialize (Hexp Hpos).
  set (expected := (f64_of_int (Z.of_nat (length target)) / f64_of_int 12)%float)
    in *.
  pose proof (pow2_pos 63). pose proof pow2_63_small.
  assert (pow2 64 == 2 * pow2 63) as H64 by (by vm_compute).
  assert (bnd (expected * dec 15 10)%float 0 (pow2 64)) as H15.
  { apply (mul_bnd _ _ _ _ _ _ 0 _ Hexp f64_dec_15_10);
      [lra|lra|apply rep_0|apply rep_pow2; lia|lra|lra|apply pow2_le; lia]. }
  assert (bnd (expected * dec 6 10)%float (1 # 32) (pow2 64)) as H6.
  { apply (mul_bnd _ _ _ _ _ _ _ _ Hexp f64_dec_6_10);
      [lra|lra|rep_dyadic 1%Z (-5)%Z|apply rep_pow2; lia|lra|lra
      |apply pow2_le; lia]. }
  rewrite (ltb_false _ _ _ _ _ _ H15 f64_0) by lra.
  rewrite (ltb_true _ _ _ _ _ _ f64_0 H6) by lra.
  set (quiet := PrimFloat.ltb (get features "rms_energy" _) _).
  set (loud := PrimFloat.ltb _ (get features "rms_energy" _)).
  set (noisy := PrimFloat.ltb _ (get features "zcr" _)).
  exists ((if quiet then [hint_louder]
           else if loud then [hint_quieter] else [])
          ++ (if noisy then [hint_articulate] else [])).
  destruct quiet, loud, noisy; simpl; split_and!; try reflexivity;
    intros Hin;
    repeat (apply elem_of_cons in Hin as [Hin|Hin]; [discriminate|]);
    by apply elem_of_nil in Hin.
Qed.
End equal_values.

(** ** The claims about the scorer *)

(** C1.  The score is 100 exactly when target and transcription are equal
    after lowercasing and stripping.  The short-circuit returns 100 on
    every pair with equal normal forms, in every arithmetic.  In binary64,
    the arithmetic of the program, a score of 100 is returned only there,
    and every pair with different normal forms scores an integer from 0 to
    99, for normal forms of fewer than [2^40] characters: two different
    strings are an edit apart, which keeps the Levenshtein term at least
    [100 / 2^40] below 100, more than the rounding of the weighted sum can
    make up for. *)
Theorem score_100_iff_exact_match :
  (∀ F (H : PyFloat F) (lower : str → str) target transcription
     (features : gmap string F),
     strip (lower target) = strip (lower transcription) →
     calculate_advanced_score lower target transcription features
       = Some 100%Z) ∧
  (∀ (lower : str → str) target transcription (features : gmap string float),
     (Z.of_nat (length (strip (lower target))) < 2 ^ 40)%Z →
     (Z.of_nat (length (strip (lower transcription))) < 2 ^ 40)%Z →
     (calculate_advanced_score (H:=binary64) lower target transcription features
        = Some 100%Z
      ↔ strip (lower target) = strip (lower transcription)) ∧
     (strip (lower target) ≠ strip (lower transcription) →
      ∃ z, calculate_advanced_score (H:=binary64) lower target transcription
             features = Some z ∧ (0 ≤ z < 100)%Z)).
Proof.
  split; [intros; by apply score_exact_match|].
  intros lower target transcription features HT HR.
  assert (strip (lower target) ≠ strip (lower transcription) →
          ∃ z, calculate_advanced_score (H:=binary64) lower target transcription
                 features = Some z ∧ (0 ≤ z < 100)%Z) as Hlt.
  { intros Hne. destruct (words (strip (lower target))) as [|w ws] eqn:Hw.
    - exists 0%Z. split; [by apply score_no_words|lia].
    - destruct (score64_weighted lower target transcription features)
        as (z & Hz & Hrange & Hbelow); [done|by rewrite Hw|lia|lia|].
      specialize (Hbelow HT HR). exists z. split; [done|lia]. }
  split; [split|done].
  - intros Hscore.
    destruct (decide (strip (lower target) = strip (lower transcription)))
      as [|Hne]; [done|].
    destruct (Hlt Hne) as (z & Hz & ?). rewrite Hscore in Hz.
    injection Hz as <-. lia.
  - apply score_exact_match.
Qed.

Lemma score_100_iff_exact_match_witness :
  calculate_advanced_score (H:=binary64) lower_latin1
    (py " Hola Mundo") (py "hola mundo  ") ∅ = Some 100%Z ∧
  calculate_advanced_score (H:=binary64) lower_latin1
    (py "hola mundo") (py "ola mundo") ∅ = Some 77%Z ∧
  ∃ z, calculate_advanced_score (H:=binary64) lower_latin1
         (py "hola mundo") (py "ola mundo") ∅ = Some z ∧ (0 ≤ z < 100)%Z.
Proof.
  split_and!.
  - apply (proj1 score_100_iff_exact_match). reflexivity.
  - by vm_compute.
  - apply (proj2 score_100_iff_exact_match lower_latin1 (py "hola mundo")
             (py "ola mundo") ∅); [by vm_compute|by vm_compute|].
    vm_compute. discriminate.
Defined.

(** C6.  In binary64 the scorer returns, for every target and every
    transcription whose normal forms have fewer than [2^53] characters (the
    lengths binary64 holds exactly) and for every feature map, whatever its
    values (negative ones, infinities and NaN included), an integer from 0
    to 100: [int()] never raises there.  In every arithmetic, whatever the
    scorer returns is at most 100. *)
Theorem score_in_range :
  (∀ (lower : str → str) target transcription (features : gmap string float),
     (Z.of_nat (length (strip (lower target))) < 2 ^ 53)%Z →
     (Z.of_nat (length (strip (lower transcription))) < 2 ^ 53)%Z →
     ∃ z, calculate_advanced_score (H:=binary64) lower target transcription
            features = Some z ∧ (0 ≤ z ≤ 100)%Z) ∧
  (∀ F (H : PyFloat F) (lower : str → str) target transcription
     (features : gmap string F) z,
     calculate_advanced_score lower target transcription features = Some z →
     (z ≤ 100)%Z).
Proof.
  split; [|intros; by eapply score_le_100].
  intros lower target transcription features HT HR.
  by apply score64_total.
Qed.

Lemma score_in_range_witness :
  calculate_advanced_score (H:=binary64) lower_latin1
    (py "buenos dias") (py "buenas dias")
    {[ "duration" := (-0x1.8p+1)%float; "rms_energy" := nan;
       "zcr" := infinity ]} = Some 75%Z ∧
  ∃ z, calculate_advanced_score (H:=binary64) lower_latin1
         (py "buenos dias") (py "buenas dias")
         {[ "duration" := (-0x1.8p+1)%float; "rms_energy" := nan;
            "zcr" := infinity ]} = Some z ∧
       (0 ≤ z ≤ 100)%Z.
Proof.
  split; [by vm_compute|].
  apply (proj1 score_in_range); by vm_compute.
Defined.

(** C10.  The exact-match short-circuit comes before the zero-word rule:
    a pair with equal normal forms scores 100, in every arithmetic and
    whatever the target tokenizes to, so a score of 0 from the zero-word
    rule is returned only when the normal forms differ. *)
Theorem short_circuit_precedes_zero_words
    F (H : PyFloat F) (lower : str → str) target transcription
    (features : gmap string F) :
  strip (lower target) = strip (lower transcription) →
  calculate_advanced_score lower target transcription features = Some 100%Z ∧
  calculate_advanced_score lower target transcription features ≠ Some 0%Z.
Proof.
  intros Heq. rewrite score_exact_match by done. split; [done|discriminate].
Qed.

(** The target ["?"] has no word, and still scores 100 against [" ? "]. *)
Lemma short_circuit_precedes_zero_words_witness :
  words (strip (lower_latin1 (py "?"))) = [] ∧
  calculate_advanced_score (H:=binary64) lower_latin1 (py "?") (py " ? ") ∅
    = Some 100%Z.
Proof.
  split; [reflexivity|].
  apply (short_circuit_precedes_zero_words float binary64 lower_latin1
           (py "?") (py " ? ") ∅).
  reflexivity.
Defined.

(** C4, as the claim states it, fails: an empty target against an empty
    transcription takes the short-circuit and scores 100, not 0. *)
Lemma empty_target_counterexample :
  calculate_advanced_score (H:=binary64) lower_latin1 (py "") (py "") ∅
    = Some 100%Z ∧
  calculate_advanced_score (H:=binary64) lower_latin1 (py "") (py "  ") ∅
    = Some 100%Z.
Proof. split; reflexivity. Qed.

(** C4, amended.  With an empty target the score is 0 for every
    transcription that is not empty after lowercasing and stripping, and
    every feature map, in every arithmetic; for a transcription that is
    empty after lowercasing and stripping it is 100. *)
Theorem empty_target_score
    F (H : PyFloat F) (lower : str → str) transcription
    (features : gmap string F) :
  lower [] = [] →
  (strip (lower transcription) ≠ [] →
   calculate_advanced_score lower [] transcription features = Some 0%Z) ∧
  (strip (lower transcription) = [] →
   calculate_advanced_score lower [] transcription features = Some 100%Z).
Proof.
  intros Hnil. split; intros Htr.
  - apply score_no_words; rewrite Hnil; [|done].
    intros Heq. by rewrite <- Heq in Htr.
  - apply score_exact_match. by rewrite Hnil, Htr.
Qed.

Lemma empty_target_score_witness :
  calculate_advanced_score (H:=binary64) lower_latin1 (py "") (py "Hola")
    {[ "rms_energy" := 0x1p-4%float ]} = Some 0%Z.
Proof.
  apply (empty_target_score float binary64 lower_latin1 (py "Hola")
           {[ "rms_energy" := 0x1p-4%float ]}); [reflexivity|].
  vm_compute. discriminate.
Defined.

(** ** The claims about the prosody hints *)

(** C7.  For every feature map and every target, in every arithmetic, the
    feedback is a rate part, then a volume part, then an articulation part;
    each part is empty or one hint of its signal, so the list has at most
    three entries. *)
Theorem prosody_hints_ordered
    F (H : PyFloat F) (features : gmap string F) (target_text : str) :
  ∃ rate volume articulation,
    analyze_prosody features target_text = rate ++ volume ++ articulation ∧
    (rate = [] ∨ rate = [hint_faster] ∨ rate = [hint_slower]) ∧
    (volume = [] ∨ volume = [hint_louder] ∨ volume = [hint_quieter]) ∧
    (articulation = [] ∨ articulation = [hint_articulate]) ∧
    length (analyze_prosody features target_text) ≤ 3.
Proof.
  unfold analyze_prosody.
  set (rate_high := fltb _ (get features "duration" _)).
  set (rate_low := fltb (get features "duration" _) _).
  set (quiet := fltb (get features "rms_energy" _) _).
  set (loud := fltb _ (get features "rms_energy" _)).
  set (noisy := fltb _ (get features "zcr" _)).
  exists (if rate_high then [hint_faster]
          else if rate_low then [hint_slower] else []),
         (if quiet then [hint_louder]
          else if loud then [hint_quieter] else []),
         (if noisy then [hint_articulate] else []).
  destruct rate_high, rate_low, quiet, loud, noisy; simpl;
    split_and!; auto.
Qed.

(** C3, as the claim states it, fails: with no features the duration
    defaults to 0 as well, which is below 0.6 of the expected duration of
    any non-empty target, so the slow-down hint comes before the
    low-volume hint and the feedback has two entries. *)
Lemma no_features_counterexample :
  analyze_prosody (H:=binary64) ∅ (py "any text")
    = [hint_slower; hint_louder] ∧
  length (analyze_prosody (H:=binary64) ∅ (py "any text")) = 2.
Proof. split; reflexivity. Qed.

(** C3, amended.  With an empty feature map and a non-empty target the
    feedback is the slow-down hint followed by the low-volume hint, in
    binary64, for every target of fewer than [2^63] characters, which is
    every string CPython can hold ([sys.maxsize] is [2^63 - 1]). *)
Theorem no_features_two_hints (target_text : str) :
  target_text ≠ [] →
  (Z.of_nat (length target_text) < 2 ^ 63)%Z →
  analyze_prosody (H:=binary64) ∅ target_text = [hint_slower; hint_louder].
Proof.
  intros Hne Hlen.
  assert (0 < length target_text)%nat as Hpos
    by (destruct target_text; simpl; [done|lia]).
  unfold analyze_prosody, get. rewrite !lookup_empty.
  cbn [of_int fmul fdiv fltb binary64].
  destruct (expected_duration64 (length target_text) Hlen) as [_ Hexp].
  specialize (Hexp Hpos).
  set (expected :=
         (f64_of_int (Z.of_nat (length target_text)) / f64_of_int 12)%float)
    in *.
  pose proof (pow2_pos 63). pose proof pow2_63_small.
  assert (pow2 64 == 2 * pow2 63)%Q as H64 by (by vm_compute).
  assert (bnd (expected * dec 15 10)%float 0 (pow2 64)) as H15.
  { apply (mul_bnd _ _ _ _ _ _ 0 _ Hexp f64_dec_15_10);
      [lra|lra|apply rep_0|apply rep_pow2; lia|lra|lra|apply pow2_le; lia]. }
  assert (bnd (expected * dec 6 10)%float (1 # 32) (pow2 64)) as H6.
  { apply (mul_bnd _ _ _ _ _ _ _ _ Hexp f64_dec_6_10);
      [lra|lra|rep_dyadic 1%Z (-5)%Z|apply rep_pow2; lia|lra|lra
      |apply pow2_le; lia]. }
  rewrite (ltb_false _ _ _ _ _ _ H15 f64_0) by lra.
  rewrite (ltb_true _ _ _ _ _ _ f64_0 H6) by lra.
  reflexivity.
Qed.

Lemma no_features_two_hints_witness :
  analyze_prosody (H:=binary64) ∅ (py "hola") = [hint_slower; hint_louder].
Proof.
  apply (no_features_two_hints (py "hola")); [done|by vm_compute].
Defined.

(** ** Empty transcription *)

(** C5.  With a target of at least one word and an empty transcription, in
    binary64, the word sub-score is the float 0, and so are the
    Jaro-Winkler and Levenshtein terms; the prosody term alone gives a
    score of 12, 13 or 15, above 0 and at most 40, whatever the features.
    The score of ["hello world"] against [""] with no features is 15.  The
    target's normal form has fewer than [2^63] characters, as every
    string of CPython has. *)
Theorem empty_transcription_floor
    (lower : str → str) target (features : gmap string float) :
  lower [] = [] →
  words (strip (lower target)) ≠ [] →
  (Z.of_nat (length (strip (lower target))) < 2 ^ 63)%Z →
  word_score (H:=binary64) (words (strip (lower target)))
    (words (strip (lower []))) = 0%float ∧
  (∃ z, calculate_advanced_score (H:=binary64) lower target [] features
          = Some z ∧ (z = 12 ∨ z = 13 ∨ z = 15)%Z ∧ (0 < z ≤ 40)%Z) ∧
  calculate_advanced_score (H:=binary64) lower_latin1
    (py "hello world") (py "") ∅ = Some 15%Z.
Proof.
  intros Hnil Hw Hlen. split_and!; [| |reflexivity].
  - rewrite Hnil. pose proof (length_words (strip (lower target))).
    apply word_score64_no_transcribed_words; [done|lia].
  - destruct (score64_empty_transcription lower Hnil target features Hw Hlen)
      as (z & Hz & Hcases).
    exists z. split_and!; [done|done|lia|lia].
Qed.

Lemma empty_transcription_floor_witness :
  calculate_advanced_score (H:=binary64) lower_latin1
    (py "hello world") (py "") {[ "duration" := 0x1.4p+2%float ]}
    = Some 12%Z ∧
  word_score (H:=binary64) (words (strip (lower_latin1 (py "hello world"))))
    (words (strip (lower_latin1 []))) = 0%float ∧
  ∃ z, calculate_advanced_score (H:=binary64) lower_latin1
         (py "hello world") [] {[ "duration" := 0x1.4p+2%float ]} = Some z ∧
       (z = 12 ∨ z = 13 ∨ z = 15)%Z ∧ (0 < z ≤ 40)%Z.
Proof.
  split; [by vm_compute|].
  destruct (empty_transcription_floor lower_latin1 (py "hello world")
              {[ "duration" := 0x1.4p+2%float ]}) as (Hword & Hscore & _);
    [reflexivity|vm_compute; discriminate|by vm_compute|].
  split; [exact Hword|exact Hscore].
Defined.

(** ** The accented phrase *)

(** C2, as the claim states it, fails: the accents are not stripped, so
    of the three target words only [hoy] is among the transcribed words;
    the word sub-score is a third of 100 and the score is 64, below 80. *)
Lemma como_estas_counterexample :
  words (strip (lower_latin1 como_estas_target))
    = [[99; 243; 109; 111]; [101; 115; 116; 225; 115]; py "hoy"]%N ∧
  words (strip (lower_latin1 como_estas_transcription))
    = [py "como"; py "estas"; py "hoy"] ∧
  to_int (word_score (H:=binary64)
            (words (strip (lower_latin1 como_estas_target)))
            (words (strip (lower_latin1 como_estas_transcription))))
    = Some 33%Z ∧
  calculate_advanced_score (H:=binary64) lower_latin1
    como_estas_target como_estas_transcription ∅ = Some 64%Z.
Proof. split_and!; reflexivity. Qed.

(** Without a duration the prosody term of this target stays at 100. *)
Lemma como_estas_prosody `{PyFloat F} (features : gmap string F) :
  features !! "duration" = None →
  prosody_score features como_estas_target =
    prosody_score {[ "rms_energy" := of_int 0 ]} como_estas_target ∨
  prosody_score features como_estas_target = of_int 100.
Proof.
  intros Hdur. unfold prosody_score, get. rewrite Hdur.
  rewrite lookup_singleton_ne by done.
  destruct (bool_decide (size features ≠ 0)); [left|right]; reflexivity.
Qed.

(** C2, amended.  For ["¿Cómo estás hoy?"] against ["como estas hoy"] and
    every feature map without a duration, the only transcribed word among
    the target words is [hoy], and the score is 64, in binary64 and in
    exact arithmetic. *)
Theorem como_estas_score :
  elements (list_to_set (words (strip (lower_latin1 como_estas_target)))
            ∩ list_to_set (words (strip (lower_latin1 como_estas_transcription)))
            : gset str) = [py "hoy"] ∧
  (∀ features : gmap string float,
     features !! "duration" = None →
     calculate_advanced_score (H:=binary64) lower_latin1
       como_estas_target como_estas_transcription features = Some 64%Z) ∧
  (∀ features : gmap string Q,
     features !! "duration" = None →
     calculate_advanced_score (H:=rational) lower_latin1
       como_estas_target como_estas_transcription features = Some 64%Z).
Proof.
  split_and!; [reflexivity| |];
    intros features Hdur;
    (rewrite score_weighted; [|by vm_compute..]);
    destruct (como_estas_prosody features Hdur) as [-> | ->];
    by vm_compute.
Qed.

Lemma como_estas_score_witness :
  calculate_advanced_score (H:=binary64) lower_latin1
    como_estas_target como_estas_transcription
    {[ "rms_energy" := 0x1p-4%float; "zcr" := 0x1p-3%float ]} = Some 64%Z.
Proof.
  apply (proj1 (proj2 como_estas_score)). reflexivity.
Defined.

(** ** The claims about feature extraction *)

Section extraction_claims.
Context {F : Type} (lib : audio_library F).

(** The outcome, by what the library calls do. *)
Lemma extract_outcome audio_path :
  outcome (extract_audio_features lib audio_path) = Ok ∅ ∨
  ∃ y sr rms_energy spectral_centroid zcr,
    librosa_load lib audio_path 16000%Z = Ok (y, sr) ∧
    librosa_feature_rms lib y ≫= float_np_mean lib = Ok rms_energy ∧
    librosa_feature_spectral_centroid lib y sr ≫= float_np_mean lib
      = Ok spectral_centroid ∧
    librosa_feature_zero_crossing_rate lib y ≫= float_np_mean lib = Ok zcr ∧
    outcome (extract_audio_features lib audio_path) =
      Ok (<["zcr" := zcr]>
            (<["spectral_centroid" := spectral_centroid]>
               (<["rms_energy" := rms_energy]> ∅))).
Proof.
  unfold extract_audio_features.
  destruct (librosa_load lib audio_path 16000%Z) as [[y sr]|e]; [|by left].
  cbn [mbind result_bind].
  destruct (librosa_feature_rms lib y ≫= float_np_mean lib) as [r|e] eqn:Hr;
    [|by left].
  destruct (librosa_feature_spectral_centroid lib y sr ≫= float_np_mean lib)
    as [c|e] eqn:Hc; [|by left].
  destruct (librosa_feature_zero_crossing_rate lib y ≫= float_np_mean lib)
    as [z|e] eqn:Hz; [|by left].
  right. by exists y, sr, r, c, z.
Qed.
End extraction_claims.

(** C8.  Whatever path is given and whatever the library calls do, the
    extractor returns a feature map and raises nothing; when the decode or
    any of the three computations raises, the map is empty. *)
Theorem extract_never_raises F (lib : audio_library F) audio_path :
  (∃ features, outcome (extract_audio_features lib audio_path) = Ok features) ∧
  (∀ e, librosa_load lib audio_path 16000%Z = Raise e →
        outcome (extract_audio_features lib audio_path) = Ok ∅) ∧
  (∀ y sr e,
     librosa_load lib audio_path 16000%Z = Ok (y, sr) →
     librosa_feature_rms lib y ≫= float_np_mean lib = Raise e ∨
     librosa_feature_spectral_centroid lib y sr ≫= float_np_mean lib
       = Raise e ∨
     librosa_feature_zero_crossing_rate lib y ≫= float_np_mean lib
       = Raise e →
     outcome (extract_audio_features lib audio_path) = Ok ∅).
Proof.
  split_and!.
  - destruct (extract_outcome lib audio_path)
      as [?|(?&?&?&?&?&_&_&_&_&?)]; eauto.
  - intros e He.
    destruct (extract_outcome lib audio_path) as [?|(?&?&?&?&?&?&_)];
      [done|congruence].
  - intros y sr e Hload Hraise.
    destruct (extract_outcome lib audio_path)
      as [?|(y'&sr'&?&?&?&Hload'&?&?&?&_)]; [done|].
    rewrite Hload in Hload'. simplify_eq.
    destruct Hraise as [?|[?|?]]; congruence.
Qed.

(** An unreadable path, and a computation that raises after a good decode. *)
Lemma extract_never_raises_witness :
  extract_audio_features toy_library "missing.wav"
    = Run ["Feature extraction error: No such file or directory: missing.wav"]
          (Ok ∅) ∧
  outcome (extract_audio_features toy_library "missing.wav") = Ok ∅ ∧
  outcome (extract_audio_features toy_library "hola.wav") = Ok ∅.
Proof.
  destruct (extract_never_raises Q toy_library "missing.wav") as (_ & Hload & _).
  destruct (extract_never_raises Q toy_library "hola.wav") as (_ & _ & Hdsp).
  split_and!.
  - reflexivity.
  - by eapply Hload.
  - eapply (Hdsp [3; -2; 1]%Z 16000%Z "mean of empty array"); [reflexivity|].
    right. right. reflexivity.
Defined.

(** C9.  The map the extractor returns is empty or has exactly the keys
    [rms_energy], [spectral_centroid] and [zcr]; it never has [duration]. *)
Theorem extract_keys F (lib : audio_library F) audio_path :
  ∃ features,
    outcome (extract_audio_features lib audio_path) = Ok features ∧
    (features = ∅ ∨
     dom features = {[ "rms_energy"; "spectral_centroid"; "zcr" ]}) ∧
    features !! "duration" = None.
Proof.
  destruct (extract_outcome lib audio_path) as [->|(?&?&r&c&z&_&_&_&_&->)];
    eexists; (split; [reflexivity|]).
  - split; [by left|done].
  - split; [right|done]. rewrite !dom_insert_L, dom_empty_L. set_solver.
Qed.

Lemma extract_keys_witness :
  outcome (extract_audio_features toy_library_zcr "hola.wav")
    = Ok {[ "rms_energy" := (3 # 1)%Q; "spectral_centroid" := (16000 # 1)%Q;
            "zcr" := (1 # 8)%Q ]} ∧
  ∃ features,
    outcome (extract_audio_features toy_library_zcr "hola.wav") = Ok features ∧
    (features = ∅ ∨
     dom features = {[ "rms_energy"; "spectral_centroid"; "zcr" ]}) ∧
    features !! "duration" = None.
Proof.
  split; [vm_compute; reflexivity|].
  apply (extract_keys Q toy_library_zcr "hola.wav").
Defined.

(** * Further properties *)

(** ** What the features can change in the score *)

Section features_in_score.
Local Open Scope Q_scope.

(** Without a duration the actual duration is the expected one, the ratio
    is 1, and the prosody term stays at 100. *)
Lemma prosody_score_no_duration (features : gmap string Q) target :
  features !! "duration" = None →
  prosody_score (H:=rational) features target = of_int 100.
Proof.
  intros Hdur. unfold prosody_score, get. rewrite Hdur.
  destruct (bool_decide _); [|done].
  cbn [of_int fdiv fltb rational].
  set (expected := inject_Z (Z.of_nat (length target)) / inject_Z 12).
  change (dec 15 10) with (15 # 10). change (dec 6 10) with (6 # 10).
  change (dec 13 10) with (13 # 10). change (dec 7 10) with (7 # 10).
  assert (Hratio : ∀ r, r == 1 →
            Qltb (15 # 10) r = false ∧ Qltb r (6 # 10) = false ∧
            Qltb (13 # 10) r = false ∧ Qltb r (7 # 10) = false).
  { intros r Hr. split_and!;
      match goal with
      | |- ?b = false =>
          destruct b eqn:Hb; [apply Qltb_lt in Hb; lra|reflexivity]
      end. }
  destruct (Qltb (inject_Z 0) expected) eqn:Hpos.
  - apply Qltb_lt in Hpos. change (inject_Z 0) with 0 in Hpos.
    destruct (Hratio (expected / expected)) as (-> & -> & -> & ->);
      [field; lra|done].
  - destruct (Hratio (inject_Z 1)) as (-> & -> & -> & ->); done.
Qed.

(** The same in binary64, for the lengths evaluated. *)
Lemma on_pace64_upto : forallb on_pace64 (seq 0 4097) = true.
Proof. vm_compute. reflexivity. Qed.

Lemma prosody_score64_no_duration (features : gmap string float) target :
  (length target ≤ 4096)%nat →
  features !! "duration" = None →
  prosody_score (H:=binary64) features target = of_int 100.
Proof.
  intros Hlen Hdur. unfold prosody_score, get. rewrite Hdur.
  destruct (bool_decide _); [|done].
  pose proof on_pace64_upto as Hall. rewrite forallb_forall in Hall.
  assert (In (length target) (seq 0 4097)) as Hin by (apply in_seq; lia).
  apply Hall in Hin. unfold on_pace64 in Hin.
  apply andb_true_iff in Hin as [H1%negb_true_iff H2%negb_true_iff].
  by rewrite H1, H2.
Qed.
End features_in_score.

(** X1.  The measured features other than a duration never change the
    score: for a feature map without a [duration] the score is the score
    with no features at all, in exact arithmetic for every target, in
    binary64 for every target of at most 4096 characters. *)
Theorem score_without_duration
    (lower : str → str) target transcription :
  (∀ features : gmap string Q,
     features !! "duration" = None →
     calculate_advanced_score (H:=rational) lower target transcription features
     = calculate_advanced_score (H:=rational) lower target transcription ∅) ∧
  (∀ features : gmap string float,
     length target ≤ 4096 →
     features !! "duration" = None →
     calculate_advanced_score (H:=binary64) lower target transcription features
     = calculate_advanced_score (H:=binary64) lower target transcription ∅).
Proof.
  split.
  - intros features Hdur. unfold calculate_advanced_score.
    by rewrite (prosody_score_no_duration features),
               (prosody_score_no_duration ∅).
  - intros features Hlen Hdur. unfold calculate_advanced_score.
    by rewrite (prosody_score64_no_duration features),
               (prosody_score64_no_duration ∅).
Qed.

Lemma score_without_duration_witness :
  calculate_advanced_score (H:=binary64) lower_latin1
    (py "buenos dias") (py "buenas dias")
    {[ "rms_energy" := 0x1p-1%float; "zcr" := 0x1p-2%float ]}
  = calculate_advanced_score (H:=binary64) lower_latin1
      (py "buenos dias") (py "buenas dias") ∅.
Proof.
  apply (proj2 (score_without_duration lower_latin1 (py "buenos dias")
                  (py "buenas dias"))); [vm_compute; lia|reflexivity].
Defined.

(** X2.  In binary64, casing and outer whitespace of the target and of
    the transcription do not change the score when no duration is
    measured: two pairs with the same normal forms score the same (the
    targets have fewer than [2^63] characters, as every string of CPython
    has).  With a duration the raw length of the target counts: a padded
    target scores differently. *)
Theorem score_of_normal_forms :
  (∀ (lower : str → str) t1 t2 tr1 tr2 (features : gmap string float),
     strip (lower t1) = strip (lower t2) →
     strip (lower tr1) = strip (lower tr2) →
     (Z.of_nat (length t1) < 2 ^ 63)%Z →
     (Z.of_nat (length t2) < 2 ^ 63)%Z →
     features !! "duration" = None →
     calculate_advanced_score (H:=binary64) lower t1 tr1 features
     = calculate_advanced_score (H:=binary64) lower t2 tr2 features) ∧
  (calculate_advanced_score (H:=binary64) lower_latin1
     (py "hola mundo") (py "ola mundo") {[ "duration" := 0x1p+0%float ]}
     = Some 77%Z ∧
   calculate_advanced_score (H:=binary64) lower_latin1
     (py "hola mundo        ") (py "ola mundo") {[ "duration" := 0x1p+0%float ]}
     = Some 75%Z).
Proof.
  split; [|split; by vm_compute].
  intros lower t1 t2 tr1 tr2 features Ht Htr H1 H2 Hdur.
  unfold calculate_advanced_score.
  by rewrite Ht, Htr, !(prosody_score64_no_duration_any features).
Qed.

Lemma score_of_normal_forms_witness :
  calculate_advanced_score (H:=binary64) lower_latin1
    (py "  Buenos Dias") (py "buenas dias ") {[ "zcr" := 0x1p-2%float ]}
  = calculate_advanced_score (H:=binary64) lower_latin1
      (py "buenos dias") (py "BUENAS DIAS") {[ "zcr" := 0x1p-2%float ]}.
Proof.
  apply (proj1 score_of_normal_forms); by vm_compute.
Defined.

(** ** Where the score is zero, and where the word term is full *)

(** X3.  In binary64 the score is 0 only through the zero-word rule: it
    is 0 exactly when the normal forms differ and the target has no word,
    and a target with a word never scores below 12, the prosody term alone
    contributing 12.75 (for normal forms of fewer than [2^53]
    characters). *)
Theorem score_zero_iff_no_words
    (lower : str → str) target transcription (features : gmap string float) :
  (Z.of_nat (length (strip (lower target))) < 2 ^ 53)%Z →
  (Z.of_nat (length (strip (lower transcription))) < 2 ^ 53)%Z →
  (calculate_advanced_score (H:=binary64) lower target transcription features
     = Some 0%Z
   ↔ strip (lower target) ≠ strip (lower transcription) ∧
     words (strip (lower target)) = []) ∧
  (words (strip (lower target)) ≠ [] →
   ∃ z, calculate_advanced_score (H:=binary64) lower target transcription
          features = Some z ∧ (12 ≤ z ≤ 100)%Z).
Proof.
  intros HT HR.
  assert (Hfloor : words (strip (lower target)) ≠ [] →
            ∃ z, calculate_advanced_score (H:=binary64) lower target
                   transcription features = Some z ∧ (12 ≤ z ≤ 100)%Z).
  { intros Hw.
    destruct (decide (strip (lower target) = strip (lower transcription)))
      as [Heq|Hne].
    - exists 100%Z. split; [by apply score_exact_match|lia].
    - destruct (score64_weighted lower target transcription features
                  Hne Hw HT HR) as (z & Hz & ? & _).
      exists z. split; [done|lia]. }
  split; [split|done].
  - intros Hzero. split.
    + intros Heq. rewrite score_exact_match in Hzero by done. discriminate.
    + destruct (words (strip (lower target))) as [|w ws] eqn:Hw; [done|].
      destruct Hfloor as (z & Hz & ?); [done|].
      rewrite Hzero in Hz. injection Hz as <-. lia.
  - intros [Hne Hw]. by apply score_no_words.
Qed.

Lemma score_zero_iff_no_words_witness :
  ∃ z, calculate_advanced_score (H:=binary64) lower_latin1
         (py "gracias") (py "xyz") {[ "duration" := 0x1.68p+6%float ]}
         = Some z ∧
       (12 ≤ z ≤ 100)%Z.
Proof.
  apply (proj2 (score_zero_iff_no_words lower_latin1 (py "gracias") (py "xyz")
                  {[ "duration" := 0x1.68p+6%float ]}
                  ltac:(by vm_compute) ltac:(by vm_compute))).
  vm_compute. discriminate.
Defined.

Section word_term.

Lemma size_list_to_set_NoDup (l : list str) :
  size (list_to_set l : gset str) = length l → NoDup l.
Proof.
  induction l as [|x l IH]; [constructor|].
  rewrite list_to_set_cons, size_union_alt, size_singleton. simpl.
  intros Hsize.
  pose proof (size_list_to_set_le l) as Hle.
  assert (size (list_to_set l ∖ {[x]} : gset str)
          ≤ size (list_to_set l : gset str))%nat as Hdiff
    by (apply subseteq_size; intros y [? _]%elem_of_difference; done).
  constructor; [|apply IH; lia].
  intros Hx.
  assert ({[x]} ⊆ (list_to_set l : gset str)) as Hsub
    by (intros y ->%elem_of_singleton; by apply elem_of_list_to_set).
  apply (size_difference (C:=gset str)) in Hsub.
  rewrite size_singleton in Hsub.
  assert (size (list_to_set l : gset str) ≠ 0)%nat.
  { apply size_non_empty_iff. intros Hempty.
    apply (elem_of_list_to_set (C:=gset str)) in Hx.
    rewrite Hempty in Hx. by apply not_elem_of_empty in Hx. }
  lia.
Qed.

(** The count behind the word term. *)
Lemma matching_words_full (target_words transcribed_words : list str) :
  size (list_to_set target_words ∩ list_to_set transcribed_words : gset str)
    = length target_words
  ↔ NoDup target_words ∧ ∀ w, w ∈ target_words → w ∈ transcribed_words.
Proof.
  pose proof (size_list_to_set_le target_words) as Hle.
  assert (size (list_to_set target_words ∩ list_to_set transcribed_words
                : gset str)
          ≤ size (list_to_set target_words : gset str))%nat as Hinter
    by apply subseteq_size, intersection_subseteq_l.
  split.
  - intros Hsize. split; [apply size_list_to_set_NoDup; lia|].
    intros w Hw.
    assert (list_to_set target_words ∩ list_to_set transcribed_words
            = (list_to_set target_words : gset str)) as Heq.
    { apply set_eq. apply set_subseteq_size_equiv;
        [apply intersection_subseteq_l|lia]. }
    apply (elem_of_list_to_set (C:=gset str)) in Hw.
    rewrite <- Heq in Hw. apply elem_of_intersection in Hw as [_ Hw].
    by apply elem_of_list_to_set in Hw.
  - intros [Hnodup Hall].
    replace (list_to_set target_words ∩ list_to_set transcribed_words)
      with (list_to_set target_words : gset str).
    + by apply size_list_to_set.
    + apply set_eq. intros w. rewrite elem_of_intersection.
      rewrite !elem_of_list_to_set. split; [auto|by intros [? _]].
Qed.
End word_term.

Section word_term_binary64.
Local Open Scope Q_scope.

(** X4.  In binary64 the word term of a target of at least one and fewer
    than [2^40] words is the float 100 exactly when every target word is
    among the transcribed words and no target word occurs twice: the
    matching words are counted as a set, the target words as a list, so a
    repeated word keeps the term below 100 even when every word is
    said. *)
Theorem word_score_full_iff (target_words transcribed_words : list str) :
  target_words ≠ [] →
  (Z.of_nat (length target_words) < 2 ^ 40)%Z →
  word_score (H:=binary64) target_words transcribed_words = of_int 100
  ↔ NoDup target_words ∧ ∀ w, w ∈ target_words → w ∈ transcribed_words.
Proof.
  intros Hne Hlen. rewrite <- matching_words_full.
  unfold word_score. cbn [of_int fmul fdiv binary64].
  set (n := size _). set (L := length target_words) in *.
  assert (n ≤ L)%nat as Hn.
  { etrans; [|apply (size_list_to_set_le target_words)].
    apply subseteq_size, intersection_subseteq_l. }
  assert (0 < L)%nat as Hpos
    by (unfold L; destruct target_words; simpl; [done|lia]).
  destruct (of_nat_bnd L) as (HL & HL1 & HL2); [lia|].
  pose proof (inject_nat_val_pos _ Hpos) as HLpos.
  split.
  - intros Heq. destruct (decide (n = L)) as [|Hlt]; [done|].
    exfalso.
    destruct (of_nat_bnd n) as (Hnn & Hn1 & Hn2); [lia|].
    assert (inject_Z (Z.of_nat n) + 1 <= inject_Z (Z.of_nat L)) as Hsucc.
    { change 1 with (inject_Z 1). rewrite <- inject_Z_plus, <- Zle_Qle. lia. }
    assert (inject_Z (Z.of_nat L) <= pow2 40) as HM3.
    { rewrite pow2_Z by lia. rewrite <- Zle_Qle. lia. }
    assert (pow2 (-40) * pow2 40 == 1) as Hinv by (by vm_compute).
    pose proof (pow2_pos (-40)) as Hp. pose proof pow2_900_big.
    assert (val (f64_of_int (Z.of_nat n)) / val (f64_of_int (Z.of_nat L))
            <= 1 - pow2 (-40)) as Hq.
    { apply Qle_shift_div_r; [lra|]. nra. }
    destruct (div_faithful _ _ Hnn HL ltac:(lra)) as (Hqn & _ & Hqle); [lra|].
    assert (bnd (f64_of_int (Z.of_nat n) / f64_of_int (Z.of_nat L))%float
              0 (1 - pow2 (-40))) as Hqb.
    { apply nn_bnd; [done|]. apply Hqle; [|done].
      rep_dyadic (2 ^ 40 - 1)%Z (-40)%Z. }
    assert (bnd (f64_of_int (Z.of_nat n) / f64_of_int (Z.of_nat L)
                 * f64_of_int 100)%float 0 (100 - 100 * pow2 (-40)))
      as (_ & _ & Hw).
    { apply (mul_bnd _ _ 0 (1 - pow2 (-40)) 100 100 0 _ Hqb f64_100);
        [lra|lra|apply rep_0| |lra|lra|].
      - rep_dyadic ((2 ^ 40 - 1) * 100)%Z (-40)%Z.
      - apply small. lra. }
    destruct f64_100 as (_ & H100 & _).
    rewrite Heq in Hw. lra.
  - intros Heq. rewrite Heq.
    pose proof (div_self _ HL ltac:(lra)) as Hq.
    assert (bnd (f64_of_int (Z.of_nat L) / f64_of_int (Z.of_nat L)
                 * f64_of_int 100)%float 100 100) as (Hw & Hw1 & Hw2).
    { apply (mul_bnd _ _ 1 1 100 100 100 100 Hq f64_100);
        auto using rep_100; try lra. apply small. lra. }
    destruct f64_100 as (H100 & H100a & H100b).
    apply val_inj; [done|done|lra|lra].
Qed.
End word_term_binary64.

(** "la la la" against "la la la": every word is said, the term is a third
    of 100. *)
Lemma word_score_full_iff_witness :
  word_score (H:=binary64) (words (py "la la la")) (words (py "la la la"))
    = 0x1.0aaaaaaaaaaaap+5%float ∧
  (word_score (H:=binary64) (words (py "hola mundo")) (words (py "mundo hola"))
   = of_int 100
   ↔ NoDup (words (py "hola mundo")) ∧
     ∀ w, w ∈ words (py "hola mundo") → w ∈ words (py "mundo hola")).
Proof.
  split; [by vm_compute|].
  apply (word_score_full_iff (words (py "hola mundo"))
           (words (py "mundo hola"))); [vm_compute; discriminate|by vm_compute].
Defined.

(** ** The combined analysis *)

Section combined.
Context `{PyFloat F}.
Variable lower : str → str.

(** The analysis, by what the extractor returns and what the scorer
    returns on it. *)
Lemma get_detailed_analysis_returns (lib : audio_library F)
    target transcription audio_path audio_features z :
  outcome (extract_audio_features lib audio_path) = Ok audio_features →
  calculate_advanced_score lower target transcription audio_features = Some z →
  get_detailed_analysis lower lib target transcription audio_path =
    Run (stdout (extract_audio_features lib audio_path))
        (Ok (Analysis z audio_features
               (analyze_prosody audio_features target))).
Proof.
  intros Hfeat Hscore. unfold get_detailed_analysis.
  unfold mbind, run_bind. rewrite Hfeat, Hscore. simpl.
  by rewrite !app_nil_r.
Qed.

(** What the extractor returns never has a duration. *)
Lemma extract_no_duration (lib : audio_library F) audio_path :
  ∃ audio_features,
    outcome (extract_audio_features lib audio_path) = Ok audio_features ∧
    audio_features !! "duration" = None.
Proof.
  destruct (extract_outcome lib audio_path) as [->|(?&?&r&c&z&_&_&_&_&->)];
    eexists; (split; [reflexivity|done]).
Qed.
End combined.

(** The score of the analysis, in binary64: it is returned, in range, and
    the one the texts get with no features. *)
Lemma analysis_score64 (lower : str → str) target transcription
    (features : gmap string float) :
  (Z.of_nat (length target) < 2 ^ 63)%Z →
  (Z.of_nat (length (strip (lower target))) < 2 ^ 53)%Z →
  (Z.of_nat (length (strip (lower transcription))) < 2 ^ 53)%Z →
  features !! "duration" = None →
  ∃ z, calculate_advanced_score (H:=binary64) lower target transcription
         features = Some z ∧
       calculate_advanced_score (H:=binary64) lower target transcription ∅
         = Some z ∧ (0 ≤ z ≤ 100)%Z.
Proof.
  intros Hlen HT HR Hdur.
  destruct (score64_total lower target transcription features HT HR)
    as (z & Hz & Hrange).
  exists z. split_and!; [done| |lia|lia].
  rewrite <- Hz. unfold calculate_advanced_score.
  by rewrite (prosody_score64_no_duration_any features),
             (prosody_score64_no_duration_any ∅).
Qed.

(** X5.  In binary64 [get_detailed_analysis] returns for every audio
    library, path, target and transcription (the target of fewer than
    [2^63] characters, the two normal forms of fewer than [2^53]): nothing
    is raised, the score is between 0 and 100, it is the score the texts
    get with no features at all (what is measured from the audio never
    reaches it), the features are the ones extracted, and there are at
    most three prosody hints. *)
Theorem get_detailed_analysis_total
    (lower : str → str) (lib : audio_library float)
    target transcription audio_path :
  (Z.of_nat (length target) < 2 ^ 63)%Z →
  (Z.of_nat (length (strip (lower target))) < 2 ^ 53)%Z →
  (Z.of_nat (length (strip (lower transcription))) < 2 ^ 53)%Z →
  ∃ a,
    outcome (get_detailed_analysis (H:=binary64) lower lib target
               transcription audio_path) = Ok a ∧
    (0 ≤ score a ≤ 100)%Z ∧
    calculate_advanced_score (H:=binary64) lower target transcription ∅
      = Some (score a) ∧
    outcome (extract_audio_features lib audio_path) = Ok (audio_features a) ∧
    prosody_feedback a = analyze_prosody (audio_features a) target ∧
    length (prosody_feedback a) ≤ 3.
Proof.
  intros Hlen HT HR.
  destruct (extract_no_duration lib audio_path) as (m & Hm & Hdur).
  destruct (analysis_score64 lower target transcription m Hlen HT HR Hdur)
    as (z & Hz & Hz0 & Hrange).
  rewrite (get_detailed_analysis_returns lower lib target transcription
             audio_path m z Hm Hz).
  eexists. split; [reflexivity|].
  cbn [score audio_features prosody_feedback]. split_and!; try done; try lia.
  unfold analyze_prosody.
  repeat match goal with
         | |- context [if ?b then _ else _] => destruct b
         end; simpl; lia.
Qed.

Lemma get_detailed_analysis_total_witness :
  ∃ a,
    outcome (get_detailed_analysis (H:=binary64) lower_latin1 toy_library64
               (py "buenos dias") (py "buenas dias") "hola.wav") = Ok a ∧
    (0 ≤ score a ≤ 100)%Z ∧
    calculate_advanced_score (H:=binary64) lower_latin1 (py "buenos dias")
      (py "buenas dias") ∅ = Some (score a) ∧
    outcome (extract_audio_features toy_library64 "hola.wav")
      = Ok (audio_features a) ∧
    prosody_feedback a = analyze_prosody (audio_features a) (py "buenos dias") ∧
    length (prosody_feedback a) ≤ 3.
Proof.
  apply (get_detailed_analysis_total lower_latin1 toy_library64
           (py "buenos dias") (py "buenas dias") "hola.wav"); by vm_compute.
Defined.

(** X6.  In binary64, for a non-empty target the prosody feedback of
    [get_detailed_analysis] always starts with the slow-down hint, and the
    speak-faster hint is never given: the extractor measures no duration,
    and the missing duration counts as 0 (lengths as in X5). *)
Theorem get_detailed_analysis_rate_hint
    (lower : str → str) (lib : audio_library float)
    target transcription audio_path :
  target ≠ [] →
  (Z.of_nat (length target) < 2 ^ 63)%Z →
  (Z.of_nat (length (strip (lower target))) < 2 ^ 53)%Z →
  (Z.of_nat (length (strip (lower transcription))) < 2 ^ 53)%Z →
  ∃ a rest,
    outcome (get_detailed_analysis (H:=binary64) lower lib target
               transcription audio_path) = Ok a ∧
    prosody_feedback a = hint_slower :: rest ∧
    (hint_faster ∉ rest) ∧ (hint_slower ∉ rest).
Proof.
  intros Hne Hlen HT HR.
  destruct (extract_no_duration lib audio_path) as (m & Hm & Hdur).
  destruct (score64_total lower target transcription m HT HR)
    as (z & Hz & _).
  destruct (analyze_prosody64_no_duration m target Hne Hlen Hdur)
    as (rest & Hrest & ?).
  rewrite (get_detailed_analysis_returns lower lib target transcription
             audio_path m z Hm Hz).
  eexists _, rest. split; [reflexivity|]. by simpl.
Qed.

Lemma get_detailed_analysis_rate_hint_witness :
  (∃ a,
     get_detailed_analysis (H:=binary64) lower_latin1 toy_library64
       (py "buenos dias") (py "buenas dias") "hola.wav" = Run [] (Ok a) ∧
     score a = 77%Z ∧
     prosody_feedback a = [hint_slower; hint_quieter]) ∧
  ∃ a rest,
    outcome (get_detailed_analysis (H:=binary64) lower_latin1 toy_library64
               (py "buenos dias") (py "buenas dias") "hola.wav") = Ok a ∧
    prosody_feedback a = hint_slower :: rest ∧
    (hint_faster ∉ rest) ∧ (hint_slower ∉ rest).
Proof.
  split; [vm_compute; eexists; split_and!; reflexivity|].
  apply (get_detailed_analysis_rate_hint lower_latin1 toy_library64
           (py "buenos dias") (py "buenas dias") "hola.wav");
    [vm_compute; discriminate|by vm_compute..].
Defined.

(** ** Separators and fences *)

Example split_on_known_values :
  split_on (py "```") (py "a```b```c") = [py "a"; py "b"; py "c"] ∧
  split_on (py "```") (py "a```") = [py "a"; []] ∧
  split_on (py "```") (py "````") = [[]; py "`"] ∧
  split_on (py "```") [] = [[]] ∧
  split_on (py "ab") (py "xabab") = [py "x"; []; []] ∧
  contains (py "```json") (py "x ```json {} ```") = true ∧
  strip_chars (py "'") (py "''it's''") = py "it's".
Proof. split_and!; reflexivity. Qed.

Section separators.
Implicit Types (sep s a b rest : str).

Lemma strip_prefix_Some sep : ∀ s rest,
  strip_prefix sep s = Some rest ↔ s = sep ++ rest.
Proof.
  induction sep as [|x sep IH]; intros s rest; simpl.
  - split; [by intros [= ->]|by intros ->].
  - destruct s as [|c s]; [done|].
    destruct (N.eqb_spec x c) as [->|Hne].
    + rewrite IH. split; [by intros ->|by intros [= ->]].
    + split; [done|intros [= -> ->]; done].
Qed.

Lemma cut_Some sep : ∀ s a b, cut sep s = Some (a, b) → s = a ++ sep ++ b.
Proof.
  induction s as [|c s IH]; intros a b; simpl.
  - destruct (strip_prefix sep []) as [rest|] eqn:Hp; [|done].
    intros [= <- <-]. by apply strip_prefix_Some in Hp.
  - destruct (strip_prefix sep (c :: s)) as [rest|] eqn:Hp.
    + intros [= <- <-]. by apply strip_prefix_Some in Hp.
    + destruct (cut sep s) as [[a' b']|] eqn:Hc; [|done].
      intros [= <- <-]. simpl. f_equal. by apply IH.
Qed.

(** The piece before the first occurrence holds no occurrence. *)
Lemma cut_first sep : ∀ s a b,
  sep ≠ [] → cut sep s = Some (a, b) → cut sep a = None.
Proof.
  intros s a b Hsep. revert a b.
  induction s as [|c s IH]; intros a b; simpl.
  - destruct (strip_prefix sep []) as [rest|] eqn:Hp; [|done].
    intros [= <- <-]. simpl. by destruct sep.
  - destruct (strip_prefix sep (c :: s)) as [rest|] eqn:Hp.
    + intros [= <- <-]. simpl. by destruct sep.
    + destruct (cut sep s) as [[a' b']|] eqn:Hc; [|done].
      intros [= <- <-]. simpl.
      rewrite (IH a' b') by done.
      destruct (strip_prefix sep (c :: a')) as [rest|] eqn:Hp'; [|done].
      apply strip_prefix_Some in Hp'.
      apply cut_Some in Hc. rewrite Hc in Hp.
      assert (strip_prefix sep (c :: a' ++ sep ++ b')
              = Some (rest ++ sep ++ b')) as Hp''
        by (apply strip_prefix_Some;
            rewrite app_comm_cons, Hp', <- app_assoc; done).
      congruence.
Qed.

Lemma cut_None_app sep : ∀ s a b, cut sep s = None → s ≠ a ++ sep ++ b.
Proof.
  induction s as [|c s IH]; intros a b; simpl.
  - destruct (strip_prefix sep []) as [rest|] eqn:Hp; [done|].
    intros _ Heq. destruct a; [|done]. simpl in Heq.
    assert (strip_prefix sep [] = Some b) by (by apply strip_prefix_Some).
    congruence.
  - destruct (strip_prefix sep (c :: s)) as [rest|] eqn:Hp; [done|].
    destruct (cut sep s) as [[a' b']|] eqn:Hc; [done|]. intros _ Heq.
    destruct a as [|x a]; simpl in Heq.
    + assert (strip_prefix sep (c :: s) = Some b)
        by (by apply strip_prefix_Some).
      congruence.
    + injection Heq as -> Heq. by apply (IH a b).
Qed.

(** A string without occurrence has none in any part of it. *)
Lemma cut_None_infix sep s p q :
  cut sep (p ++ s ++ q) = None → cut sep s = None.
Proof.
  intros Hnone. destruct (cut sep s) as [[a b]|] eqn:Hc; [|done].
  apply cut_Some in Hc. subst s.
  exfalso. apply (cut_None_app sep _ (p ++ a) (b ++ q) Hnone).
  by rewrite <- !app_assoc.
Qed.

(** Characters that do not start the separator are passed over. *)
Lemma cut_skip x sep' body : ∀ s,
  x ∉ body →
  cut (x :: sep') (body ++ s)
  = (λ '(a, b), (body ++ a, b)) <$> cut (x :: sep') s.
Proof.
  induction body as [|c body IH]; intros s Hx.
  - simpl app. by destruct (cut _ s) as [[]|].
  - apply not_elem_of_cons in Hx as [Hc Hx].
    change ((c :: body) ++ s) with (c :: (body ++ s)).
    cbn [cut strip_prefix].
    destruct (N.eqb_spec x c) as [->|_]; [done|].
    rewrite IH by done. by destruct (cut _ s) as [[]|].
Qed.

Lemma cut_absent x sep' s : x ∉ s → cut (x :: sep') s = None.
Proof.
  intros Hx. rewrite <- (app_nil_r s), cut_skip by done. reflexivity.
Qed.

(** [split_on], by the first occurrence of the separator. *)
Lemma split_on_from_skip sep p : ∀ cur s,
  split_on_from sep (length p) cur (p ++ s) = split_on_from sep 0 cur s.
Proof.
  induction p as [|c p IH]; intros cur s; simpl.
  - by destruct s.
  - apply IH.
Qed.

Lemma split_on_from_cut sep : ∀ s cur,
  sep ≠ [] →
  split_on_from sep 0 cur s =
    match cut sep s with
    | None => [rev cur ++ s]
    | Some (a, b) => (rev cur ++ a) :: split_on_from sep 0 [] b
    end.
Proof.
  intros s cur Hsep. revert cur.
  induction s as [|c s IH]; intros cur.
  - simpl. destruct (strip_prefix sep []) as [rest|] eqn:Hp.
    + apply strip_prefix_Some in Hp. by destruct sep.
    + by rewrite app_nil_r.
  - cbn [split_on_from cut].
    destruct (strip_prefix sep (c :: s)) as [rest|] eqn:Hp.
    + apply strip_prefix_Some in Hp.
      destruct sep as [|x sep]; [done|]. injection Hp as -> ->.
      rewrite app_nil_r. f_equal.
      replace (length (x :: sep) - 1) with (length sep) by (simpl; lia).
      apply split_on_from_skip.
    + rewrite IH. simpl rev.
      destruct (cut sep s) as [[a b]|]; by rewrite <- app_assoc.
Qed.

Lemma split_on_cut sep s :
  sep ≠ [] →
  split_on sep s =
    match cut sep s with
    | None => [s]
    | Some (a, b) => a :: split_on sep b
    end.
Proof.
  intros Hsep. unfold split_on. rewrite split_on_from_cut by done.
  by destruct (cut sep s) as [[]|].
Qed.

Lemma index_split_on_0 sep s :
  sep ≠ [] → index (split_on sep s) 0 = Ok (before sep s).
Proof.
  intros Hsep. rewrite split_on_cut by done. unfold before.
  by destruct (cut sep s) as [[]|].
Qed.

Lemma index_split_on_1 sep s a b :
  sep ≠ [] → cut sep s = Some (a, b) →
  index (split_on sep s) 1 = Ok (before sep b).
Proof.
  intros Hsep Hc. rewrite split_on_cut, Hc by done.
  apply (index_split_on_0 sep b Hsep).
Qed.

Lemma before_no_sep sep s : sep ≠ [] → cut sep (before sep s) = None.
Proof.
  intros Hsep. unfold before.
  destruct (cut sep s) as [[a b]|] eqn:Hc; [|done].
  by apply (cut_first sep s a b).
Qed.

(** Stripping keeps a part of the string. *)
Lemma lstrip_suffix s : ∃ p, s = p ++ lstrip s.
Proof.
  induction s as [|c s [p Hp]]; [by exists []|]. simpl.
  destruct (isspace c); [|by exists []].
  exists (c :: p). simpl. by f_equal.
Qed.

Lemma strip_infix s : ∃ p q, s = p ++ strip s ++ q.
Proof.
  unfold strip, rstrip.
  destruct (lstrip_suffix s) as [p Hp].
  destruct (lstrip_suffix (rev (lstrip s))) as [q Hq].
  exists p, (rev q). rewrite <- rev_app_distr, <- Hq, rev_involutive. done.
Qed.
End separators.

Section fences.
Implicit Types (sep s a b rest pre body post : str).

Lemma cut_unfold sep s :
  cut sep s =
    match strip_prefix sep s with
    | Some rest => Some ([], rest)
    | None =>
        match s with
        | [] => None
        | c :: s' =>
            match cut sep s' with
            | Some (a, b) => Some (c :: a, b)
            | None => None
            end
        end
    end.
Proof. by destruct s. Qed.

Lemma cut_here sep rest : cut sep (sep ++ rest) = Some ([], rest).
Proof.
  assert (strip_prefix sep (sep ++ rest) = Some rest) as Hp
    by (by apply strip_prefix_Some).
  destruct (sep ++ rest); simpl; by rewrite Hp.
Qed.

Lemma before_skip x sep' body s :
  x ∉ body → before (x :: sep') (body ++ s) = body ++ before (x :: sep') s.
Proof.
  intros Hx. unfold before. rewrite cut_skip by done.
  by destruct (cut (x :: sep') s) as [[]|].
Qed.

Lemma before_here sep rest : before sep (sep ++ rest) = [].
Proof. unfold before. by rewrite cut_here. Qed.

Lemma before_nil sep : before sep [] = [].
Proof. unfold before. simpl. by destruct (strip_prefix sep []). Qed.

(** After a closing fence and a tail without backtick, the opening fence
    is found at once or not at all. *)
Lemma before_json_fence post :
  96%N ∉ post →
  before (py "```json") (py "```" ++ post) = [] ∨
  before (py "```json") (py "```" ++ post) = py "```" ++ post.
Proof.
  intros Hpost. unfold before.
  destruct (cut (py "```json") (py "```" ++ post)) as [[a b]|] eqn:Hc;
    [left|by right].
  change (py "```json") with [96; 96; 96; 106; 115; 111; 110]%N in Hc.
  change (py "```" ++ post) with (96 :: 96 :: 96 :: post)%N in Hc.
  assert (Hrun : ∀ s rest,
            strip_prefix [96; 96; 96; 106; 115; 111; 110]%N s = Some rest →
            s = (96 :: post)%N ∨ s = (96 :: 96 :: post)%N → False).
  { intros s rest Hp%strip_prefix_Some [-> | ->];
      injection Hp as ->; apply Hpost; left. }
  rewrite cut_unfold in Hc.
  destruct (strip_prefix _ (96 :: 96 :: 96 :: post)%N) as [rest|];
    [by injection Hc as <- _|].
  exfalso. rewrite cut_unfold in Hc.
  destruct (strip_prefix _ (96 :: 96 :: post)%N) as [rest|] eqn:Hp2;
    [by eapply Hrun; eauto|].
  rewrite cut_unfold in Hc.
  destruct (strip_prefix _ (96 :: post)%N) as [rest|] eqn:Hp1;
    [by eapply Hrun; eauto|].
  by rewrite (cut_absent 96%N _ post Hpost) in Hc.
Qed.
End fences.

(** X7.  The text handed to the JSON parser is always defined (the two
    indexings never leave their lists); a reply without three backticks in
    a row is handed over as it is, not even stripped; from a reply with
    them, what is handed over holds no three backticks in a row. *)
Theorem fenced_text (content : str) :
  (∃ text, main.fenced content = Ok text ∧
           (contains (py "```") content = true →
            contains (py "```") text = false)) ∧
  (contains (py "```") content = false → main.fenced content = Ok content).
Proof.
  assert (py "```json" ≠ []) as Hjson by (vm_compute; discriminate).
  assert (py "```" ≠ []) as Hfence by (vm_compute; discriminate).
  assert (Hclean : ∀ s, contains (py "```") (strip (before (py "```") s))
                        = false).
  { intros s. unfold contains.
    destruct (strip_infix (before (py "```") s)) as (p & q & Hpq).
    pose proof (before_no_sep (py "```") s Hfence) as Hnone.
    rewrite Hpq in Hnone. apply cut_None_infix in Hnone. by rewrite Hnone. }
  unfold main.fenced, contains.
  destruct (cut (py "```json") content) as [[a b]|] eqn:Hcj.
  - rewrite (index_split_on_1 _ _ a b Hjson Hcj). cbn [mbind result_bind].
    rewrite (index_split_on_0 _ _ Hfence). cbn [mbind result_bind].
    split; [eexists; split; [reflexivity|intros _; apply Hclean]|].
    apply cut_Some in Hcj.
    destruct (cut (py "```") content) eqn:Hc; [done|].
    exfalso. apply (cut_None_app _ _ a (py "json" ++ b) Hc). by rewrite Hcj.
  - destruct (cut (py "```") content) as [[a b]|] eqn:Hc.
    + rewrite (index_split_on_1 _ _ a b Hfence Hc). cbn [mbind result_bind].
      rewrite (index_split_on_0 _ _ Hfence). cbn [mbind result_bind].
      split; [eexists; split; [reflexivity|intros _; apply Hclean]|done].
    + split; [eexists; split; [reflexivity|done]|done].
Qed.

(** X8.  A reply that wraps its JSON in a fence marked [json] gives the
    parser the inside of the fence, stripped: for a reply [pre ```json
    body ``` post] whose three parts hold no backtick, the text handed
    over is [body] without its outer whitespace. *)
Theorem fenced_json_block (pre body post : str) :
  96%N ∉ pre → 96%N ∉ body → 96%N ∉ post →
  main.fenced (pre ++ py "```json" ++ body ++ py "```" ++ post)
  = Ok (strip body).
Proof.
  intros Hpre Hbody Hpost.
  assert (py "```json" ≠ []) as Hjson by (vm_compute; discriminate).
  assert (py "```" ≠ []) as Hfence by (vm_compute; discriminate).
  assert (cut (py "```json") (pre ++ py "```json" ++ body ++ py "```" ++ post)
          = Some (pre, body ++ py "```" ++ post)) as Hcut.
  { change (py "```json") with (96 :: [96; 96; 106; 115; 111; 110])%N.
    rewrite cut_skip by done.
    change (96 :: [96; 96; 106; 115; 111; 110])%N with (py "```json").
    rewrite cut_here. simpl. by rewrite app_nil_r. }
  unfold main.fenced, contains. rewrite Hcut.
  rewrite (index_split_on_1 _ _ _ _ Hjson Hcut). cbn [mbind result_bind].
  rewrite (index_split_on_0 _ _ Hfence). cbn [mbind result_bind].
  do 2 f_equal.
  change (py "```json") with (96 :: [96; 96; 106; 115; 111; 110])%N.
  rewrite before_skip by done.
  change (96 :: [96; 96; 106; 115; 111; 110])%N with (py "```json").
  change (py "```") with (96 :: [96; 96])%N at 1.
  rewrite before_skip by done.
  change (96 :: [96; 96])%N with (py "```").
  destruct (before_json_fence post Hpost) as [-> | ->].
  - by rewrite before_nil, app_nil_r.
  - by rewrite before_here, app_nil_r.
Qed.

Lemma fenced_json_block_witness :
  main.fenced
    (py "Here is the feedback: " ++ py "```json" ++ py " {} " ++ py "```"
     ++ py " Good luck!")
  = Ok (py "{}").
Proof.
  apply (fenced_json_block (py "Here is the feedback: ") (py " {} ")
           (py " Good luck!")); apply (bool_decide_unpack _); by vm_compute.
Defined.

(** ** Feedback generation *)

Section feedback.
Variable client : openai.
Variable json_loads : str → result json.

(** [generate_feedback], by the outcome of the one request it makes and of
    the parser on the text inside the fence. *)
Lemma generate_feedback_unfold target transcription score language :
  main.generate_feedback client json_loads target transcription score language
  = match
      chat_completions_create client "gpt-4"
        [("system",
          if decide (language = "es")
          then py "You are an expert pronunciation coach for Spanish language learners."
          else py "You are an expert pronunciation coach for English language learners.");
         ("user",
          main.feedback_prompt
            (if decide (language = "es") then py "Spanish" else py "English")
            target transcription)]
        (7 # 10)%Q None
    with
    | Raise e =>
        Run ["Feedback generation error: " +:+ e] (Ok main.fallback_feedback)
    | Ok content =>
        match main.fenced content with
        | Raise e =>
            Run ["Feedback generation error: " +:+ e]
                (Ok main.fallback_feedback)
        | Ok text =>
            match json_loads text with
            | Ok v => Run [] (Ok v)
            | Raise e =>
                Run ["Feedback generation error: " +:+ e]
                    (Ok main.fallback_feedback)
            end
        end
    end.
Proof.
  unfold main.generate_feedback.
  destruct (decide (language = "es")) as [Hes|Hes]; cbv zeta;
    (destruct (chat_completions_create client _ _ _ _) as [content|e];
     [|done]);
    cbn [mbind result_bind];
    (destruct (main.fenced content) as [text|e2]; [|done]);
    cbn [mbind result_bind]; by destruct (json_loads text).
Qed.

(** The ways out of [generate_feedback]. *)
Lemma generate_feedback_cases target transcription score language :
  let r := main.generate_feedback client json_loads target transcription
             score language in
  (∃ e, r = Run ["Feedback generation error: " +:+ e]
                (Ok main.fallback_feedback)) ∨
  (∃ text v, json_loads text = Ok v ∧ r = Run [] (Ok v)).
Proof.
  cbv zeta. rewrite generate_feedback_unfold.
  destruct (chat_completions_create client _ _ _ _) as [content|e];
    [|left; by exists e].
  destruct (main.fenced content) as [text|e2]; [|left; by exists e2].
  destruct (json_loads text) as [v|e3] eqn:Hj;
    [right; by exists text, v|left; by exists e3].
Qed.
End feedback.

(** X9.  [generate_feedback] never raises: whatever the chat call and the
    JSON parser do, it returns a value.  It makes one request: to [gpt-4],
    with the coach description of the language as the system message, the
    prompt as the user message, temperature 0.7 and no token limit.  When
    that request raises, or the parser rejects the text inside the fence of
    the reply, it prints one line and returns the fallback dictionary; when
    the parser accepts that text it returns what the parser made of it,
    whatever that is.  The score it is given changes nothing. *)
Theorem generate_feedback_never_raises
    (client : openai) (json_loads : str → result json)
    target transcription (score : Z) (language : string) :
  (∃ v, outcome (main.generate_feedback client json_loads target transcription
                   score language) = Ok v) ∧
  (∀ coach language_name,
     (coach, language_name)
     = (if decide (language = "es")
        then (py "You are an expert pronunciation coach for Spanish language learners.",
              py "Spanish")
        else (py "You are an expert pronunciation coach for English language learners.",
              py "English")) →
     (∀ e,
        chat_completions_create client "gpt-4"
          [("system", coach);
           ("user",
            main.feedback_prompt language_name target transcription)]
          (7 # 10)%Q None = Raise e →
        main.generate_feedback client json_loads target transcription score
          language
        = Run ["Feedback generation error: " +:+ e]
              (Ok main.fallback_feedback)) ∧
     (∀ content text e,
        chat_completions_create client "gpt-4"
          [("system", coach);
           ("user",
            main.feedback_prompt language_name target transcription)]
          (7 # 10)%Q None = Ok content →
        main.fenced content = Ok text →
        json_loads text = Raise e →
        main.generate_feedback client json_loads target transcription score
          language
        = Run ["Feedback generation error: " +:+ e]
              (Ok main.fallback_feedback)) ∧
     (∀ content text v,
        chat_completions_create client "gpt-4"
          [("system", coach);
           ("user",
            main.feedback_prompt language_name target transcription)]
          (7 # 10)%Q None = Ok content →
        main.fenced content = Ok text →
        json_loads text = Ok v →
        main.generate_feedback client json_loads target transcription score
          language
        = Run [] (Ok v))) ∧
  (∀ score',
     main.generate_feedback client json_loads target transcription score'
       language
     = main.generate_feedback client json_loads target transcription score
         language).
Proof.
  split_and!.
  - destruct (generate_feedback_cases client json_loads target transcription
                score language) as [(e & ->)|(t & v & _ & ->)]; eauto.
  - intros coach language_name Hrequest.
    rewrite generate_feedback_unfold.
    assert (coach
            = (if decide (language = "es")
               then py "You are an expert pronunciation coach for Spanish language learners."
               else py "You are an expert pronunciation coach for English language learners.")
            ∧ language_name
              = (if decide (language = "es") then py "Spanish"
                 else py "English")) as [<- <-]
      by (destruct (decide (language = "es")); by injection Hrequest).
    split_and!.
    + by intros e ->.
    + by intros content text e -> -> ->.
    + by intros content text v -> -> ->.
  - reflexivity.
Qed.

(** A client that answers the Spanish request, and no other, with a fenced
    block, and a parser that knows the empty object only. *)
Lemma generate_feedback_never_raises_witness :
  main.generate_feedback
    (OpenAI (λ model messages temperature max_tokens,
               if decide (messages
                          = [("system",
                              py "You are an expert pronunciation coach for Spanish language learners.");
                             ("user",
                              main.feedback_prompt (py "Spanish") (py "hola")
                                (py "ola"))])
               then Ok (py "Sure! ```json {} ``` Good luck.")
               else Raise "unexpected request")
            (λ _ _ _ _, Raise "no audio") (λ _ _ _, Raise "no speech"))
    (λ text, if decide (text = py "{}") then Ok (JDict [])
             else Raise "Expecting value")
    (py "hola") (py "ola") 77 "es"
  = Run [] (Ok (JDict [])).
Proof.
  eapply (proj2 (proj2 (proj1 (proj2
            (generate_feedback_never_raises _ _ (py "hola") (py "ola") 77
               "es")) _ _ eq_refl)));
    [by vm_compute|by vm_compute|reflexivity].
Defined.

(** ** The practice phrase *)

Section quotes.
Implicit Types (chars s ws p l r : str).

Lemma head_rev s : head (rev s) = last s.
Proof.
  induction s as [|c s _] using rev_ind; [done|].
  by rewrite rev_unit, last_snoc.
Qed.

Lemma last_rev s : last (rev s) = head s.
Proof. destruct s as [|c s]; [done|]. simpl. by rewrite last_snoc. Qed.

Lemma lstrip_chars_suffix chars s : ∃ p, s = p ++ lstrip_chars chars s.
Proof.
  induction s as [|c s [p Hp]]; [by exists []|]. simpl.
  destruct (bool_decide (c ∈ chars)); [|by exists []].
  exists (c :: p). simpl. by f_equal.
Qed.

Lemma lstrip_chars_head chars s c :
  head (lstrip_chars chars s) = Some c → c ∉ chars.
Proof.
  induction s as [|d s IH]; [done|]. simpl.
  destruct (bool_decide (d ∈ chars)) eqn:Hd; [done|].
  simpl. intros [= ->]. by apply bool_decide_eq_false in Hd.
Qed.

Lemma lstrip_chars_skip chars ws s :
  Forall (λ c, c ∈ chars) ws →
  lstrip_chars chars (ws ++ s) = lstrip_chars chars s.
Proof.
  induction 1 as [|c ws Hc _ IH]; [done|]. simpl.
  by rewrite bool_decide_eq_true_2.
Qed.

Lemma lstrip_chars_keep chars s :
  (∀ c, head s = Some c → c ∉ chars) → lstrip_chars chars s = s.
Proof.
  destruct s as [|c s]; [done|]. intros Hc. simpl.
  rewrite bool_decide_eq_false_2; [done|]. by apply Hc.
Qed.

Lemma lstrip_chars_all chars ws :
  Forall (λ c, c ∈ chars) ws → lstrip_chars chars ws = [].
Proof.
  intros Hws. rewrite <- (app_nil_r ws). by rewrite lstrip_chars_skip.
Qed.

Lemma strip_chars_infix chars s : ∃ p q, s = p ++ strip_chars chars s ++ q.
Proof.
  unfold strip_chars.
  destruct (lstrip_chars_suffix chars s) as [p Hp].
  destruct (lstrip_chars_suffix chars (rev (lstrip_chars chars s))) as [q Hq].
  exists p, (rev q). rewrite <- rev_app_distr, <- Hq, rev_involutive. done.
Qed.

(** What [strip(chars)] leaves neither starts nor ends with one of
    [chars]. *)
Lemma strip_chars_ends chars s c :
  head (strip_chars chars s) = Some c ∨ last (strip_chars chars s) = Some c →
  c ∉ chars.
Proof.
  unfold strip_chars. set (t := lstrip_chars chars s).
  intros [Hhead|Hlast].
  - destruct (lstrip_chars_suffix chars (rev t)) as [q Hq].
    apply (f_equal (@rev N)) in Hq.
    rewrite rev_involutive, rev_app_distr in Hq.
    apply (lstrip_chars_head chars s). fold t. rewrite Hq.
    by destruct (rev (lstrip_chars chars (rev t))).
  - rewrite last_rev in Hlast. by apply lstrip_chars_head in Hlast.
Qed.

(** A string between two runs of [chars] that neither starts nor ends with
    one of them is what [strip(chars)] gives. *)
Lemma strip_chars_wrapped chars l r p :
  Forall (λ c, c ∈ chars) l → Forall (λ c, c ∈ chars) r →
  (∀ c, head p = Some c ∨ last p = Some c → c ∉ chars) →
  strip_chars chars (l ++ p ++ r) = p.
Proof.
  intros Hl Hr Hp. unfold strip_chars. rewrite lstrip_chars_skip by done.
  destruct p as [|c p].
  - simpl. by rewrite (lstrip_chars_all chars r).
  - rewrite (lstrip_chars_keep chars ((c :: p) ++ r)).
    2:{ simpl. intros ? [= <-]. apply Hp. by left. }
    rewrite rev_app_distr, lstrip_chars_skip.
    2:{ by apply List.Forall_rev. }
    rewrite lstrip_chars_keep; [by rewrite rev_involutive|].
    intros d Hd. rewrite head_rev in Hd. apply Hp. by right.
Qed.

Lemma lstrip_skip ws s :
  Forall (λ c, isspace c = true) ws → lstrip (ws ++ s) = lstrip s.
Proof. induction 1 as [|c ws Hc _ IH]; [done|]. simpl. by rewrite Hc. Qed.

Lemma lstrip_keep s :
  (∀ c, head s = Some c → isspace c = false) → lstrip s = s.
Proof.
  destruct s as [|c s]; [done|]. intros Hc. simpl. by rewrite Hc.
Qed.

(** The same for [strip()] and whitespace. *)
Lemma strip_wrapped l r p :
  Forall (λ c, isspace c = true) l → Forall (λ c, isspace c = true) r →
  (∀ c, head p = Some c ∨ last p = Some c → isspace c = false) →
  strip (l ++ p ++ r) = p.
Proof.
  intros Hl Hr Hp. unfold strip, rstrip. rewrite lstrip_skip by done.
  destruct p as [|c p].
  - simpl. rewrite <- (app_nil_r r), (lstrip_skip r []) by done. done.
  - rewrite (lstrip_keep ((c :: p) ++ r)).
    2:{ simpl. intros ? [= <-]. apply Hp. by left. }
    rewrite rev_app_distr, lstrip_skip.
    2:{ by apply List.Forall_rev. }
    rewrite lstrip_keep; [by rewrite rev_involutive|].
    intros d Hd. rewrite head_rev in Hd. apply Hp. by right.
Qed.
End quotes.

Lemma not_elem_of_one (c d : N) : c ≠ d → c ∉ [d].
Proof.
  intros Hne Hin. inversion Hin as [|? ? ? Hnil]; subst; [done|].
  inversion Hnil.
Qed.

Lemma strip_chars_keep (chars p : str) :
  (∀ c, head p = Some c ∨ last p = Some c → c ∉ chars) →
  strip_chars chars p = p.
Proof.
  intros Hp.
  pose proof (strip_chars_wrapped chars [] [] p (List.Forall_nil _)
                (List.Forall_nil _) Hp) as Hw.
  by rewrite app_nil_l, app_nil_r in Hw.
Qed.

(** A table of three levels and two languages, read with the two
    defaults. *)
Lemma by_level_shape (e_en e_es i_en i_es d_en d_es : str)
    (language difficulty : string) :
  main.by_level
    {[ "easy" := {[ "en" := e_en; "es" := e_es ]};
       "intermediate" := {[ "en" := i_en; "es" := i_es ]};
       "difficult" := {[ "en" := d_en; "es" := d_es ]} ]}
    language difficulty
  = let '(en, es) :=
      if decide (difficulty = "intermediate") then (i_en, i_es)
      else if decide (difficulty = "difficult") then (d_en, d_es)
      else (e_en, e_es) in
    if decide (language = "en") then en
    else if decide (language = "es") then es
    else e_en.
Proof.
  unfold main.by_level. rewrite !lookup_total_alt.
  destruct (decide (difficulty = "easy")) as [->|?];
    [|destruct (decide (difficulty = "intermediate")) as [->|?];
      [|destruct (decide (difficulty = "difficult")) as [->|?]]];
    (destruct (decide (language = "en")) as [->|?];
     [|destruct (decide (language = "es")) as [->|?]]);
    repeat case_decide; simplify_map_eq; done.
Qed.

Section phrases.
Variable client : openai.
Implicit Types (language difficulty : string) (content p : str).

(** [generate_practice_phrase], by the outcome of the one request it
    makes. *)
Lemma generate_practice_phrase_unfold language difficulty :
  main.generate_practice_phrase client language difficulty
  = match
      chat_completions_create client "gpt-4"
        [("system",
          py "You are a language learning expert who generates practice phrases for pronunciation.");
         ("user",
          main.by_level main.difficulty_descriptions language difficulty
          ++ main.newline ++ main.newline
          ++ py "Return ONLY the phrase itself, nothing else. No quotation marks, no explanations, just the phrase.")]
        (9 # 10)%Q (Some 50%Z)
    with
    | Ok content =>
        Run [] (Ok (strip_chars (py "'")
                      (strip_chars main.quote (strip content))))
    | Raise e =>
        Run ["Phrase generation error: " +:+ e]
            (Ok (main.by_level main.fallback_phrases language difficulty))
    end.
Proof.
  unfold main.generate_practice_phrase. cbv zeta.
  by destruct (chat_completions_create client _ _ _ _).
Qed.

Lemma generate_practice_phrase_returns language difficulty :
  ∃ p, outcome (main.generate_practice_phrase client language difficulty)
       = Ok p.
Proof.
  rewrite generate_practice_phrase_unfold.
  destruct (chat_completions_create client _ _ _ _); eauto.
Qed.
End phrases.

(** X10.  [generate_practice_phrase] knows three levels and two languages,
    and takes everything else for the first of them: a language that is
    neither [en] nor [es] is served as easy English at every level, with the
    same request to the model, the same output and the same result, and a
    level that is none of the three as the easy level of the language. *)
Theorem practice_phrase_defaults (client : openai)
    (language difficulty : string) :
  (language ≠ "en" → language ≠ "es" →
   main.generate_practice_phrase client language difficulty
   = main.generate_practice_phrase client "en" "easy") ∧
  (difficulty ≠ "easy" → difficulty ≠ "intermediate" →
   difficulty ≠ "difficult" →
   main.generate_practice_phrase client language difficulty
   = main.generate_practice_phrase client language "easy").
Proof.
  unfold main.generate_practice_phrase, main.difficulty_descriptions,
    main.fallback_phrases. cbv zeta.
  rewrite !by_level_shape. split.
  - intros Hen Hes. by repeat case_decide.
  - intros He Hi Hd. by repeat case_decide.
Qed.

(** French at the difficult level, from a client whose chat call fails:
    the easy English phrase. *)
Lemma practice_phrase_defaults_witness :
  main.generate_practice_phrase
    (OpenAI (λ _ _ _ _, Raise "Connection error.")
            (λ _ _ _ _, Raise "no audio") (λ _ _ _, Raise "no speech"))
    "fr" "difficult"
  = Run ["Phrase generation error: Connection error."]
        (Ok (py "How are you today?")).
Proof.
  rewrite (proj1 (practice_phrase_defaults _ "fr" "difficult"));
    [by vm_compute|done|done].
Defined.

(** X11.  [generate_practice_phrase] never raises.  It makes one request:
    to [gpt-4], with its system message, the description of the level in
    the language followed by the instruction as the user message,
    temperature 0.9 and at most 50 tokens.  When that request raises, it
    prints one line and returns the phrase of the fallback table for the
    level and the language: one of six phrases, the easy ones for a level
    that is none of the three, the easy English one for a language that is
    neither [en] nor [es]. *)
Theorem practice_phrase_never_raises (client : openai)
    (language difficulty : string) :
  (∃ p, outcome (main.generate_practice_phrase client language difficulty)
        = Ok p) ∧
  (∀ e,
     chat_completions_create client "gpt-4"
       [("system",
         py "You are a language learning expert who generates practice phrases for pronunciation.");
        ("user",
         main.by_level main.difficulty_descriptions language difficulty
         ++ main.newline ++ main.newline
         ++ py "Return ONLY the phrase itself, nothing else. No quotation marks, no explanations, just the phrase.")]
       (9 # 10)%Q (Some 50%Z) = Raise e →
     main.generate_practice_phrase client language difficulty
     = Run ["Phrase generation error: " +:+ e]
           (Ok (let '(en, es) :=
                  if decide (difficulty = "intermediate")
                  then (py "I would like to order some coffee please.",
                        py "Me gustar" ++ [237%N] ++ py "a pedir un caf"
                        ++ [233%N] ++ py " por favor.")
                  else if decide (difficulty = "difficult")
                  then (py "Could you recommend a restaurant that serves authentic cuisine?",
                        [191%N] ++ py "Podr" ++ [237%N]
                        ++ py "as recomendar un restaurante que sirva comida aut"
                        ++ [233%N] ++ py "ntica?")
                  else (py "How are you today?", como_estas_target) in
                if decide (language = "en") then en
                else if decide (language = "es") then es
                else py "How are you today?"))).
Proof.
  split; [apply generate_practice_phrase_returns|].
  intros e Hraise. rewrite generate_practice_phrase_unfold, Hraise.
  do 2 f_equal. unfold main.fallback_phrases. rewrite by_level_shape.
  by repeat case_decide.
Qed.

(** A client whose chat call fails on the request for an easy Spanish
    phrase. *)
Lemma practice_phrase_never_raises_witness :
  main.generate_practice_phrase
    (OpenAI (λ model messages temperature max_tokens,
               if decide (messages
                          = [("system",
                              py "You are a language learning expert who generates practice phrases for pronunciation.");
                             ("user",
                              main.by_level main.difficulty_descriptions
                                "es" "easy"
                              ++ main.newline ++ main.newline
                              ++ py "Return ONLY the phrase itself, nothing else. No quotation marks, no explanations, just the phrase.")])
               then Raise "Connection error."
               else Ok (py "unexpected request"))
            (λ _ _ _ _, Raise "no audio") (λ _ _ _, Raise "no speech"))
    "es" "easy"
  = Run ["Phrase generation error: Connection error."]
        (Ok como_estas_target).
Proof.
  apply (proj2 (practice_phrase_never_raises _ "es" "easy")).
  by vm_compute.
Defined.

(** X12.  When the request of [generate_practice_phrase] is answered, it
    prints nothing and returns a part of the answer that neither starts
    nor ends with an apostrophe. *)
Theorem practice_phrase_unquoted (client : openai)
    (language difficulty : string) (content : str) :
  chat_completions_create client "gpt-4"
    [("system",
      py "You are a language learning expert who generates practice phrases for pronunciation.");
     ("user",
      main.by_level main.difficulty_descriptions language difficulty
      ++ main.newline ++ main.newline
      ++ py "Return ONLY the phrase itself, nothing else. No quotation marks, no explanations, just the phrase.")]
    (9 # 10)%Q (Some 50%Z) = Ok content →
  ∃ p,
    main.generate_practice_phrase client language difficulty
    = Run [] (Ok p) ∧
    (∃ a b, content = a ++ p ++ b) ∧
    head p ≠ Some 39%N ∧ last p ≠ Some 39%N.
Proof.
  intros Hreply.
  rewrite generate_practice_phrase_unfold, Hreply.
  eexists. split; [reflexivity|]. split_and!.
  - destruct (strip_infix content) as (a1 & b1 & H1).
    destruct (strip_chars_infix main.quote (strip content))
      as (a2 & b2 & H2).
    destruct (strip_chars_infix (py "'")
                (strip_chars main.quote (strip content))) as (a3 & b3 & H3).
    exists (a1 ++ a2 ++ a3), (b3 ++ b2 ++ b1).
    rewrite H1 at 1. rewrite H2 at 1. rewrite H3 at 1.
    by rewrite <- !app_assoc.
  - intros Hhead.
    apply (strip_chars_ends (py "'") _ 39%N (or_introl Hhead)).
    by left.
  - intros Hlast.
    apply (strip_chars_ends (py "'") _ 39%N (or_intror Hlast)).
    by left.
Qed.

(** An answer in apostrophes around double quotes keeps the double
    quotes. *)
Lemma practice_phrase_unquoted_witness :
  ∃ p,
    main.generate_practice_phrase
      (OpenAI (λ model _ _ max_tokens,
                 if decide (model = "gpt-4" ∧ max_tokens = Some 50%Z)
                 then Ok (py "'" ++ main.quote ++ py "Good morning"
                          ++ main.quote ++ py "'")
                 else Raise "unexpected request")
              (λ _ _ _ _, Raise "no audio") (λ _ _ _, Raise "no speech"))
      "en" "easy"
    = Run [] (Ok p) ∧
    p = main.quote ++ py "Good morning" ++ main.quote.
Proof.
  destruct (practice_phrase_unquoted
              (OpenAI (λ model _ _ max_tokens,
                         if decide (model = "gpt-4"
                                    ∧ max_tokens = Some 50%Z)
                         then Ok (py "'" ++ main.quote ++ py "Good morning"
                                  ++ main.quote ++ py "'")
                         else Raise "unexpected request")
                 (λ _ _ _ _, Raise "no audio") (λ _ _ _, Raise "no speech"))
              "en" "easy"
              (py "'" ++ main.quote ++ py "Good morning" ++ main.quote
               ++ py "'")
              ltac:(by vm_compute))
    as (p & Hrun & _).
  exists p. split; [exact Hrun|].
  vm_compute in Hrun. injection Hrun as <-. reflexivity.
Defined.

(** X13.  A phrase the model wraps in one pair of double quotes or of
    apostrophes, with whitespace around, comes back without them: when
    the request is answered with [ws1 q p q ws2], where [p] neither starts
    nor ends with a quote of either kind, [generate_practice_phrase]
    returns [p]. *)
Theorem practice_phrase_quoted_reply (client : openai)
    (language difficulty : string) (q : N) (ws1 ws2 p : str) :
  chat_completions_create client "gpt-4"
    [("system",
      py "You are a language learning expert who generates practice phrases for pronunciation.");
     ("user",
      main.by_level main.difficulty_descriptions language difficulty
      ++ main.newline ++ main.newline
      ++ py "Return ONLY the phrase itself, nothing else. No quotation marks, no explanations, just the phrase.")]
    (9 # 10)%Q (Some 50%Z) = Ok (ws1 ++ [q] ++ p ++ [q] ++ ws2) →
  q = 34%N ∨ q = 39%N →
  Forall (λ c, isspace c = true) ws1 →
  Forall (λ c, isspace c = true) ws2 →
  (∀ c, head p = Some c ∨ last p = Some c → c ≠ 34%N ∧ c ≠ 39%N) →
  main.generate_practice_phrase client language difficulty = Run [] (Ok p).
Proof.
  intros Hreply Hq Hws1 Hws2 Hp.
  rewrite generate_practice_phrase_unfold, Hreply.
  do 2 f_equal.
  assert (Hends : ∀ c, head ([q] ++ p ++ [q]) = Some c
                       ∨ last ([q] ++ p ++ [q]) = Some c → c = q).
  { intros c [Hc|Hc].
    - simpl in Hc. by injection Hc.
    - change ([q] ++ p ++ [q]) with ((q :: p) ++ [q]) in Hc.
      rewrite last_snoc in Hc. by injection Hc. }
  replace (ws1 ++ [q] ++ p ++ [q] ++ ws2)
    with (ws1 ++ ([q] ++ p ++ [q]) ++ ws2)
    by (by rewrite <- !app_assoc).
  rewrite strip_wrapped; [|done|done|].
  2:{ intros c Hc. apply Hends in Hc as ->. by destruct Hq as [->| ->]. }
  change (py "'") with [39%N]. unfold main.quote.
  destruct Hq as [->| ->].
  - rewrite (strip_chars_wrapped [34%N] [34%N] [34%N] p).
    + apply strip_chars_keep. intros c Hc. apply not_elem_of_one.
      by apply Hp.
    + by repeat constructor.
    + by repeat constructor.
    + intros c Hc. apply not_elem_of_one. by apply Hp.
  - rewrite (strip_chars_keep [34%N]).
    + apply (strip_chars_wrapped [39%N] [39%N] [39%N] p).
      * by repeat constructor.
      * by repeat constructor.
      * intros c Hc. apply not_elem_of_one. by apply Hp.
    + intros c Hc. apply Hends in Hc as ->. by apply not_elem_of_one.
Qed.

Lemma practice_phrase_quoted_reply_witness :
  main.generate_practice_phrase
    (OpenAI (λ model _ _ max_tokens,
               if decide (model = "gpt-4" ∧ max_tokens = Some 50%Z)
               then Ok (py " " ++ [34%N] ++ py "Where is the station?"
                        ++ [34%N] ++ main.newline)
               else Raise "unexpected request")
            (λ _ _ _ _, Raise "no audio") (λ _ _ _, Raise "no speech"))
    "en" "intermediate"
  = Run [] (Ok (py "Where is the station?")).
Proof.
  apply (practice_phrase_quoted_reply _ "en" "intermediate" 34%N (py " ")
           main.newline (py "Where is the station?")).
  - reflexivity.
  - by left.
  - by repeat constructor.
  - by repeat constructor.
  - intros c [Hc|Hc]; vm_compute in Hc; injection Hc as <-; done.
Defined.

(** X14.  The handler of [/generate-phrase] never raises and never prints
    its own error line: it returns a dictionary with the one key [phrase],
    holding what [generate_practice_phrase] returned, after the output of
    that call. *)
Theorem generate_phrase_endpoint_never_raises (client : openai)
    (language difficulty : string) :
  ∃ p,
    outcome (main.generate_practice_phrase client language difficulty)
    = Ok p ∧
    main.generate_phrase_endpoint client language difficulty
    = Run (stdout (main.generate_practice_phrase client language difficulty))
          (Ok (JDict [(py "phrase", JString p)])).
Proof.
  destruct (generate_practice_phrase_returns client language difficulty)
    as [p Hp].
  exists p. split; [done|].
  unfold main.generate_phrase_endpoint. by rewrite Hp.
Qed.

(** ** The handlers *)

Section temporary_file.
Context `{PyFloat F}.
Variables (client : openai) (json_loads : str → result json).
Variable open_error : string → string.
Variables (lower : str → str) (audio : files → audio_library F).
Variable tempname : files → string → string.
Variable temp_write : files → bytes → option (bytes * string).
Implicit Types (fs : files) (content : bytes) (language : string).

(** [transcribe_audio] on a file that holds [content]. *)
Lemma transcribe_written fs path content language :
  fs !! path = Some content →
  main.transcribe_audio client open_error fs path language
  = match audio_transcriptions_create client "whisper-1" content "text"
            language with
    | Ok t => Run [] (Ok t)
    | Raise e => Run ["Transcription error: " +:+ e] (Raise e)
    end.
Proof.
  intros Hfile. unfold main.transcribe_audio, main.open_rb. rewrite Hfile.
  cbn [mbind result_bind].
  by destruct (audio_transcriptions_create client _ _ _ _).
Qed.

(** The handler once the upload is read and written: the [try] statement
    on the files that hold the upload at the temporary path, and the
    files without that path. *)
Lemma analyze_pronunciation_written fs content target language :
  temp_write (<[tempname fs ".wav" := []]> fs) content = None →
  main.analyze_pronunciation client json_loads open_error lower audio
    tempname temp_write fs (Ok content) target language
  = (delete (tempname fs ".wav") fs,
     transcription ← main.transcribe_audio client open_error
                       (<[tempname fs ".wav" := content]> fs)
                       (tempname fs ".wav") language;
     analysis ← get_detailed_analysis lower
                  (audio (<[tempname fs ".wav" := content]> fs)) target
                  transcription (tempname fs ".wav");
     feedback_data ← main.generate_feedback client json_loads target
                       transcription (score analysis) language;
     feedback ← lift (json_get feedback_data (py "feedback") (JString []));
     suggestions ← lift (json_get feedback_data (py "suggestions") (JList []));
     mret (Response transcription (score analysis) feedback suggestions
             (prosody_feedback analysis) (audio_features analysis))).
Proof.
  intros Hwrite. unfold main.analyze_pronunciation. cbv zeta.
  rewrite Hwrite, !insert_insert_eq, lookup_insert_eq, delete_insert_eq.
  reflexivity.
Qed.
End temporary_file.

Lemma outcome_bind {A B} (m : run A) (f : A → run B) a :
  outcome m = Ok a → outcome (m ≫= f) = outcome (f a).
Proof. intros Hm. unfold mbind, run_bind. by rewrite Hm. Qed.

Lemma outcome_bind_raise {A B} (m : run A) (f : A → run B) e :
  outcome m = Raise e → m ≫= f = Run (stdout m) (Raise e).
Proof. intros Hm. unfold mbind, run_bind. by rewrite Hm. Qed.

Lemma generate_feedback_returns (client : openai)
    (json_loads : str → result json) target transcription (score : Z)
    (language : string) :
  ∃ v, outcome (main.generate_feedback client json_loads target transcription
                  score language) = Ok v.
Proof.
  destruct (generate_feedback_cases client json_loads target transcription
              score language) as [(e & ->)|(t & v & _ & ->)]; eauto.
Qed.

(** X15.  [transcribe_audio] prints exactly when it raises, and what it
    raises is the error it caught.  For a path that cannot be opened it is
    the error of [open], whatever that error is (no such file, a
    directory, no permission) and whatever the client would answer; for a
    file that can be opened it is the outcome of the speech-to-text call
    on the content of the file. *)
Theorem transcribe_audio_reraises (client : openai)
    (open_error : string → string) (fs : files)
    (audio_file_path language : string) :
  ((∃ t, main.transcribe_audio client open_error fs audio_file_path language
         = Run [] (Ok t)) ∨
   (∃ e, main.transcribe_audio client open_error fs audio_file_path language
         = Run ["Transcription error: " +:+ e] (Raise e))) ∧
  (fs !! audio_file_path = None →
   main.transcribe_audio client open_error fs audio_file_path language
   = Run ["Transcription error: " +:+ open_error audio_file_path]
         (Raise (open_error audio_file_path))) ∧
  (∀ file t,
     fs !! audio_file_path = Some file →
     audio_transcriptions_create client "whisper-1" file "text" language
     = Ok t →
     main.transcribe_audio client open_error fs audio_file_path language
     = Run [] (Ok t)) ∧
  (∀ file e,
     fs !! audio_file_path = Some file →
     audio_transcriptions_create client "whisper-1" file "text" language
     = Raise e →
     main.transcribe_audio client open_error fs audio_file_path language
     = Run ["Transcription error: " +:+ e] (Raise e)).
Proof.
  unfold main.transcribe_audio, main.open_rb. split_and!.
  - destruct (fs !! audio_file_path) as [file|]; cbn [mbind result_bind];
      [|right; by eexists].
    destruct (audio_transcriptions_create client _ _ _ _) as [t|e];
      [left; by exists t|right; by exists e].
  - by intros ->.
  - intros file t -> Ht. cbn [mbind result_bind]. by rewrite Ht.
  - intros file e -> He. cbn [mbind result_bind]. by rewrite He.
Qed.

(** The path of a directory: the error of [open] is the one raised,
    though the client would have answered. *)
Lemma transcribe_audio_reraises_witness :
  main.transcribe_audio
    (OpenAI (λ _ _ _ _, Raise "no chat")
            (λ _ _ _ _, Ok (py "hola")) (λ _ _ _, Raise "no speech"))
    (λ path, "[Errno 21] Is a directory: '" +:+ path +:+ "'")
    ∅ "/tmp" "es"
  = Run ["Transcription error: [Errno 21] Is a directory: '/tmp'"]
        (Raise "[Errno 21] Is a directory: '/tmp'").
Proof.
  apply (proj1 (proj2 (transcribe_audio_reraises
                         (OpenAI (λ _ _ _ _, Raise "no chat")
                            (λ _ _ _ _, Ok (py "hola"))
                            (λ _ _ _, Raise "no speech"))
                         (λ path, "[Errno 21] Is a directory: '" +:+ path
                                  +:+ "'")
                         ∅ "/tmp" "es"))).
  reflexivity.
Defined.

(** X16.  The temporary file of the handler of [/analyze].  The handler
    touches no other path.  The file is created, read into and written
    before the [try] statement, so the [finally] clause removes it on
    every way out of the [try] statement only: once the upload is read and
    written, there is no file at the temporary path afterwards, whether
    the analysis returned or raised, and with a new temporary name the
    files are exactly those from before the request.  When reading the
    upload raises, the handler raises that error, prints nothing and
    leaves the empty file behind; when writing raises, it leaves behind
    what was written. *)
Theorem analyze_pronunciation_cleans_up `{PyFloat F} (client : openai)
    (json_loads : str → result json) (open_error : string → string)
    (lower : str → str) (audio : files → audio_library F)
    (tempname : files → string → string)
    (temp_write : files → bytes → option (bytes * string))
    (fs : files) (upload : result bytes) (target : str) (language : string) :
  ∃ after r,
    main.analyze_pronunciation client json_loads open_error lower audio
      tempname temp_write fs upload target language = (after, r) ∧
    (∀ p, p ≠ tempname fs ".wav" → after !! p = fs !! p) ∧
    (∀ content,
       upload = Ok content →
       temp_write (<[tempname fs ".wav" := []]> fs) content = None →
       after !! tempname fs ".wav" = None ∧
       (fs !! tempname fs ".wav" = None → after = fs)) ∧
    (∀ e,
       upload = Raise e →
       after !! tempname fs ".wav" = Some [] ∧ r = Run [] (Raise e)) ∧
    (∀ content written e,
       upload = Ok content →
       temp_write (<[tempname fs ".wav" := []]> fs) content
       = Some (written, e) →
       after !! tempname fs ".wav" = Some written ∧ r = Run [] (Raise e)).
Proof.
  destruct upload as [content|e].
  - destruct (temp_write (<[tempname fs ".wav" := []]> fs) content)
      as [[written e]|] eqn:Hwrite.
    + do 2 eexists. split.
      { unfold main.analyze_pronunciation. cbv zeta. by rewrite Hwrite. }
      split_and!.
      * intros p Hp. by rewrite !lookup_insert_ne.
      * intros content' [= <-]. congruence.
      * done.
      * intros content' written' e' [= <-] Hw. rewrite Hwrite in Hw.
        injection Hw as <- <-. by rewrite lookup_insert_eq.
    + do 2 eexists. split; [by apply analyze_pronunciation_written|].
      split_and!.
      * intros p Hp. by apply lookup_delete_ne.
      * intros _ _ _. split; [apply lookup_delete_eq|apply delete_id].
      * done.
      * intros content' written e [= <-]. congruence.
  - do 2 eexists. split; [reflexivity|]. split_and!.
    + intros p Hp. by rewrite lookup_insert_ne.
    + done.
    + intros e' [= <-]. by rewrite lookup_insert_eq.
    + done.
Qed.

(** X17.  The recording that reaches the speech-to-text call is the
    uploaded one, read back from the temporary file it was written to;
    when that call raises, the handler of [/analyze] prints the one line of
    [transcribe_audio] and raises the same error: nothing is scored and no
    feedback is asked for. *)
Theorem analyze_pronunciation_transcription_error `{PyFloat F}
    (client : openai) (json_loads : str → result json)
    (open_error : string → string) (lower : str → str)
    (audio : files → audio_library F) (tempname : files → string → string)
    (temp_write : files → bytes → option (bytes * string))
    (fs : files) (content : bytes) (target : str) (language e : string) :
  temp_write (<[tempname fs ".wav" := []]> fs) content = None →
  audio_transcriptions_create client "whisper-1" content "text" language
  = Raise e →
  (main.analyze_pronunciation client json_loads open_error lower audio
     tempname temp_write fs (Ok content) target language).2
  = Run ["Transcription error: " +:+ e] (Raise e).
Proof.
  intros Hwrite He. rewrite analyze_pronunciation_written by done.
  cbn [snd].
  rewrite (outcome_bind_raise _ _ e);
    rewrite (transcribe_written _ _ _ _ content)
      by apply lookup_insert_eq;
    by rewrite He.
Qed.

Lemma analyze_pronunciation_transcription_error_witness :
  (main.analyze_pronunciation (H:=binary64)
     (OpenAI (λ _ _ _ _, Raise "no chat")
             (λ _ _ _ _, Raise "Invalid file format.")
             (λ _ _ _, Raise "no speech"))
     (λ _, Raise "no parser")
     (λ path, "[Errno 2] No such file or directory: '" +:+ path +:+ "'")
     lower_latin1 (λ _, toy_library64)
     (λ _ suffix, "/tmp/tmp0" +:+ suffix) (λ _ _, None) ∅ (Ok [])
     (py "hola") "es").2
  = Run ["Transcription error: Invalid file format."]
        (Raise "Invalid file format.").
Proof.
  by apply (analyze_pronunciation_transcription_error (H:=binary64)).
Defined.

(** X18.  In binary64, once the recording is written and transcribed the
    handler of [/analyze] can fail in one way only.  The analysis returns
    a score between 0 and 100, the one the two texts get with no audio
    features; [generate_feedback] returns a value; and the handler returns
    its response when that value is a dictionary, with the two defaults
    for missing keys, and raises an attribute error for every other JSON
    value the model's reply parsed to.  The target has fewer than [2^63]
    characters, the normal forms of target and transcript fewer than
    [2^53]. *)
Theorem analyze_pronunciation_response (client : openai)
    (json_loads : str → result json) (open_error : string → string)
    (lower : str → str)
    (audio : files → audio_library float) (tempname : files → string → string)
    (temp_write : files → bytes → option (bytes * string))
    (fs : files) (content : bytes) (target t : str) (language : string) :
  temp_write (<[tempname fs ".wav" := []]> fs) content = None →
  audio_transcriptions_create client "whisper-1" content "text" language
  = Ok t →
  (Z.of_nat (length target) < 2 ^ 63)%Z →
  (Z.of_nat (length (strip (lower target))) < 2 ^ 53)%Z →
  (Z.of_nat (length (strip (lower t))) < 2 ^ 53)%Z →
  ∃ z fb a,
    calculate_advanced_score (H:=binary64) lower target t ∅ = Some z ∧
    (0 ≤ z ≤ 100)%Z ∧
    outcome (main.generate_feedback client json_loads target t z language)
    = Ok fb ∧
    outcome (get_detailed_analysis (H:=binary64) lower
               (audio (<[tempname fs ".wav" := content]> fs)) target t
               (tempname fs ".wav")) = Ok a ∧
    score a = z ∧
    outcome (main.analyze_pronunciation (H:=binary64) client json_loads
               open_error lower audio tempname temp_write fs (Ok content)
               target language).2
    = match fb with
      | JDict d =>
          Ok (Response t z
                (default (JString []) (assoc (py "feedback") d))
                (default (JList []) (assoc (py "suggestions") d))
                (prosody_feedback a) (audio_features a))
      | _ => Raise ("'" +:+ type_name fb
                    +:+ "' object has no attribute 'get'")
      end.
Proof.
  intros Hwrite Ht Hlen HT HR.
  rewrite analyze_pronunciation_written by done. cbn [snd].
  set (path := tempname fs ".wav"). set (fs' := <[path := content]> fs).
  destruct (extract_no_duration (audio fs') path) as (m & Hm & Hdur).
  destruct (analysis_score64 lower target t m Hlen HT HR Hdur)
    as (z & Hz & Hz0 & Hrange).
  destruct (generate_feedback_returns client json_loads target t z language)
    as [fb Hfb].
  pose proof (get_detailed_analysis_returns lower (audio fs') target t path
                m z Hm Hz) as Ha.
  exists z, fb, (Analysis z m (analyze_prosody m target)). split_and!.
  - done.
  - lia.
  - lia.
  - done.
  - by rewrite Ha.
  - done.
  - rewrite (outcome_bind _ _ t)
      by (unfold fs', path;
          rewrite (transcribe_written _ _ _ _ content)
            by apply lookup_insert_eq;
          by rewrite Ht).
    rewrite (outcome_bind _ _ (Analysis z m (analyze_prosody m target)))
      by (by rewrite Ha).
    cbn [score]. rewrite (outcome_bind _ _ fb) by done.
    by destruct fb.
Qed.

(** A model that answers with a JSON list: the parser accepts the reply,
    and the handler raises. *)
Lemma analyze_pronunciation_response_witness :
  ∃ z,
    calculate_advanced_score (H:=binary64) lower_latin1 (py "hola mundo")
      (py "hola") ∅ = Some z ∧
    outcome (main.analyze_pronunciation (H:=binary64)
               (OpenAI (λ _ _ _ _, Ok (py "[]"))
                       (λ _ _ _ _, Ok (py "hola"))
                       (λ _ _ _, Raise "no speech"))
               (λ text, if decide (text = py "[]") then Ok (JList [])
                        else Raise "Expecting value")
               (λ path, "[Errno 2] No such file or directory: '" +:+ path
                        +:+ "'")
               lower_latin1 (λ _, toy_library64)
               (λ _ suffix, "/tmp/tmp0" +:+ suffix) (λ _ _, None) ∅ (Ok [])
               (py "hola mundo") "es").2
    = Raise "'list' object has no attribute 'get'".
Proof.
  destruct (analyze_pronunciation_response
              (OpenAI (λ _ _ _ _, Ok (py "[]")) (λ _ _ _ _, Ok (py "hola"))
                 (λ _ _ _, Raise "no speech"))
              (λ text, if decide (text = py "[]") then Ok (JList [])
                       else Raise "Expecting value")
              (λ path, "[Errno 2] No such file or directory: '" +:+ path
                       +:+ "'")
              lower_latin1 (λ _, toy_library64)
              (λ _ suffix, "/tmp/tmp0" +:+ suffix) (λ _ _, None) ∅ []
              (py "hola mundo") (py "hola") "es" eq_refl eq_refl
              ltac:(by vm_compute) ltac:(by vm_compute) ltac:(by vm_compute))
    as (z & fb & a & Hz & _ & Hfb & _ & _ & Hout).
  exists z. split; [exact Hz|].
  rewrite Hout. vm_compute in Hfb. injection Hfb as <-. reflexivity.
Defined.


